(** * Content-intelligence library: job registry, engagement summary,
      voice resolution, topic cache and the background workers of [app.py].

    The Python module keeps every collection in a whole-document JSON file
    and mutates it by load / modify / write.  The embedding below keeps the
    documents as values (ordered dictionaries as association lists, because
    Python dictionaries iterate in insertion order and the retention policy
    breaks ties by that order), and threads them through the workers with a
    small state-and-exception monad. *)

From Stdlib Require Import String Ascii List ZArith NArith Lia Bool Arith.
From Stdlib Require Import Permutation Sorting.Sorted DecimalString.
Import ListNotations.

Local Open Scope list_scope.

(* ------------------------------------------------------------------ *)
(** ** Ordered dictionaries (Python [dict] with string keys)            *)
(* ------------------------------------------------------------------ *)

Section Dict.
Context {V : Type}.

Definition dict : Type := list (string * V).

Definition keys (d : dict) : list string := map fst d.

(** [d.get(k)] *)
Fixpoint dict_get (d : dict) (k : string) : option V :=
  match d with
  | [] => None
  | (k', v) :: d' => if String.eqb k' k then Some v else dict_get d' k
  end.

(** [d[k] = v]: an existing key keeps its position, a new key goes last. *)
Fixpoint dict_set (d : dict) (k : string) (v : V) : dict :=
  match d with
  | [] => [(k, v)]
  | (k', v') :: d' =>
      if String.eqb k' k then (k, v) :: d' else (k', v') :: dict_set d' k v
  end.

(** [del d[k]] *)
Definition dict_del (d : dict) (k : string) : dict :=
  filter (fun e => negb (String.eqb (fst e) k)) d.

(** [k in ks] for a list of keys. *)
Definition mem (k : string) (ks : list string) : bool :=
  existsb (String.eqb k) ks.
End Dict.

Arguments dict V : clear implicits.

(* ------------------------------------------------------------------ *)
(** ** Data model                                                       *)
(* ------------------------------------------------------------------ *)

(** The four literals the module ever stores under ["status"] of a job. *)
Inductive Status : Type := Queued | Running | Done | Error.

Inductive JobType : Type := Generate | Chat | SeriesEp.

(** A topic object as the generation service returns it.  Keys the code
    reads with [topic['k']] are optional here: a missing key is a
    [KeyError]. *)
Record Topic : Type := mkTopic {
  rank : option Z;
  title : option string;
  tension : option string;
  why_it_matters : option string;
  common_mistake : option string;
  sub_questions : list string;
  trailer_hook : option string;
  production_brief : option string;
  series_context : option string;
  episode_number : option Z
}.

(** An entry of [episodes.json]. *)
Record Episode : Type := mkEpisode {
  ep_id : string;
  ep_title : string;
  ep_description : string;
  ep_file : string;
  ep_file_size : nat;
  ep_depth : string;
  ep_is_trailer : bool;
  ep_sources : list string;
  ep_published : string;
  ep_series_id : option string;
  ep_series_ep : option nat
}.

(** The ["result"] payload of a finished job. *)
Record JobResult : Type := mkJobResult {
  res_topic : option Topic;
  res_episode : Episode;
  res_sources : list string
}.

Record Job : Type := mkJob {
  j_id : string;
  j_type : JobType;
  j_status : Status;
  j_created_at : string;
  j_updated_at : string;
  j_progress : string;
  j_result : option JobResult;
  j_error : option string;
  j_series_id : option string;
  j_series_ep : option Z
}.

(** The keyword arguments the workers pass to [update_job]. *)
Record JobFields : Type := mkFields {
  k_status : option Status;
  k_progress : option string;
  k_result : option JobResult;
  k_error : option string
}.

(* ------------------------------------------------------------------ *)
(** ** Job registry                                                     *)
(* ------------------------------------------------------------------ *)

(** [sorted(xs, key=...)]: Python's sort is stable, so it returns the one
    stable arrangement, which insertion from the right also computes. *)
Fixpoint insert_by (key : string -> string) (x : string) (l : list string)
  : list string :=
  match l with
  | [] => [x]
  | y :: l' =>
      if String.leb (key x) (key y) then x :: l else y :: insert_by key x l'
  end.

Definition sorted (key : string -> string) (l : list string) : list string :=
  fold_right (insert_by key) [] l.

(** [jobs[k].get("created_at", "")] *)
Definition created_key (jobs : dict Job) (k : string) : string :=
  match dict_get jobs k with
  | Some j => j_created_at j
  | None => EmptyString
  end.

(** [_save_jobs]: the value is the document written to the jobs file. *)
Definition _save_jobs (jobs : dict Job) : dict Job :=
  if 200 <? length jobs then
    let sorted_keys := sorted (created_key jobs) (keys jobs) in
    fold_left dict_del (firstn (length sorted_keys - 200) sorted_keys) jobs
  else jobs.

Definition new_job (job_id : string) (now1 now2 : string) (job_type : JobType)
    (series_id : option string) (series_ep : option Z) : Job :=
  {| j_id := job_id; j_type := job_type; j_status := Queued;
     j_created_at := now1; j_updated_at := now2;
     j_progress := "Queued..."%string;
     j_result := None; j_error := None;
     j_series_id := series_id; j_series_ep := series_ep |}.

(** [create_job] on the loaded document; [job_id] is the token drawn from
    [uuid4] and [now1], [now2] the two clock readings. *)
Definition create_job_doc (jobs : dict Job) (job_id now1 now2 : string)
    (job_type : JobType) (series_id : option string) (series_ep : option Z)
  : dict Job :=
  _save_jobs (dict_set jobs job_id
                (new_job job_id now1 now2 job_type series_id series_ep)).

(** [jobs[job_id].update(kwargs)] with ["updated_at"] already added. *)
Definition merge_fields (j : Job) (now : string) (kw : JobFields) : Job :=
  {| j_id := j_id j; j_type := j_type j;
     j_status := match k_status kw with Some s => s | None => j_status j end;
     j_created_at := j_created_at j;
     j_updated_at := now;
     j_progress := match k_progress kw with Some p => p | None => j_progress j end;
     j_result := match k_result kw with Some r => Some r | None => j_result j end;
     j_error := match k_error kw with Some e => Some e | None => j_error j end;
     j_series_id := j_series_id j; j_series_ep := j_series_ep j |}.

(** [update_job] on the loaded document: [None] when the id is unknown and
    nothing is written. *)
Definition update_job_doc (jobs : dict Job) (job_id now : string)
    (kw : JobFields) : option (dict Job) :=
  match dict_get jobs job_id with
  | Some j => Some (_save_jobs (dict_set jobs job_id (merge_fields j now kw)))
  | None => None
  end.

Definition clearable (s : Status) : bool :=
  match s with Queued | Error => true | Running | Done => false end.

(** The loop of [clear_queue] over [list(jobs.keys())]. *)
Definition clear_step (acc : dict Job * nat) (jid : string) : dict Job * nat :=
  match dict_get (fst acc) jid with
  | Some j =>
      if clearable (j_status j) then (dict_del (fst acc) jid, S (snd acc))
      else acc
  | None => acc
  end.

(** [clear_queue]: the written document and the returned count. *)
Definition clear_queue (jobs : dict Job) : dict Job * nat :=
  let r := fold_left clear_step (keys jobs) (jobs, 0) in
  (_save_jobs (fst r), snd r).

(** The order the sort key induces on dictionary keys. *)
Definition key_le (key : string -> string) (a b : string) : Prop :=
  String.leb (key a) (key b) = true.

(** [sorted_keys[:-200]] of [_save_jobs]. *)
Definition evicted_keys (jobs : dict Job) : list string :=
  let sorted_keys := sorted (created_key jobs) (keys jobs) in
  firstn (length sorted_keys - 200) sorted_keys.

(** Decidable check that a list of keys has no repetition. *)
Fixpoint nodupb (l : list string) : bool :=
  match l with
  | [] => true
  | x :: l' => negb (mem x l') && nodupb l'
  end.

(** Sample registries for the examples: [n] jobs whose one-character id
    and creation stamp are the character of code [lo + i]. *)
Definition sample_job (st : Status) (c : nat) : string * Job :=
  let s := String (ascii_of_nat c) EmptyString in
  (s, {| j_id := s; j_type := Generate; j_status := st;
         j_created_at := s; j_updated_at := s; j_progress := EmptyString;
         j_result := None; j_error := None;
         j_series_id := None; j_series_ep := None |}).

Definition sample_registry (lo n : nat) : dict Job :=
  map (sample_job Done) (seq lo n).


(* ------------------------------------------------------------------ *)
(** ** JSON documents on disk                                           *)
(* ------------------------------------------------------------------ *)

(** What a [load_*] function finds: no file, a file [json.loads] rejects,
    or a document. *)
Inductive FileState (A : Type) : Type :=
  | Absent
  | Unparsable
  | Parsed (doc : A).

Arguments Absent {A}.
Arguments Unparsable {A}.
Arguments Parsed {A} doc.

(* ------------------------------------------------------------------ *)
(** ** Engagement log                                                   *)
(* ------------------------------------------------------------------ *)

Record Event : Type := mkEvent {
  ev_event_type : option string;
  ev_topic_title : option string;
  ev_pct : option Z
}.

Definition load_engagement (f : FileState (list Event)) : list Event :=
  match f with
  | Parsed events => events
  | Absent | Unparsable => []
  end.

(** [e.get("topic_title", "")], [e.get("event_type", "")], [e.get("pct", 0)] *)
Definition ev_title (e : Event) : string :=
  match ev_topic_title e with Some t => t | None => EmptyString end.

Definition ev_type (e : Event) : string :=
  match ev_event_type e with Some t => t | None => EmptyString end.

Definition ev_pct0 (e : Event) : Z :=
  match ev_pct e with Some p => p | None => 0%Z end.

Record Signals : Type := mkSignals {
  sg_previewed : bool;
  sg_commissioned : bool;
  sg_dismissed : bool;
  sg_max_pct : Z;
  sg_listen_complete : bool
}.

(** The factory of the [defaultdict]. *)
Definition default_signals : Signals := mkSignals false false false 0%Z false.

(** [topic_signals[t]] read through the [defaultdict]. *)
Definition signals_of (ts : dict Signals) (t : string) : Signals :=
  match dict_get ts t with Some s => s | None => default_signals end.

(** [topic_signals[t][field] = value]: the entry is created on first use. *)
Definition touch (ts : dict Signals) (t : string) (f : Signals -> Signals)
  : dict Signals :=
  dict_set ts t (f (signals_of ts t)).

(** One turn of the loop over the events. *)
Definition record_event (ts : dict Signals) (e : Event) : dict Signals :=
  let t := ev_title e in
  if String.eqb t EmptyString then ts else
  let et := ev_type e in
  if String.eqb et "preview_started" then
    touch ts t (fun s => mkSignals true (sg_commissioned s) (sg_dismissed s)
                           (sg_max_pct s) (sg_listen_complete s))
  else if String.eqb et "commissioned" then
    touch ts t (fun s => mkSignals (sg_previewed s) true (sg_dismissed s)
                           (sg_max_pct s) (sg_listen_complete s))
  else if String.eqb et "dismissed" then
    touch ts t (fun s => mkSignals (sg_previewed s) (sg_commissioned s) true
                           (sg_max_pct s) (sg_listen_complete s))
  else if String.eqb et "play_pct" then
    touch ts t (fun s => mkSignals (sg_previewed s) (sg_commissioned s)
                           (sg_dismissed s)
                           (Z.max (sg_max_pct s) (ev_pct0 e))
                           (sg_listen_complete s))
  else if String.eqb et "listen_complete" then
    touch ts t (fun s => mkSignals (sg_previewed s) (sg_commissioned s)
                           (sg_dismissed s) 100%Z true)
  else ts.

Definition topic_signals (events : list Event) : dict Signals :=
  fold_left record_event events [].

(** [l[-n:]] *)
Definition last_n {A : Type} (n : nat) (l : list A) : list A :=
  skipn (length l - n) l.

Record Summary : Type := mkSummary {
  strong_interest : list string;
  moderate_interest : list string;
  dismissed : list string
}.

Definition is_strong (s : Signals) : bool :=
  sg_listen_complete s || (75 <=? sg_max_pct s)%Z.

(** The three comprehensions over [topic_signals.items()]. *)
Definition strong_list (ts : dict Signals) : list string :=
  map fst (filter (fun e => is_strong (snd e)) ts).

Definition moderate_list (ts : dict Signals) : list string :=
  map fst (filter (fun e =>
                     negb (sg_dismissed (snd e))
                     && (sg_previewed (snd e) || (25 <=? sg_max_pct (snd e))%Z)
                     && negb (mem (fst e) (strong_list ts))) ts).

Definition dismissed_list (ts : dict Signals) : list string :=
  map fst (filter (fun e => sg_dismissed (snd e)) ts).

(** [get_engagement_summary]: [None] is the empty mapping [{}]. *)
Definition get_engagement_summary (f : FileState (list Event)) : option Summary :=
  match load_engagement f with
  | [] => None
  | events =>
      let ts := topic_signals events in
      Some {| strong_interest := last_n 20 (strong_list ts);
              moderate_interest := last_n 20 (moderate_list ts);
              dismissed := last_n 30 (dismissed_list ts) |}
  end.

(** *** What the event log says about a title (used to state the claims) *)

Definition about (t ty : string) (e : Event) : bool :=
  String.eqb (ev_title e) t && String.eqb (ev_type e) ty.

(** An event of type [ty] was observed for title [t]. *)
Definition observed (events : list Event) (t ty : string) : bool :=
  existsb (about t ty) events.

(** The largest [pct] of the [play_pct] events of [t], 0 when there is none. *)
Definition max_play_pct (events : list Event) (t : string) : Z :=
  fold_left (fun m e => if about t "play_pct" e then Z.max m (ev_pct0 e) else m)
            events 0%Z.

Definition strong_rule (events : list Event) (t : string) : bool :=
  observed events t "listen_complete" || (75 <=? max_play_pct events t)%Z.

Definition moderate_rule (events : list Event) (t : string) : bool :=
  negb (observed events t "dismissed")
  && (observed events t "preview_started" || (25 <=? max_play_pct events t)%Z)
  && negb (strong_rule events t).

Definition dismissed_rule (events : list Event) (t : string) : bool :=
  observed events t "dismissed".

Definition recognised (ty : string) : bool :=
  mem ty ["preview_started"; "commissioned"; "dismissed"; "play_pct";
          "listen_complete"]%string.

(** Events that leave a trace: a non-empty title and one of the five types. *)
Definition signalled (e : Event) : bool :=
  negb (String.eqb (ev_title e) EmptyString) && recognised (ev_type e).

(** The titles with a signal, each once, in the order of their first signal. *)
Definition topic_order (events : list Event) : list string :=
  rev (nodup String.string_dec (rev (map ev_title (filter signalled events)))).

(** The signals accumulated for [t] say what the log says about [t]. *)
Definition agrees (events : list Event) (t : string) (s : Signals) : Prop :=
  sg_previewed s = observed events t "preview_started" /\
  sg_commissioned s = observed events t "commissioned" /\
  sg_dismissed s = observed events t "dismissed" /\
  sg_listen_complete s = observed events t "listen_complete" /\
  (if sg_listen_complete s then (100 <= sg_max_pct s)%Z
   else sg_max_pct s = max_play_pct events t).

(** Sample logs: one event of type [ty] for each of [n] one-character titles. *)
Definition sample_events (ty : string) (lo n : nat) : list Event :=
  map (fun c => mkEvent (Some ty) (Some (String (ascii_of_nat c) EmptyString)) None)
      (seq lo n).

(** The log [[preview_started("T"), play_pct("T", 80)]]. *)
Definition preview_then_play : list Event :=
  [mkEvent (Some "preview_started"%string) (Some "T"%string) None;
   mkEvent (Some "play_pct"%string) (Some "T"%string) (Some 80%Z)].

(** The log [[dismissed("T"), play_pct("T", 90)]]. *)
Definition dismissed_then_played : list Event :=
  [mkEvent (Some "dismissed"%string) (Some "T"%string) None;
   mkEvent (Some "play_pct"%string) (Some "T"%string) (Some 90%Z)].

(* ------------------------------------------------------------------ *)
(** ** Voice resolution                                                 *)
(* ------------------------------------------------------------------ *)

Record Voice : Type := mkVoice {
  name : string;
  voice_id : string
}.

(** What [str.lower] does on a text of ASCII characters: the letters A to
    Z are folded.  It serves the sample catalogs, whose names are ASCII;
    the resolution itself is stated for the case folding of the language,
    whatever it does on other characters. *)
Definition lower_ascii (c : ascii) : ascii :=
  let n := nat_of_ascii c in
  if (65 <=? n) && (n <=? 90) then ascii_of_nat (n + 32) else c.

Fixpoint ascii_lower (s : string) : string :=
  match s with
  | EmptyString => EmptyString
  | String c s' => String (lower_ascii c) (ascii_lower s')
  end.

(** [needle in hay] *)
Fixpoint contains (needle hay : string) : bool :=
  String.prefix needle hay
  || match hay with
     | EmptyString => false
     | String _ hay' => contains needle hay'
     end.

Section Voices.
(** [str.lower]: the case folding of the language on any text (texts are
    UTF-8, so equality and containment of texts are those of their
    bytes). *)
Variable lower : string -> string.

Definition exact_match (name_or_id : string) (v : Voice) : bool :=
  String.eqb (lower (name v)) (lower name_or_id)
  || String.eqb (voice_id v) name_or_id.

Definition partial_match (name_or_id : string) (v : Voice) : bool :=
  contains (lower name_or_id) (lower (name v)).

(** [resolve_voice] on the catalog [client.voices.get_all()] returned. *)
Definition resolve_voice (voices : list Voice) (name_or_id : string)
  : option string :=
  match find (exact_match name_or_id) voices with
  | Some v => Some (voice_id v)
  | None =>
      match find (partial_match name_or_id) voices with
      | Some v => Some (voice_id v)
      | None => None
      end
  end.

(** The resolution order the specification words: name, then id, then
    substring. *)
Definition name_match (name_or_id : string) (v : Voice) : bool :=
  String.eqb (lower (name v)) (lower name_or_id).

Definition id_match (name_or_id : string) (v : Voice) : bool :=
  String.eqb (voice_id v) name_or_id.

Definition resolve_voice_name_first (voices : list Voice) (name_or_id : string)
  : option string :=
  match find (name_match name_or_id) voices with
  | Some v => Some (voice_id v)
  | None =>
      match find (id_match name_or_id) voices with
      | Some v => Some (voice_id v)
      | None =>
          match find (partial_match name_or_id) voices with
          | Some v => Some (voice_id v)
          | None => None
          end
      end
  end.
End Voices.

(** A catalog in which one voice's id is another voice's name. *)
Definition crossed_catalog : list Voice :=
  [mkVoice "X" "bob"; mkVoice "Bob" "v2"]%string.

(* ------------------------------------------------------------------ *)
(** ** The world of the workers: files and collaborators                *)
(* ------------------------------------------------------------------ *)

(** The outcome of a Python call: a value, or an exception with [str(e)]. *)
Inductive result (A : Type) : Type :=
  | Ok (a : A)
  | Raise (msg : string).

Arguments Ok {A} a.
Arguments Raise {A} msg.

Record Segment : Type := mkSegment {
  host : string;
  text : string
}.

Definition Script : Type := list Segment.

Inductive SeriesStatus : Type := SQueued | Outlining | Producing | SDone | SError.

(** An entry of [series.json]. *)
Record Series : Type := mkSeries {
  s_id : string;
  s_title : string;
  s_num_episodes : nat;
  s_status : SeriesStatus;
  s_created_at : string;
  s_episodes : list Topic;
  s_job_ids : list string;
  s_total : nat;
  s_completed : nat;
  s_error : option string
}.

(** The document of [topics_cache.json]; a key may be missing. *)
Record TopicsDoc : Type := mkTopicsDoc {
  tc_date : option string;
  tc_topics : option (list Topic)
}.

(** Everything outside the process.  A collaborator is asked with the
    number of the call, so that two calls may answer differently whatever
    their arguments (the prompt sent to the generation service is not
    modelled: the reply is indexed by the call). *)
Record Env : Type := mkEnv {
  ANTHROPIC_API_KEY : string;
  (** [datetime.now(timezone.utc).isoformat()] *)
  utc_now : nat -> string;
  (** [datetime.now().strftime("%Y%m%d-%H%M%S")] *)
  local_stamp : nat -> string;
  (** [str(uuid.uuid4())[:8]] *)
  uuid4 : nat -> string;
  (** [fetch_ar_intelligence()], which never raises *)
  fetch_ar_intelligence : nat -> dict string;
  (** [extract_text(call_anthropic(..., use_web_search))] *)
  call_anthropic : nat -> bool -> result string;
  (** [json.loads] of a reply holding an array of topics, one topic, and
      the script reply with its [SOURCES:] line *)
  json_topics : string -> option (list Topic);
  json_topic : string -> option Topic;
  parse_script_reply : string -> option (Script * list string);
  (** [get_elevenlabs_client()] and [client.voices.get_all()] *)
  elevenlabs_client : nat -> result unit;
  voices_get_all : nat -> result (list Voice);
  (** [generate_audio_bytes(client, text, voice_id)] *)
  text_to_speech : nat -> string -> string -> result string;
  (** the file system where a worker lets it fail: directory creation,
      writing and copying of the audio files, and the write of the series
      file that counts a finished episode *)
  filesystem : nat -> result unit;
  (** [str.lower] and [str.title] *)
  str_lower : string -> string;
  str_title : string -> string
}.

Record World : Type := mkWorld {
  jobs_file : FileState (dict Job);
  (** earlier contents of the jobs file as loaded, newest first *)
  jobs_before : list (dict Job);
  series_file : FileState (list Series);
  episodes_file : FileState (list Episode);
  production_log : FileState (list string);
  topics_cache : FileState TopicsDoc;
  (** number of calls to collaborators so far *)
  calls : nat;
  (** number of runs of [generate_topics_via_claude] so far *)
  topic_runs : nat
}.

Definition _load_jobs (w : World) : dict Job :=
  match jobs_file w with Parsed jobs => jobs | Absent | Unparsable => [] end.

Definition load_series (w : World) : list Series :=
  match series_file w with Parsed l => l | Absent | Unparsable => [] end.

Definition load_episodes (w : World) : list Episode :=
  match episodes_file w with Parsed l => l | Absent | Unparsable => [] end.

Definition get_production_log (w : World) : list string :=
  match production_log w with Parsed l => l | Absent | Unparsable => [] end.

(** [JOBS_FILE.write_text(...)]; the replaced content joins the history. *)
Definition write_jobs (jobs : dict Job) (w : World) : World :=
  {| jobs_file := Parsed jobs;
     jobs_before := _load_jobs w :: jobs_before w;
     series_file := series_file w; episodes_file := episodes_file w;
     production_log := production_log w; topics_cache := topics_cache w;
     calls := calls w; topic_runs := topic_runs w |}.

Definition save_series (l : list Series) (w : World) : World :=
  {| jobs_file := jobs_file w; jobs_before := jobs_before w;
     series_file := Parsed l; episodes_file := episodes_file w;
     production_log := production_log w; topics_cache := topics_cache w;
     calls := calls w; topic_runs := topic_runs w |}.

Definition write_episodes (l : list Episode) (w : World) : World :=
  {| jobs_file := jobs_file w; jobs_before := jobs_before w;
     series_file := series_file w; episodes_file := Parsed l;
     production_log := production_log w; topics_cache := topics_cache w;
     calls := calls w; topic_runs := topic_runs w |}.

Definition write_production_log (l : list string) (w : World) : World :=
  {| jobs_file := jobs_file w; jobs_before := jobs_before w;
     series_file := series_file w; episodes_file := episodes_file w;
     production_log := Parsed l; topics_cache := topics_cache w;
     calls := calls w; topic_runs := topic_runs w |}.

Definition write_topics_cache (d : TopicsDoc) (w : World) : World :=
  {| jobs_file := jobs_file w; jobs_before := jobs_before w;
     series_file := series_file w; episodes_file := episodes_file w;
     production_log := production_log w; topics_cache := Parsed d;
     calls := calls w; topic_runs := topic_runs w |}.

Definition tick (w : World) : World :=
  {| jobs_file := jobs_file w; jobs_before := jobs_before w;
     series_file := series_file w; episodes_file := episodes_file w;
     production_log := production_log w; topics_cache := topics_cache w;
     calls := S (calls w); topic_runs := topic_runs w |}.

Definition count_topic_run (w : World) : World :=
  {| jobs_file := jobs_file w; jobs_before := jobs_before w;
     series_file := series_file w; episodes_file := episodes_file w;
     production_log := production_log w; topics_cache := topics_cache w;
     calls := calls w; topic_runs := S (topic_runs w) |}.

(** *** State and exceptions *)

Definition M (A : Type) : Type := World -> result A * World.

Definition ret {A} (a : A) : M A := fun w => (Ok a, w).

Definition raise {A} (msg : string) : M A := fun w => (Raise msg, w).

Definition bind {A B} (m : M A) (k : A -> M B) : M B :=
  fun w =>
    match m w with
    | (Ok a, w') => k a w'
    | (Raise msg, w') => (Raise msg, w')
    end.

(** [try: m  except Exception as e: handler(str(e))] *)
Definition try_except {A} (m : M A) (handler : string -> M A) : M A :=
  fun w =>
    match m w with
    | (Ok a, w') => (Ok a, w')
    | (Raise msg, w') => handler msg w'
    end.

Definition modify (f : World -> World) : M unit := fun w => (Ok tt, f w).

Definition gets {A} (f : World -> A) : M A := fun w => (Ok (f w), w).

(** A call out of the process, which may raise. *)
Definition ask {A} (f : nat -> result A) : M A :=
  fun w => (f (calls w), tick w).

(** A reading (clock, random token) that always answers. *)
Definition read {A} (f : nat -> A) : M A :=
  fun w => (Ok (f (calls w)), tick w).

(** [d[k]] on a key that may be missing. *)
Definition need_key {A} (k : string) (v : option A) : M A :=
  match v with
  | Some a => ret a
  | None => raise (String "'"%char (k ++ String "'"%char EmptyString))
  end.

Declare Scope monad_scope.
Delimit Scope monad_scope with monad.
Notation "x <- m ;; k" := (bind m (fun x => k))
  (at level 61, m at next level, right associativity) : monad_scope.
Notation "m ;; k" := (bind m (fun _ => k))
  (at level 61, right associativity) : monad_scope.

(** *** Small string functions of the source *)

Definition str_nat (n : nat) : string := NilEmpty.string_of_uint (Nat.to_uint n).

Definition is_upper (c : ascii) : bool :=
  let n := nat_of_ascii c in (65 <=? n) && (n <=? 90).

Definition is_lower (c : ascii) : bool :=
  let n := nat_of_ascii c in (97 <=? n) && (n <=? 122).

Definition upper_ascii (c : ascii) : ascii :=
  if is_lower c then ascii_of_nat (nat_of_ascii c - 32) else c.

(** What [str.title] does on a text of ASCII characters: a letter after a
    non-letter is capitalised, the other letters are lowered (for the
    sample environments). *)
Fixpoint title_from (in_word : bool) (s : string) : string :=
  match s with
  | EmptyString => EmptyString
  | String c s' =>
      let cased := is_upper c || is_lower c in
      String (if in_word then lower_ascii c else upper_ascii c)
             (title_from cased s')
  end.

Definition title_case (s : string) : string := title_from false s.

Definition drop_prefix (n : nat) (s : string) : string :=
  String.substring n (String.length s - n) s.

(** The fence handling after a reply: [text.split(fence)[1]] and the
    optional [json] tag. *)
Definition strip_fence (reply : string) : string :=
  let fence := "```"%string in
  if String.prefix fence reply then
    let rest := drop_prefix 3 reply in
    let body := match String.index 0 fence rest with
                | Some i => String.substring 0 i rest
                | None => rest
                end in
    if String.prefix "json" body then drop_prefix 4 body else body
  else reply.

(** [not voice_id]: [None] and the empty string are falsy. *)
Definition unresolved (v : option string) : bool :=
  match v with
  | None => true
  | Some s => String.eqb s EmptyString
  end.

Definition find_series (series_id : string) (l : list Series) : option Series :=
  find (fun s => String.eqb (s_id s) series_id) l.

(** Mutation of the entry [next(...)] found, inside the loaded list. *)
Fixpoint modify_series (series_id : string) (f : Series -> Series)
    (l : list Series) : list Series :=
  match l with
  | [] => []
  | s :: l' =>
      if String.eqb (s_id s) series_id then f s :: l'
      else s :: modify_series series_id f l'
  end.

Definition set_status (st : SeriesStatus) (s : Series) : Series :=
  {| s_id := s_id s; s_title := s_title s; s_num_episodes := s_num_episodes s;
     s_status := st; s_created_at := s_created_at s;
     s_episodes := s_episodes s; s_job_ids := s_job_ids s;
     s_total := s_total s; s_completed := s_completed s;
     s_error := s_error s |}.

Definition set_error (msg : string) (s : Series) : Series :=
  {| s_id := s_id s; s_title := s_title s; s_num_episodes := s_num_episodes s;
     s_status := SError; s_created_at := s_created_at s;
     s_episodes := s_episodes s; s_job_ids := s_job_ids s;
     s_total := s_total s; s_completed := s_completed s;
     s_error := Some msg |}.

Definition set_producing (episodes : list Topic) (job_ids : list string)
    (s : Series) : Series :=
  {| s_id := s_id s; s_title := s_title s; s_num_episodes := s_num_episodes s;
     s_status := Producing; s_created_at := s_created_at s;
     s_episodes := episodes; s_job_ids := job_ids;
     s_total := length episodes; s_completed := 0;
     s_error := s_error s |}.

Definition bump_completed (s : Series) : Series :=
  {| s_id := s_id s; s_title := s_title s; s_num_episodes := s_num_episodes s;
     s_status := s_status s; s_created_at := s_created_at s;
     s_episodes := s_episodes s; s_job_ids := s_job_ids s;
     s_total := s_total s; s_completed := s_completed s + 1;
     s_error := s_error s |}.

Local Open Scope string_scope.

(** [FALLBACK_TOPICS] *)
Definition FALLBACK_TOPICS : list Topic :=
  [
   {| rank := Some 1%Z;
       title := Some "The Governance Tax: Why Most Enterprise AI Programs Are Paying for Risk They've Already Accepted";
       tension := Some "Organizations build elaborate AI governance frameworks after already deploying high-risk systems. The governance comes after the exposure, not before it.";
       why_it_matters := Some "Misaligned governance timing creates compliance theater that burns budget without reducing actual risk.";
       common_mistake := Some "Leaders treat governance as a launch gate rather than a continuous risk calibration process, which means controls are always one deployment behind actual exposure.";
       sub_questions := [
        "At what point does governance reduce risk versus just document it?"; 
        "How do you price retroactive governance versus pre-deployment friction?"; 
        "What incentive structures cause governance teams to prioritize documentation over risk reduction?"];
       trailer_hook := Some "Here's something nobody in your governance steering committee wants to say out loud: most enterprise AI governance programs are retroactive. You've already deployed the models. You've already accepted the risk. The frameworks you're building now are documentation for decisions already made. The real question is whether your governance creates actual risk reduction or just paper trails.";
       production_brief := None; series_context := None;
       episode_number := None |};
   {| rank := Some 2%Z;
       title := Some "Agentic AI Broke Your ROI Model - And Your CFO Doesn't Know It Yet";
       tension := Some "Traditional ROI frameworks measure discrete outputs. Agentic AI generates value through non-linear, compounding processes largely invisible to standard measurement.";
       why_it_matters := Some "Executives who can't articulate agentic AI ROI in CFO terms will lose the budget war.";
       common_mistake := Some "Most analytics leaders retrofit agentic AI value into hours-saved metrics, which systematically undervalues compounding effects and undermines the investment case.";
       sub_questions := [
        "What's the right unit of measurement for a system that improves its own decision quality over time?"; 
        "How do you present agentic ROI to a CFO trained on capital budgeting?"; 
        "What's the opportunity cost of NOT deploying agents while competitors do?"];
       trailer_hook := Some "You cannot measure agentic AI the way you measured your last analytics platform. The value is in the loops - decisions made faster, signals never caught, systems learning at 3am. Your current ROI model was built for batch reporting. If you're still presenting AI value as hours-saved, you're losing the budget argument before it starts.";
       production_brief := None; series_context := None;
       episode_number := None |};
   {| rank := Some 3%Z;
       title := Some "The Data Moat Is Dead - What Replaces It as Strategic Advantage";
       tension := Some "For a decade, proprietary data was the defensible edge. Foundation models have commoditized data advantage faster than most executives have internalized.";
       why_it_matters := Some "Executives investing in data hoarding instead of workflow integration are building walls around empty vaults.";
       common_mistake := Some "Leaders conflate data volume with data advantage, not recognizing scarcity has shifted from data to operational judgment.";
       sub_questions := [
        "What does a defensible moat look like when foundation models approximate your proprietary knowledge?"; 
        "How do you communicate the shift from data strategy to workflow strategy to a board that funded the data lake?"; 
        "Where does first-party behavioral data still create genuine asymmetry?"];
       trailer_hook := Some "The data moat argument used to work. You had the data, competitors didn't, you had the edge. That logic is collapsing. When foundation models synthesize industry knowledge from public sources that rivals your proprietary training data, the moat isn't the data. The moat is the workflow.";
       production_brief := None; series_context := None;
       episode_number := None |};
   {| rank := Some 4%Z;
       title := Some "Beverage Alcohol's Data Silence Problem: Why the Industry Knows Less Than It Should";
       tension := Some "Despite massive distribution networks and decades of sell-through data, beverage alcohol remains one of the most information-asymmetric industries in CPG - by design.";
       why_it_matters := Some "The next competitive wave belongs to operators who solve the last-mile data problem, not those who spend more on brand.";
       common_mistake := Some "Brand teams treat the data gap as a vendor problem when the actual barrier is three-tier incentive misalignment no data provider can fix.";
       sub_questions := [
        "What would real-time venue-level visibility require in a three-tier system?"; 
        "Where does menu scraping create actionable intelligence that replaces missing sell-through data?"; 
        "What's the strategic value of knowing venue penetration before competitors do?"];
       trailer_hook := Some "The beverage alcohol industry sits on a paradox. Trillion-dollar brands. Global distribution. And almost no reliable real-time data on what's happening at venue level. The three-tier system was designed to create information asymmetry. That changes when AI reads menus at scale.";
       production_brief := None; series_context := None;
       episode_number := None |};
   {| rank := Some 5%Z;
       title := Some "Why Your Best Analysts Are Training Their Own Replacements";
       tension := Some "High-performing analysts who adopt AI are simultaneously commoditizing their own skills and becoming the most irreplaceable people in the organization.";
       why_it_matters := Some "Analytics talent strategy needs a complete rethink as the skill premium shifts from technical execution to system design.";
       common_mistake := Some "Analytics leaders protect headcount by resisting AI adoption, creating conditions for their function to be outsourced once leadership runs the math on AI-enabled generalists.";
       sub_questions := [
        "What's the right ratio of AI-augmented analysts to traditional FTEs?"; 
        "What skills are you hiring for in 2026 that didn't exist as a category in 2022?"; 
        "How do you restructure performance management when AI handles most measurable output?"];
       trailer_hook := Some "Your best analyst just used Claude to do in 20 minutes what used to take two weeks. You've repriced their labor market value downward and upward simultaneously. The person who knows how to direct AI toward the right problem is extraordinarily rare. How you respond to that tension will determine whether your analytics function compounds or collapses.";
       production_brief := None; series_context := None;
       episode_number := None |};
   {| rank := Some 6%Z;
       title := Some "The CAO Role Is Disappearing - What Comes Next Is More Powerful and Harder to Fill";
       tension := Some "The Chief Analytics Officer title is being absorbed into CAIO, CDO, and CTO roles - but the executive who translates AI capability into business strategy has never been more scarce.";
       why_it_matters := Some "Analytics leaders who define themselves by function rather than strategic value will find their seats eliminated in the next org redesign.";
       common_mistake := Some "CAOs defend their role by proving team output rather than positioning themselves as the interpreter between AI capability and board-level strategy.";
       sub_questions := [
        "What's the actual job description of the executive who owns AI strategy in a post-CAO structure?"; 
        "How do you transition from functional leader to strategic interpreter before the title disappears?"; 
        "How do you build the board relationship that makes you essential regardless of title?"];
       trailer_hook := Some "The CAO title is getting squeezed from three directions - Chief AI Officers taking the forward mandate, CDOs absorbing governance, CTOs claiming infrastructure. If your value proposition is 'I run the analytics function,' that's a shrinking job. If it's 'I make AI investments legible to the board,' that role has never been more critical or more vacant.";
       production_brief := None; series_context := None;
       episode_number := None |}
  ].

(** The locally built script of [generate_grounded_script]. *)
Definition fallback_script (title tension : string) (topic : Topic) : Script :=
  let sq := sub_questions topic in
  let matters := match why_it_matters topic with
                 | Some m => m
                 | None => "This has direct implications for how you allocate capital and talent."
                 end in
  let mistake := match common_mistake topic with
                 | Some m => m
                 | None => "They optimize for visibility over actual impact, which means the real exposure never gets addressed."
                 end in
  [
    mkSegment "Alex"
       ("Let's start with something most executives in this space already know but haven't fully acted on. "
        ++ title
        ++ ". The question isn't whether this is real - it's whether you're positioned correctly when it hits your organization.");
    mkSegment "Morgan"
       ("And the core tension is this: "
        ++ tension
        ++ " That's the uncomfortable part. Because it means the conventional playbook - the one that got most leaders to where they are - may actually be the wrong tool for what's coming.");
    mkSegment "Alex"
       ("Here's why this matters at the strategic level right now. "
        ++ matters
        ++ " And the window to get ahead of this is shorter than most leadership teams have internalized.");
    mkSegment "Morgan"
       ("Let's ground this in what's actually happening. The organizations that are navigating this well aren't the ones with the biggest budgets or the most sophisticated tech stacks. They're the ones that identified the structural cause early and built around it rather than against it.");
    mkSegment "Alex"
       ("The structural cause is key. Most conversations about this topic focus on symptoms - the visible friction, the metrics that are off, the talent gaps. But the mechanism underneath is an incentive misalignment that organizations keep papering over with process instead of fixing at the root.");
    mkSegment "Morgan"
       ("Which brings us to what sophisticated leaders consistently get wrong. "
        ++ mistake
        ++ " And the irony is that the leaders who are most experienced - who've solved hard problems before - are often the most prone to this mistake because their pattern recognition is calibrated to a different era.");
    mkSegment "Alex"
       ("The first question worth sitting with: "
        ++ nth 0 sq "Where in your current approach are you optimizing for the appearance of progress rather than the underlying condition?"
        ++ " That's not a rhetorical question. It has a specific answer in your organization right now.");
    mkSegment "Morgan"
       ("And the second: "
        ++ nth 1 sq "What would you do differently if you knew your current approach had a 24-month shelf life?"
        ++ " Because the executives who are three moves ahead on this aren't smarter - they just asked that question earlier.");
    mkSegment "Alex"
       ("If there's a third lever worth examining: "
        ++ nth 2 sq "How are you measuring whether your governance and your actual exposure are in sync?"
        ++ " The answer tells you more about your real risk posture than any framework document.");
    mkSegment "Morgan"
       ("Here's the practical implication. The next time this comes up - whether it's a board review, a budget cycle, or a talent discussion - the question isn't 'are we doing enough.' The question is 'are we working on the right thing.' Those are very different questions with very different answers.");
    mkSegment "Alex"
       ("The executives who navigate this well aren't the ones with the best data or the biggest teams. They're the ones who identified where their mental model was wrong and updated it before the market forced them to. That's the actual competitive advantage here.");
    mkSegment "Morgan"
       ("Leave you with this reframe: "
        ++ title
        ++ " isn't a problem to solve. It's a condition to position around. The organizations that treat it as solvable will spend the next three years in reactive mode. The ones that treat it as structural reality will spend that same time building asymmetric advantage. That's the briefing.")
  ].

(* ------------------------------------------------------------------ *)
(** ** Registry operations, the topic cache and the workers             *)
(* ------------------------------------------------------------------ *)

Section Workers.
Variable env : Env.

Local Open Scope monad_scope.

Definition update_job (job_id : string) (kw : JobFields) : M unit :=
  now <- read (utc_now env) ;;
  jobs <- gets _load_jobs ;;
  match update_job_doc jobs job_id now kw with
  | Some jobs' => modify (write_jobs jobs')
  | None => ret tt
  end.

Definition create_job (job_type : JobType) (series_id : option string)
    (series_ep : option Z) : M string :=
  job_id <- read (uuid4 env) ;;
  now1 <- read (utc_now env) ;;
  now2 <- read (utc_now env) ;;
  jobs <- gets _load_jobs ;;
  modify (write_jobs (create_job_doc jobs job_id now1 now2 job_type
                        series_id series_ep)) ;;
  ret job_id.

Definition log_production : M unit :=
  log <- gets get_production_log ;;
  now <- read (utc_now env) ;;
  modify (write_production_log (log ++ [now])%list).

(** *** Topic of the day *)

Definition generate_topics_via_claude : M (list Topic) :=
  modify count_topic_run ;;
  if String.eqb (ANTHROPIC_API_KEY env) "" then ret FALLBACK_TOPICS
  else
    try_except
      (_ <- read (fetch_ar_intelligence env) ;;
       reply <- ask (fun n => call_anthropic env n false) ;;
       match json_topics env (strip_fence reply) with
       | Some topics => ret (firstn 6 topics)
       | None => raise "reply is not a JSON array"
       end)
      (fun _ => ret FALLBACK_TOPICS).

(** The cache hit of [get_topics_for_today]: the document is for [today]
    and has its topics. *)
Definition cached_topics (today : string) (f : FileState TopicsDoc)
  : option (list Topic) :=
  match f with
  | Parsed cached =>
      match tc_date cached with
      | Some d => if String.eqb d today then tc_topics cached else None
      | None => None
      end
  | Absent | Unparsable => None
  end.

(** [get_topics_for_today], with [today = date.today().isoformat()]. *)
Definition get_topics_for_today (today : string) : M (list Topic) :=
  cache <- gets topics_cache ;;
  match cached_topics today cache with
  | Some topics => ret topics
  | None =>
      topics <- generate_topics_via_claude ;;
      modify (write_topics_cache (mkTopicsDoc (Some today) (Some topics))) ;;
      ret topics
  end.

(** *** Script and audio *)

Definition generate_grounded_script (topic : Topic)
    (depth brief : string) : M (Script * list string) :=
  ttl <- need_key "title" (title topic) ;;
  tns <- need_key "tension" (tension topic) ;;
  try_except
    (full_text <- try_except (ask (fun n => call_anthropic env n true))
                    (fun _ => ask (fun n => call_anthropic env n false)) ;;
     match parse_script_reply env full_text with
     | Some r => ret r
     | None => raise "reply is not a JSON script"
     end)
    (fun _ => ret (fallback_script ttl tns topic, [])).

Definition build_trailer_script (topic : Topic) : M (Script * list string) :=
  tns <- need_key "tension" (tension topic) ;;
  ttl <- need_key "title" (title topic) ;;
  ret ([mkSegment "Alex"
          (match trailer_hook topic with Some h => h | None => tns end);
        mkSegment "Alex"
          ("For the full briefing on " ++ ttl
           ++ ", hit Generate Briefing. I'm Alex.")], []).

Definition get_elevenlabs_client : M unit := ask (elevenlabs_client env).

(** [resolve_voice(client, name_or_id)] with the catalog call. *)
Definition resolve_voice_call (name_or_id : string) : M (option string) :=
  voices <- ask (voices_get_all env) ;;
  ret (resolve_voice (str_lower env) voices name_or_id).

Fixpoint synthesize (script : Script) (voice_a_id voice_b_id : string)
  : M string :=
  match script with
  | [] => ret ""
  | seg :: rest =>
      let vid := if String.eqb (str_lower env (host seg)) "alex"
                 then voice_a_id else voice_b_id in
      bytes <- ask (fun n => text_to_speech env n vid (text seg)) ;;
      more <- synthesize rest voice_a_id voice_b_id ;;
      ret (bytes ++ more)
  end.

(** [generate_episode_audio]: the bytes of [episode.mp3]. *)
Definition generate_episode_audio (script : Script)
    (voice_a_id voice_b_id : string) : M string :=
  ask (filesystem env) ;;
  synthesize script voice_a_id voice_b_id.

(** [save_episode]; the feed is derived from the list and a failure to
    rebuild it is swallowed, so it is left out. *)
Definition save_episode (entry : Episode) : M unit :=
  eps <- gets load_episodes ;;
  modify (write_episodes (eps ++ [entry])%list).

Definition voice_of (v : option string) : string :=
  match v with Some s => s | None => "" end.

(** *** Single-job workers *)

Definition _run_generate (job_id : string) (topic_data : Topic)
    (depth voice_alex voice_morgan : string) (is_trailer : bool)
    (brief : string) : M unit :=
  try_except
    (update_job job_id
       (mkFields (Some Running) (Some "Connecting to voice service...")
                 None None) ;;
     get_elevenlabs_client ;;
     voice_a_id <- resolve_voice_call voice_alex ;;
     voice_b_id <- resolve_voice_call voice_morgan ;;
     if unresolved voice_a_id || unresolved voice_b_id then
       update_job job_id (mkFields (Some Error) None None
                                   (Some "Voice not found"))
     else
       r <- (if is_trailer then
               update_job job_id
                 (mkFields None (Some "Building trailer...") None None) ;;
               build_trailer_script topic_data
             else
               update_job job_id
                 (mkFields None (Some "Writing script - 1-2 minutes...")
                           None None) ;;
               r <- generate_grounded_script topic_data depth brief ;;
               log_production ;;
               ret r) ;;
       let script := fst r in
       let sources := snd r in
       update_job job_id
         (mkFields None
            (Some ("Generating audio (" ++ str_nat (length script)
                   ++ " segments)..."))
            None None) ;;
       timestamp <- read (local_stamp env) ;;
       let ep_type := if is_trailer then "trailer" else "episode" in
       let ep_id := "briefing-" ++ ep_type ++ "-" ++ timestamp in
       audio <- generate_episode_audio script (voice_of voice_a_id)
                  (voice_of voice_b_id) ;;
       ask (filesystem env) ;;
       let label := if is_trailer then "Trailer" else str_title env depth in
       ttl <- need_key "title" (title topic_data) ;;
       published <- read (utc_now env) ;;
       let entry :=
         {| ep_id := ep_id;
            ep_title := (if is_trailer then "[Trailer] " else "")
                        ++ "Briefing: " ++ ttl;
            ep_description := match tension topic_data with
                              | Some t => t | None => "" end;
            ep_file := ep_id ++ ".mp3";
            ep_file_size := String.length audio;
            ep_depth := label;
            ep_is_trailer := is_trailer;
            ep_sources := sources;
            ep_published := published;
            ep_series_id := None;
            ep_series_ep := None |} in
       save_episode entry ;;
       update_job job_id
         (mkFields (Some Done) (Some "Complete")
                   (Some (mkJobResult None entry sources)) None))
    (fun e => update_job job_id (mkFields (Some Error) None None (Some e))).

(** The context lines of [chat_to_topic] read [t['rank']] and
    [t['title']] of every existing topic. *)
Fixpoint read_context (existing_topics : list Topic) : M unit :=
  match existing_topics with
  | [] => ret tt
  | t :: rest =>
      need_key "rank" (rank t) ;;
      need_key "title" (title t) ;;
      read_context rest
  end.

Definition chat_to_topic (message : string) (existing_topics : list Topic)
  : M Topic :=
  read_context existing_topics ;;
  reply <- ask (fun n => call_anthropic env n false) ;;
  match json_topic env (strip_fence reply) with
  | Some topic => ret topic
  | None => raise "reply is not a JSON object"
  end.

Definition _run_chat (job_id message : string) (existing_topics : list Topic)
    (voice_alex voice_morgan : string) : M unit :=
  try_except
    (update_job job_id
       (mkFields (Some Running) (Some "Generating topic from your message...")
                 None None) ;;
     topic <- chat_to_topic message existing_topics ;;
     let brief := match production_brief topic with
                  | Some b => b | None => "" end in
     update_job job_id
       (mkFields None (Some "Writing script - 1-2 minutes...") None None) ;;
     r <- generate_grounded_script topic "standard" brief ;;
     let script := fst r in
     let sources := snd r in
     update_job job_id
       (mkFields None
          (Some ("Generating audio (" ++ str_nat (length script)
                 ++ " segments)..."))
          None None) ;;
     get_elevenlabs_client ;;
     voice_a_id <- resolve_voice_call voice_alex ;;
     voice_b_id <- resolve_voice_call voice_morgan ;;
     if unresolved voice_a_id || unresolved voice_b_id then
       update_job job_id (mkFields (Some Error) None None
                                   (Some "Voice not found"))
     else
       timestamp <- read (local_stamp env) ;;
       let ep_id := "briefing-chat-" ++ timestamp in
       audio <- generate_episode_audio script (voice_of voice_a_id)
                  (voice_of voice_b_id) ;;
       ask (filesystem env) ;;
       log_production ;;
       ttl <- need_key "title" (title topic) ;;
       tns <- need_key "tension" (tension topic) ;;
       published <- read (utc_now env) ;;
       let entry :=
         {| ep_id := ep_id;
            ep_title := "[Chat] " ++ ttl;
            ep_description := tns;
            ep_file := ep_id ++ ".mp3";
            ep_file_size := String.length audio;
            ep_depth := "Standard";
            ep_is_trailer := false;
            ep_sources := sources;
            ep_published := published;
            ep_series_id := None;
            ep_series_ep := None |} in
       save_episode entry ;;
       update_job job_id
         (mkFields (Some Done) (Some "Complete")
                   (Some (mkJobResult (Some topic) entry sources)) None))
    (fun e => update_job job_id (mkFields (Some Error) None None (Some e))).

(** *** Series *)

(** The counter update after an episode of a series.  The write of the
    series file goes through the file system, which may refuse it (the
    disk is full, the file cannot be opened): the exception is raised
    from inside the [try] of the episode, and nothing is written. *)
Definition count_completed (series_id : string) : M unit :=
  series_list <- gets load_series ;;
  match find_series series_id series_list with
  | Some _ =>
      ask (filesystem env) ;;
      modify (save_series (modify_series series_id bump_completed
                             series_list))
  | None => ret tt
  end.

(** The body of the [try] for episode [ep_num] of [total]. *)
Definition produce_episode (series_id : string) (series_entry : Series)
    (total ep_num : nat) (job_id : string) (ep_topic : Topic)
    (voice_alex voice_morgan : string) : M unit :=
  update_job job_id
    (mkFields (Some Running)
       (Some ("Episode " ++ str_nat ep_num ++ "/" ++ str_nat total
              ++ ": Writing script..."))
       None None) ;;
  let brief0 := match series_context ep_topic with
                | Some c => c | None => "" end in
  let brief :=
    if Nat.ltb 1 ep_num then
      brief0 ++ " This is episode " ++ str_nat ep_num ++ " of "
      ++ str_nat total
      ++ " in the series - assume listeners heard previous episodes."
    else brief0 in
  r <- generate_grounded_script ep_topic "standard" brief ;;
  let script := fst r in
  let sources := snd r in
  log_production ;;
  update_job job_id
    (mkFields None
       (Some ("Episode " ++ str_nat ep_num ++ "/" ++ str_nat total
              ++ ": Generating audio (" ++ str_nat (length script)
              ++ " segments)..."))
       None None) ;;
  get_elevenlabs_client ;;
  voice_a_id <- resolve_voice_call voice_alex ;;
  voice_b_id <- resolve_voice_call voice_morgan ;;
  if unresolved voice_a_id || unresolved voice_b_id then
    update_job job_id (mkFields (Some Error) None None
                                (Some "Voice not found"))
  else
    timestamp <- read (local_stamp env) ;;
    let ep_id := "series-" ++ series_id ++ "-ep" ++ str_nat ep_num
                 ++ "-" ++ timestamp in
    audio <- generate_episode_audio script (voice_of voice_a_id)
               (voice_of voice_b_id) ;;
    ask (filesystem env) ;;
    ttl <- need_key "title" (title ep_topic) ;;
    published <- read (utc_now env) ;;
    let entry :=
      {| ep_id := ep_id;
         ep_title := "[S: " ++ s_title series_entry ++ "] Ep "
                     ++ str_nat ep_num ++ ": " ++ ttl;
         ep_description := match tension ep_topic with
                           | Some t => t | None => "" end;
         ep_file := ep_id ++ ".mp3";
         ep_file_size := String.length audio;
         ep_depth := "Standard";
         ep_is_trailer := false;
         ep_sources := sources;
         ep_published := published;
         ep_series_id := Some series_id;
         ep_series_ep := Some ep_num |} in
    save_episode entry ;;
    update_job job_id
      (mkFields (Some Done)
         (Some ("Episode " ++ str_nat ep_num ++ " complete"))
         (Some (mkJobResult None entry sources)) None) ;;
    count_completed series_id.

(** The loop of [_run_series] from index [i] on. *)
Fixpoint series_loop (series_id : string) (series_entry : Series)
    (total : nat) (voice_alex voice_morgan : string)
    (i : nat) (episodes : list Topic) : M unit :=
  match episodes with
  | [] => ret tt
  | ep_topic :: rest =>
      job_id <- match nth_error (s_job_ids series_entry) i with
                | Some j => ret j
                | None => raise "list index out of range"
                end ;;
      try_except
        (produce_episode series_id series_entry total (i + 1) job_id
           ep_topic voice_alex voice_morgan)
        (fun e => update_job job_id
                    (mkFields (Some Error) None None (Some e))) ;;
      series_loop series_id series_entry total voice_alex voice_morgan
        (S i) rest
  end.

Definition _run_series (series_id : string) (episodes : list Topic)
    (voice_alex voice_morgan : string) : M unit :=
  series_list <- gets load_series ;;
  match find_series series_id series_list with
  | None => ret tt
  | Some series_entry =>
      series_loop series_id series_entry (length episodes)
        voice_alex voice_morgan 0 episodes
  end.

Definition generate_series_outline (topic_or_prompt : Topic + string)
    (num_episodes : nat) : M (list Topic) :=
  match topic_or_prompt with
  | inl topic => need_key "title" (title topic) ;; ret tt
  | inr _ => ret tt
  end ;;
  reply <- ask (fun n => call_anthropic env n false) ;;
  match json_topics env (strip_fence reply) with
  | Some episodes => ret episodes
  | None => raise "reply is not a JSON array"
  end.

(** The comprehension that creates one job per outlined episode. *)
Fixpoint create_episode_jobs (series_id : string) (episodes : list Topic)
  : M (list string) :=
  match episodes with
  | [] => ret []
  | ep :: rest =>
      num <- need_key "episode_number" (episode_number ep) ;;
      jid <- create_job SeriesEp (Some series_id) (Some num) ;;
      more <- create_episode_jobs series_id rest ;;
      ret (jid :: more)
  end.

Definition fail_series (series_id msg : string) : M unit :=
  series_list <- gets load_series ;;
  match find_series series_id series_list with
  | Some _ => modify (save_series (modify_series series_id (set_error msg)
                                     series_list))
  | None => ret tt
  end.

Definition _run_create_series (series_id : string)
    (topic_or_prompt : Topic + string) (num_episodes : nat)
    (voice_alex voice_morgan : string) : M unit :=
  try_except
    (series_list <- gets load_series ;;
     match find_series series_id series_list with
     | None => ret tt
     | Some _ =>
         modify (save_series (modify_series series_id (set_status Outlining)
                                series_list)) ;;
         episodes <- generate_series_outline topic_or_prompt num_episodes ;;
         job_ids <- create_episode_jobs series_id episodes ;;
         series_list <- gets load_series ;;
         match find_series series_id series_list with
         | None => raise "'NoneType' object does not support item assignment"
         | Some _ =>
             modify (save_series
                       (modify_series series_id
                          (set_producing episodes job_ids) series_list))
         end ;;
         _run_series series_id episodes voice_alex voice_morgan ;;
         series_list <- gets load_series ;;
         match find_series series_id series_list with
         | Some _ => modify (save_series (modify_series series_id
                                            (set_status SDone) series_list))
         | None => ret tt
         end
     end)
    (fun e => fail_series series_id e).

(** Running a computation: the world it leaves and what it returned. *)
Definition exec {A} (m : M A) (w : World) : World := snd (m w).
Definition eval {A} (m : M A) (w : World) : result A := fst (m w).
End Workers.

Local Close Scope string_scope.

(** The generation path started in world [w] fails: the key is missing,
    the call to the service raises, or its reply does not parse.  (The
    service is the second collaborator asked, after the page fetch.) *)
Definition topic_generation_fails (env : Env) (w : World) : Prop :=
  ANTHROPIC_API_KEY env = EmptyString \/
  match call_anthropic env (S (calls w)) false with
  | Raise _ => True
  | Ok reply => json_topics env (strip_fence reply) = None
  end.

(** A process without credentials and without any file. *)
Definition offline_env : Env :=
  {| ANTHROPIC_API_KEY := EmptyString;
     utc_now := fun _ => "2024-01-01T00:00:00+00:00"%string;
     local_stamp := fun _ => "20240101-000000"%string;
     uuid4 := fun n => str_nat n;
     fetch_ar_intelligence := fun _ => [];
     call_anthropic := fun _ _ => Raise "no credentials"%string;
     json_topics := fun _ => None;
     json_topic := fun _ => None;
     parse_script_reply := fun _ => None;
     elevenlabs_client := fun _ => Raise "no credentials"%string;
     voices_get_all := fun _ => Raise "no credentials"%string;
     text_to_speech := fun _ _ _ => Raise "no credentials"%string;
     filesystem := fun _ => Ok tt;
     str_lower := ascii_lower; str_title := title_case |}.

Definition empty_world : World :=
  {| jobs_file := Absent; jobs_before := [];
     series_file := Absent; episodes_file := Absent;
     production_log := Absent; topics_cache := Absent;
     calls := 0; topic_runs := 0 |}.

(* ------------------------------------------------------------------ *)
(** ** Status histories (used to state the life-cycle claim)            *)
(* ------------------------------------------------------------------ *)

Definition status_in (jobs : dict Job) (j : string) : option Status :=
  match dict_get jobs j with
  | Some r => Some (j_status r)
  | None => None
  end.

(** Position in the life cycle [queued -> running -> {done, error}]; a job
    that is not in the registry (never created, or evicted) is past it. *)
Definition stage (s : option Status) : nat :=
  match s with
  | Some Queued => 0
  | Some Running => 1
  | Some Done | Some Error => 2
  | None => 3
  end.

(** [b] may follow [a]: nothing changed, or the job moved on. *)
Definition forward (a b : option Status) : Prop := a = b \/ stage a < stage b.

(** Not yet [done] or [error]. *)
Definition live (s : option Status) : Prop := s <> Some Done /\ s <> Some Error.

(** The successive contents of the jobs file, oldest first. *)
Definition registry_history (w : World) : list (dict Job) :=
  rev (_load_jobs w :: jobs_before w).

Section Lifecycle.
(** The job that is watched, the job a worker is busy with, and the jobs
    it has not started yet. *)
Variables (j jid : string) (others : list string).

Definition newer_after (newer older : dict Job) : Prop :=
  forward (status_in older j) (status_in newer j).

Definition ordered (w : World) : Prop :=
  StronglySorted newer_after (_load_jobs w :: jobs_before w).

Definition live_at (w : World) (x : string) : Prop :=
  live (status_in (_load_jobs w) x).

Definition open_job (w : World) : Prop :=
  ordered w /\ live_at w jid /\ Forall (live_at w) others.

Definition closed_job (w : World) : Prop :=
  ordered w /\ Forall (live_at w) others.

(** [m] leaves the job open, whether it returns or raises. *)
Definition keeps {A} (m : M A) : Prop :=
  forall w, open_job w -> open_job (snd (m w)).

(** [m] may close the job, and if it raises the job is still open. *)
Definition safe {A} (m : M A) : Prop :=
  forall w, open_job w ->
    match m w with
    | (Ok _, w') => closed_job w'
    | (Raise _, w') => open_job w'
    end.

(** [m] returns, with the job closed or still open. *)
Definition closes {A} (m : M A) : Prop :=
  forall w, open_job w ->
    closed_job (snd (m w)) /\ exists a, fst (m w) = Ok a.
End Lifecycle.

(** [m] does not write the jobs file. *)
Definition untouched {A} (m : M A) : Prop :=
  forall w, jobs_file (snd (m w)) = jobs_file w /\
            jobs_before (snd (m w)) = jobs_before w.

(** [m] never raises. *)
Definition total {A} (m : M A) : Prop :=
  forall w, exists a, fst (m w) = Ok a.

(** Along the history of the jobs file the status of job [j] only moves
    forward, and once it is [done] or [error] it stays what it is for as
    long as the job is in the registry. *)
Definition monotone_history (j : string) (w : World) : Prop :=
  forall i k a b,
    i < k ->
    nth_error (registry_history w) i = Some a ->
    nth_error (registry_history w) k = Some b ->
    forward (status_in a j) (status_in b j) /\
    (status_in a j = Some Done \/ status_in a j = Some Error ->
     status_in b j = status_in a j \/ status_in b j = None).

(** [m] returns in every world and leaves the jobs and series documents as
    they are. *)
Definition calm {A} (m : M A) : Prop :=
  forall w, exists a w',
    m w = (Ok a, w') /\
    _load_jobs w' = _load_jobs w /\ load_series w' = load_series w.


(** *** A sample studio: every collaborator answers *)

Definition sample_episode (num : Z) (ttl : string) (tns : option string) : Topic :=
  {| rank := None; title := Some ttl; tension := tns;
     why_it_matters := None; common_mistake := None; sub_questions := [];
     trailer_hook := None; production_brief := None;
     series_context := Some "Part of the arc."%string;
     episode_number := Some num |}.

(** The second episode of the outline has no ["tension"], so that its
    script synthesis raises [KeyError('tension')]. *)
Definition sample_outline : list Topic :=
  [sample_episode 1 "Overview" (Some "Why now."%string);
   sample_episode 2 "Mechanisms" None;
   sample_episode 3 "Synthesis" (Some "What next."%string)]%string.

Definition sample_catalog : list Voice :=
  [mkVoice "Alex" "voice-a"; mkVoice "Morgan" "voice-m"]%string.

Definition studio_env : Env :=
  {| ANTHROPIC_API_KEY := "key"%string;
     utc_now := fun _ => "2024-01-01T00:00:00+00:00"%string;
     local_stamp := fun _ => "20240101-000000"%string;
     uuid4 := fun n => str_nat n;
     fetch_ar_intelligence := fun _ => [];
     call_anthropic := fun _ _ => Ok "outline"%string;
     json_topics := fun _ => Some sample_outline;
     json_topic := fun _ => None;
     parse_script_reply := fun _ => None;
     elevenlabs_client := fun _ => Ok tt;
     voices_get_all := fun _ => Ok sample_catalog;
     text_to_speech := fun _ _ _ => Ok "mp3"%string;
     filesystem := fun _ => Ok tt;
     str_lower := ascii_lower; str_title := title_case |}.

Definition sample_series : Series :=
  {| s_id := "s1"%string; s_title := "Arc"%string; s_num_episodes := 3;
     s_status := SQueued; s_created_at := "2024-01-01T00:00:00+00:00"%string;
     s_episodes := []; s_job_ids := []; s_total := 3; s_completed := 0;
     s_error := None |}.

(** One queued job ["a"] and one queued series ["s1"]. *)
Definition studio_world : World :=
  {| jobs_file := Parsed [sample_job Queued 97]; jobs_before := [];
     series_file := Parsed [sample_series]; episodes_file := Absent;
     production_log := Absent; topics_cache := Absent;
     calls := 0; topic_runs := 0 |}.


(* ------------------------------------------------------------------ *)
(** ** Writing the engagement log                                       *)
(* ------------------------------------------------------------------ *)

(** An event as [save_engagement_event] writes it.  The caller of the
    module never passes [extra], so the [event.update(extra)] is skipped. *)
Record LoggedEvent : Type := mkLogged {
  le_ts : string;
  le_event_type : string;
  le_topic_title : string;
  le_episode_id : option string;
  le_pct : option Z
}.

(** What [get_engagement_summary] reads of a logged event. *)
Definition summary_view (e : LoggedEvent) : Event :=
  mkEvent (Some (le_event_type e)) (Some (le_topic_title e)) (le_pct e).

Definition load_logged (f : FileState (list LoggedEvent)) : list LoggedEvent :=
  match f with
  | Parsed events => events
  | Absent | Unparsable => []
  end.

(** [if episode_id: event["episode_id"] = episode_id] *)
Definition truthy_id (episode_id : option string) : option string :=
  match episode_id with
  | Some s => if String.eqb s EmptyString then None else Some s
  | None => None
  end.

Definition new_event (now event_type topic_title : string)
    (episode_id : option string) (pct : option Z) : LoggedEvent :=
  mkLogged now event_type topic_title (truthy_id episode_id) pct.

(** [save_engagement_event]: the document written to the log, with [now]
    the clock reading. *)
Definition save_engagement_event (now event_type topic_title : string)
    (episode_id : option string) (pct : option Z)
    (f : FileState (list LoggedEvent)) : list LoggedEvent :=
  let events := load_logged f ++ [new_event now event_type topic_title episode_id pct] in
  if 2000 <? length events then last_n 2000 events else events.

(** The JSON body of [POST /api/engagement]. *)
Record EngagementRequest : Type := mkEngagementRequest {
  rq_event_type : option string;
  rq_topic_title : option string;
  rq_episode_id : option string;
  rq_pct : option Z
}.

Definition or_empty (v : option string) : string :=
  match v with Some s => s | None => EmptyString end.

(** [api_engagement_log]: the HTTP status and the log file afterwards. *)
Definition api_engagement_log (now : string) (data : EngagementRequest)
    (f : FileState (list LoggedEvent)) : nat * FileState (list LoggedEvent) :=
  let event_type := or_empty (rq_event_type data) in
  let topic_title := or_empty (rq_topic_title data) in
  if String.eqb event_type EmptyString || String.eqb topic_title EmptyString
  then (400, f)
  else (200, Parsed (save_engagement_event now event_type topic_title
                       (rq_episode_id data) (rq_pct data) f)).

(** Type and title are both present. *)
Definition named (e : LoggedEvent) : Prop :=
  le_event_type e <> EmptyString /\ le_topic_title e <> EmptyString.

(* ------------------------------------------------------------------ *)
(** ** Reading the registry                                             *)
(* ------------------------------------------------------------------ *)

(** [get_job] and [get_all_jobs] *)
Definition get_job (w : World) (job_id : string) : option Job :=
  dict_get (_load_jobs w) job_id.

Definition get_all_jobs (w : World) : dict Job := _load_jobs w.

(** [list.sort(key=...)] and [sorted(..., key=...)] on records: stable. *)
Fixpoint insert_on {A : Type} (key : A -> string) (x : A) (l : list A) : list A :=
  match l with
  | [] => [x]
  | y :: l' =>
      if String.leb (key x) (key y) then x :: l else y :: insert_on key x l'
  end.

Definition sort_on {A : Type} (key : A -> string) (l : list A) : list A :=
  fold_right (insert_on key) [] l.

Definition is_active (j : Job) : bool :=
  match j_status j with Queued | Running => true | Done | Error => false end.

Definition is_running (j : Job) : bool :=
  match j_status j with Running => true | _ => false end.

(** [api_queue_status]: the ["active"] list; ["total_active"] is its length. *)
Definition api_queue_status (jobs : dict Job) : list Job :=
  sort_on j_created_at (filter is_active (map snd jobs)).

(** What every persist of the registry leaves. *)
Definition registry_ok (jobs : dict Job) : Prop :=
  NoDup (keys jobs) /\ length jobs <= 200.

(** A log of [n] events of one title. *)
Definition sample_log (n : nat) : list LoggedEvent :=
  repeat (mkLogged "2024-01-01T00:00:00+00:00" "play_pct" "T" None (Some 10%Z))%string n.

(* ------------------------------------------------------------------ *)
(** ** Where workers leave jobs and series (used to state properties)   *)
(* ------------------------------------------------------------------ *)

(** A finished record: [done] with its result, or [error] with its
    message. *)
Definition settled (r : Job) : Prop :=
  (j_status r = Done /\ j_result r <> None) \/
  (j_status r = Error /\ j_error r <> None).

(** The job is finished, or not in the registry (unknown id, or evicted). *)
Definition settled_or_gone (w : World) (job_id : string) : Prop :=
  match get_job w job_id with
  | Some r => settled r
  | None => True
  end.

(** If [m] returns, the job is finished or gone. *)
Definition ends_settled (job_id : string) {A} (m : M A) : Prop :=
  forall w,
    match m w with
    | (Ok _, w') => settled_or_gone w' job_id
    | (Raise _, _) => True
    end.

(** [m] returns and leaves the job finished or gone. *)
Definition settles (job_id : string) {A} (m : M A) : Prop :=
  forall w, settled_or_gone (snd (m w)) job_id /\ exists a, fst (m w) = Ok a.

(** Every run of [m] takes the registry from [d] to some [d'] with
    [R d d'], whether it returns or raises. *)
Definition steps (R : dict Job -> dict Job -> Prop) {A} (m : M A) : Prop :=
  forall w, R (_load_jobs w) (_load_jobs (snd (m w))).

(** Only the record of [job_id] may have changed; others may at most have
    been evicted. *)
Definition only_touches (job_id : string) (d d' : dict Job) : Prop :=
  forall j, j <> job_id -> dict_get d' j = None \/ dict_get d' j = dict_get d j.

(** A registry within its bound keeps its bound and its ids. *)
Definition same_ids (d d' : dict Job) : Prop :=
  registry_ok d -> registry_ok d' /\ keys d' = keys d.


(** The job is in the registry and finished. *)
Definition finished (w : World) (job_id : string) : Prop :=
  exists r, get_job w job_id = Some r /\ settled r.


(** [m] never writes the series file. *)
Definition series_kept {A} (m : M A) : Prop :=
  forall w, series_file (snd (m w)) = series_file w.

(** Between two readings of the series list: the entry of [series_id] is
    in both or in neither, and nothing of it has changed but its count of
    completed episodes, which has grown by at most [n]. *)
Definition counted (series_id : string) (n : nat) (l l' : list Series)
  : Prop :=
  match find_series series_id l, find_series series_id l' with
  | Some s, Some s' =>
      s_status s' = s_status s /\ s_error s' = s_error s /\
      s_episodes s' = s_episodes s /\ s_job_ids s' = s_job_ids s /\
      s_total s' = s_total s /\
      s_completed s <= s_completed s' <= s_completed s + n
  | None, None => True
  | _, _ => False
  end.

(** Every run of [m], whether it returns or raises, counts at most [n]
    completed episodes for the series and changes nothing else of it. *)
Definition counts (series_id : string) (n : nat) {A} (m : M A) : Prop :=
  forall w, counted series_id n (load_series w) (load_series (snd (m w))).


(** How [_run_create_series] leaves a series: [done] with one job per
    outlined episode, none of them queued or running, or [error] with
    the message. *)
Definition series_closed (w : World) (s : Series) : Prop :=
  (s_status s = SDone /\
   length (s_job_ids s) = s_total s /\
   length (s_episodes s) = s_total s /\
   forall jid, In jid (s_job_ids s) -> settled_or_gone w jid) \/
  (s_status s = SError /\ s_error s <> None).


(* ------------------------------------------------------------------ *)
(** ** The feed and the episode list                                    *)
(* ------------------------------------------------------------------ *)

(** [sorted(..., key=..., reverse=True)]: descending, and still stable. *)
Fixpoint insert_desc {A : Type} (key : A -> string) (x : A) (l : list A)
  : list A :=
  match l with
  | [] => [x]
  | y :: l' =>
      if String.leb (key y) (key x) then x :: l else y :: insert_desc key x l'
  end.

Definition sort_desc {A : Type} (key : A -> string) (l : list A) : list A :=
  fold_right (insert_desc key) [] l.

(** [feed_eps] of [build_feed]: the episodes that get an item, in the
    order of the items. *)
Definition feed_episodes (eps : list Episode) : list Episode :=
  sort_desc ep_published (filter (fun e => negb (ep_is_trailer e)) eps).

(** [s.replace(c, by)] for a pattern of one character. *)
Fixpoint replace_char (c : ascii) (by_ : string) (s : string) : string :=
  match s with
  | EmptyString => EmptyString
  | String a s' =>
      if Ascii.eqb a c then (by_ ++ replace_char c by_ s')%string
      else String a (replace_char c by_ s')
  end.

(** [esc] of [build_feed]; ["034"] is the double quote. *)
Definition esc (s : string) : string :=
  replace_char "034"%char "&quot;"
    (replace_char ">"%char "&gt;"
       (replace_char "<"%char "&lt;"
          (replace_char "&"%char "&amp;" s))).

(** What one character becomes in an escaped text. *)
Definition entity (c : ascii) : string :=
  if Ascii.eqb c "&"%char then "&amp;"%string
  else if Ascii.eqb c "<"%char then "&lt;"%string
  else if Ascii.eqb c ">"%char then "&gt;"%string
  else if Ascii.eqb c "034"%char then "&quot;"%string
  else String c EmptyString.

(** A text rewritten character by character. *)
Fixpoint each (f : ascii -> string) (s : string) : string :=
  match s with
  | EmptyString => EmptyString
  | String c s' => (f c ++ each f s')%string
  end.

(** [api_episode_delete]: the status of the reply and the world it leaves
    (the list of episodes; the audio files are outside the model, and a
    failure to remove them or to rebuild the feed is swallowed). *)
Definition api_episode_delete (id : string) (w : World) : nat * World :=
  let eps := load_episodes w in
  match find (fun e => String.eqb (ep_id e) id) eps with
  | None => (404, w)
  | Some target =>
      (200,
       write_episodes
         (filter (fun e => negb (String.eqb (ep_id e) id)) eps) w)
  end.

(** [api_episodes]: the list with the counts of full episodes and
    trailers. *)
Definition api_episodes (w : World) : list Episode * nat * nat :=
  let eps := load_episodes w in
  (eps, length (filter (fun e => negb (ep_is_trailer e)) eps),
   length (filter ep_is_trailer eps)).

Definition sample_entry (id : string) (trailer : bool) (published : string)
  : Episode :=
  {| ep_id := id; ep_title := "Briefing"; ep_description := "";
     ep_file := (id ++ ".mp3")%string; ep_file_size := 3;
     ep_depth := "Standard"; ep_is_trailer := trailer; ep_sources := [];
     ep_published := published; ep_series_id := None;
     ep_series_ep := None |}.


(* ------------------------------------------------------------------ *)
(** ** The weekly count of productions and the topics endpoint          *)
(* ------------------------------------------------------------------ *)

Definition WEEKLY_CAP : nat := 50.

(** [timedelta(days=7)], in microseconds. *)
Definition seven_days : Z := 7 * 24 * 3600 * 1000000.

(** The reply of [/api/topics]. *)
Record TopicsReply : Type := mkTopicsReply {
  tr_error : option string;
  tr_topics : list Topic;
  tr_productions_this_week : nat;
  tr_weekly_cap : nat
}.

Section ProductionCap.
Variable env : Env.
(** [datetime.fromisoformat(ts)] as an instant in microseconds, ready to
    be compared with [week_ago]; it raises on a text that is no date
    ([ValueError]), and so does the comparison when the date has no
    offset ([TypeError]). *)
Variable fromisoformat : string -> result Z.
(** [datetime.now(timezone.utc)], in microseconds. *)
Variable now_utc : nat -> Z.

Local Open Scope monad_scope.

(** The generator that [productions_this_week] sums, read left to
    right. *)
Fixpoint count_since (week_ago : Z) (log : list string) : result nat :=
  match log with
  | [] => Ok 0
  | ts :: rest =>
      match fromisoformat ts with
      | Raise e => Raise e
      | Ok t =>
          match count_since week_ago rest with
          | Raise e => Raise e
          | Ok n => Ok (if Z.ltb week_ago t then S n else n)
          end
      end
  end.

Definition productions_this_week : M nat :=
  log <- gets get_production_log ;;
  now <- read now_utc ;;
  match count_since (now - seven_days) log with
  | Ok n => ret n
  | Raise e => raise e
  end.

Definition api_topics (today : string) : M TopicsReply :=
  try_except
    (topics <- get_topics_for_today env today ;;
     week_count <- productions_this_week ;;
     ret (mkTopicsReply None topics week_count WEEKLY_CAP))
    (fun e => ret (mkTopicsReply (Some e) FALLBACK_TOPICS 0 WEEKLY_CAP)).
End ProductionCap.

(** A reading of dates for examples: ["bad"] is no date, any other text
    is the instant 0. *)
Definition sample_dates (ts : string) : result Z :=
  if String.eqb ts "bad" then Raise "Invalid isoformat string: 'bad'"
  else Ok 0%Z.





(* ------------------------------------------------------------------ *)
(** ** Workers and the production log                                   *)
(* ------------------------------------------------------------------ *)

(** Two worlds that differ at most in the production log. *)
Definition same_but_log (w1 w2 : World) : Prop :=
  jobs_file w1 = jobs_file w2 /\ jobs_before w1 = jobs_before w2 /\
  series_file w1 = series_file w2 /\ episodes_file w1 = episodes_file w2 /\
  topics_cache w1 = topics_cache w2 /\ calls w1 = calls w2 /\
  topic_runs w1 = topic_runs w2.

(** [m] does not look at the production log: from two worlds that differ
    in the log only, it gives the same result, leaves worlds that differ
    in the log only, and has appended the same entries to both logs. *)
Definition blind {A} (m : M A) : Prop :=
  forall w1 w2,
    same_but_log w1 w2 ->
    fst (m w1) = fst (m w2) /\
    same_but_log (snd (m w1)) (snd (m w2)) /\
    exists stamps,
      get_production_log (snd (m w1)) = get_production_log w1 ++ stamps /\
      get_production_log (snd (m w2)) = get_production_log w2 ++ stamps.


(* ------------------------------------------------------------------ *)
(** ** Queueing a topic from the dashboard                              *)
(* ------------------------------------------------------------------ *)

(** [topic["title"] = t] *)
Definition with_title (t : string) (topic : Topic) : Topic :=
  {| rank := rank topic; title := Some t; tension := tension topic;
     why_it_matters := why_it_matters topic;
     common_mistake := common_mistake topic;
     sub_questions := sub_questions topic;
     trailer_hook := trailer_hook topic;
     production_brief := production_brief topic;
     series_context := series_context topic;
     episode_number := episode_number topic |}.

(** The arguments of the [_run_generate] thread that
    [autoqueue_ar_topic] starts. *)
Record Started : Type := mkStarted {
  st_job_id : string;
  st_topic : Topic;
  st_depth : string;
  st_voice_alex : string;
  st_voice_morgan : string;
  st_is_trailer : bool;
  st_brief : string
}.

Section Autoqueue.
Variable env : Env.

Local Open Scope monad_scope.
Local Open Scope string_scope.

(** [autoqueue_ar_topic]: [None] where the source returns [None], and
    otherwise the thread it started, whose job id is what the source
    returns. *)
Definition autoqueue_ar_topic (voice_alex voice_morgan : string)
  : M (option Started) :=
  try_except
    (ar_data <- read (fetch_ar_intelligence env) ;;
     match ar_data with
     | [] => ret None
     | _ :: _ =>
         reply <- ask (fun n => call_anthropic env n false) ;;
         match json_topic env (strip_fence reply) with
         | None => raise "reply is not a JSON object"
         | Some topic =>
             ttl <- need_key "title" (title topic) ;;
             let topic := with_title ("[AR] " ++ ttl) topic in
             job_id <- create_job env Generate None None ;;
             ret (Some (mkStarted job_id topic "standard" voice_alex
                          voice_morgan false
                          (match production_brief topic with
                           | Some b => b | None => "" end)))
         end
     end)
    (fun _ => ret None).

(** The worker that the started thread runs. *)
Definition run_started (s : Started) : M unit :=
  _run_generate env (st_job_id s) (st_topic s) (st_depth s)
    (st_voice_alex s) (st_voice_morgan s) (st_is_trailer s) (st_brief s).
End Autoqueue.


(** Every run of [m], whether it returns or raises, appends at most [n]
    entries to the production log and changes nothing else of it. *)
Definition logs (n : nat) {A} (m : M A) : Prop :=
  forall w, exists stamps,
    get_production_log (snd (m w)) = get_production_log w ++ stamps /\
    length stamps <= n.


(* ------------------------------------------------------------------ *)
(** ** A series whose counter cannot be written                         *)
(* ------------------------------------------------------------------ *)

(** The studio in which the disk is full at call 24: for a series of one
    episode run from [one_episode_world], that is the write of the series
    file that counts the episode (calls 8 and 21 are the audio files). *)
Definition full_disk_env : Env :=
  {| ANTHROPIC_API_KEY := ANTHROPIC_API_KEY studio_env;
     utc_now := utc_now studio_env;
     local_stamp := local_stamp studio_env;
     uuid4 := uuid4 studio_env;
     fetch_ar_intelligence := fetch_ar_intelligence studio_env;
     call_anthropic := call_anthropic studio_env;
     json_topics := json_topics studio_env;
     json_topic := json_topic studio_env;
     parse_script_reply := parse_script_reply studio_env;
     elevenlabs_client := elevenlabs_client studio_env;
     voices_get_all := voices_get_all studio_env;
     text_to_speech := text_to_speech studio_env;
     filesystem := fun n =>
       if Nat.eqb n 24
       then Raise "[Errno 28] No space left on device"%string
       else Ok tt;
     str_lower := str_lower studio_env;
     str_title := str_title studio_env |}.

Definition one_episode : Topic :=
  sample_episode 1 "Overview"%string (Some "Why now."%string).

(** The queued job ["a"] as the only job of the series ["s1"], which is
    being produced. *)
Definition one_episode_world : World :=
  {| jobs_file := Parsed [sample_job Queued 97]; jobs_before := [];
     series_file :=
       Parsed [{| s_id := "s1"%string; s_title := "Arc"%string;
                  s_num_episodes := 1; s_status := Producing;
                  s_created_at := "2024-01-01T00:00:00+00:00"%string;
                  s_episodes := [one_episode]; s_job_ids := ["a"%string];
                  s_total := 1; s_completed := 0; s_error := None |}];
     episodes_file := Absent; production_log := Absent;
     topics_cache := Absent; calls := 0; topic_runs := 0 |}.

(* ------------------------------------------------------------------ *)
(** ** Facts about ordered dictionaries                                 *)
(* ------------------------------------------------------------------ *)

Section DictFacts.
Context {V : Type}.
Implicit Types (d : dict V) (k : string) (v : V).

Lemma dict_get_filter_key (p : string -> bool) d k :
  dict_get (filter (fun e => p (fst e)) d) k
  = if p k then dict_get d k else None.
Proof.
  induction d as [|[k' v] d IH]; simpl.
  - now destruct (p k).
  - destruct (p k') eqn:Hp; simpl.
    + destruct (String.eqb_spec k' k) as [->|Hne].
      * now rewrite Hp.
      * exact IH.
    + rewrite IH. destruct (String.eqb_spec k' k) as [->|Hne].
      * now rewrite Hp.
      * reflexivity.
Qed.

Lemma fold_dict_del ks d :
  fold_left dict_del ks d = filter (fun e => negb (mem (fst e) ks)) d.
Proof.
  revert d. induction ks as [|x ks IH]; intros d; simpl.
  - induction d as [|e d IHd]; simpl; [reflexivity|now rewrite <- IHd].
  - rewrite IH. unfold dict_del, mem. simpl.
    induction d as [|e d IHd]; simpl; [reflexivity|].
    destruct (String.eqb (fst e) x) eqn:E; simpl.
    + exact IHd.
    + destruct (existsb (String.eqb (fst e)) ks); simpl;
        [exact IHd | now rewrite IHd].
Qed.

Lemma keys_filter (p : string -> bool) d :
  keys (filter (fun e => p (fst e)) d) = filter p (keys d).
Proof.
  induction d as [|e d IH]; simpl; [reflexivity|].
  destruct (p (fst e)); simpl; now rewrite IH.
Qed.

Lemma dict_get_in_keys d k v : dict_get d k = Some v -> In k (keys d).
Proof.
  induction d as [|[k' v'] d IH]; simpl; [discriminate|].
  destruct (String.eqb_spec k' k); auto.
Qed.

Lemma dict_get_none d k : dict_get d k = None <-> ~ In k (keys d).
Proof.
  induction d as [|[k' v'] d IH]; simpl.
  - tauto.
  - destruct (String.eqb_spec k' k) as [->|Hne].
    + split; [discriminate|]. intros H. exfalso. apply H. now left.
    + rewrite IH. tauto.
Qed.

Lemma dict_get_set d k v k' :
  dict_get (dict_set d k v) k' = if String.eqb k k' then Some v else dict_get d k'.
Proof.
  induction d as [|[k0 v0] d IH]; simpl.
  - reflexivity.
  - destruct (String.eqb_spec k0 k) as [->|Hne]; simpl.
    + destruct (String.eqb k k'); reflexivity.
    + rewrite IH. destruct (String.eqb_spec k0 k') as [->|Hne'].
      * destruct (String.eqb_spec k k'); [congruence|reflexivity].
      * reflexivity.
Qed.

Lemma keys_set_present d k v :
  In k (keys d) -> keys (dict_set d k v) = keys d.
Proof.
  induction d as [|[k0 v0] d IH]; simpl; [tauto|].
  intros H. destruct (String.eqb_spec k0 k) as [->|Hne]; simpl.
  - reflexivity.
  - f_equal. apply IH. destruct H; [congruence|assumption].
Qed.

Lemma keys_set_absent d k v :
  ~ In k (keys d) -> keys (dict_set d k v) = keys d ++ [k].
Proof.
  induction d as [|[k0 v0] d IH]; simpl; [reflexivity|].
  intros H. destruct (String.eqb_spec k0 k) as [->|Hne]; simpl.
  - exfalso. apply H. now left.
  - f_equal. apply IH. tauto.
Qed.

Lemma length_keys d : length (keys d) = length d.
Proof. apply length_map. Qed.

Lemma mem_true_iff k ks : mem k ks = true <-> In k ks.
Proof.
  unfold mem. rewrite existsb_exists. split.
  - intros (x & Hin & E). apply String.eqb_eq in E. now subst.
  - intros H. exists k. split; [assumption|apply String.eqb_refl].
Qed.

Lemma mem_false_iff k ks : mem k ks = false <-> ~ In k ks.
Proof.
  rewrite <- mem_true_iff. destruct (mem k ks); split; congruence.
Qed.
End DictFacts.

(* ------------------------------------------------------------------ *)
(** ** The order on time stamps and the stable sort                     *)
(* ------------------------------------------------------------------ *)

Lemma ascii_compare_N (a b : ascii) :
  Ascii.compare a b = N.compare (N_of_ascii a) (N_of_ascii b).
Proof. reflexivity. Qed.

Lemma ascii_compare_eq (a b : ascii) : Ascii.compare a b = Eq -> a = b.
Proof.
  rewrite ascii_compare_N. intros H. apply N.compare_eq in H.
  rewrite <- (ascii_N_embedding a), <- (ascii_N_embedding b). now rewrite H.
Qed.

Lemma string_leb_trans (s1 s2 s3 : string) :
  String.leb s1 s2 = true -> String.leb s2 s3 = true -> String.leb s1 s3 = true.
Proof.
  unfold String.leb. revert s2 s3.
  induction s1 as [|a s1 IH]; intros [|b s2] [|c s3]; simpl; try congruence.
  destruct (Ascii.compare a b) eqn:Hab; try congruence.
  - apply ascii_compare_eq in Hab. subst b.
    destruct (Ascii.compare a c) eqn:Hac; try congruence. apply IH.
  - intros _.
    destruct (Ascii.compare b c) eqn:Hbc; try congruence.
    + apply ascii_compare_eq in Hbc. subst c. now rewrite Hab.
    + intros _. rewrite ascii_compare_N in Hab, Hbc.
      rewrite N.compare_lt_iff in Hab. rewrite N.compare_lt_iff in Hbc.
      assert (H : (N_of_ascii a < N_of_ascii c)%N) by lia.
      apply N.compare_lt_iff in H. rewrite ascii_compare_N. now rewrite H.
Qed.

Lemma insert_by_perm key x l : Permutation (insert_by key x l) (x :: l).
Proof.
  induction l as [|y l IH]; simpl; [reflexivity|].
  destruct (String.leb (key x) (key y)); [reflexivity|].
  rewrite IH. apply perm_swap.
Qed.

Lemma sorted_perm key l : Permutation (sorted key l) l.
Proof.
  induction l as [|x l IH]; simpl; [reflexivity|].
  rewrite insert_by_perm. now constructor.
Qed.

Lemma insert_by_sorted key x l :
  StronglySorted (key_le key) l -> StronglySorted (key_le key) (insert_by key x l).
Proof.
  induction 1 as [|y l Hs IH Hy]; simpl.
  - repeat constructor.
  - destruct (String.leb (key x) (key y)) eqn:E.
    + constructor; [now constructor|].
      constructor; [exact E|].
      rewrite Forall_forall in *. intros z Hz.
      eapply string_leb_trans; [exact E|]. now apply Hy.
    + constructor; [exact IH|].
      rewrite Forall_forall in *. intros z Hz.
      apply (Permutation_in _ (insert_by_perm key x l)) in Hz.
      destruct Hz as [<-|Hz]; [|now apply Hy].
      destruct (String.leb_total (key x) (key y)) as [H|H]; [congruence|exact H].
Qed.

Lemma sorted_sorted key l : StronglySorted (key_le key) (sorted key l).
Proof.
  induction l as [|x l IH]; simpl; [constructor|].
  now apply insert_by_sorted.
Qed.

Lemma in_skipn {A} (l : list A) n x : In x (skipn n l) -> In x l.
Proof.
  intros H. rewrite <- (firstn_skipn n l). apply in_or_app. now right.
Qed.

Lemma sorted_split_le key l n a b :
  StronglySorted (key_le key) l ->
  In a (firstn n l) -> In b (skipn n l) -> key_le key a b.
Proof.
  intros Hs. revert n. induction Hs as [|x l Hs IH Hx]; intros n Ha Hb.
  - destruct n; simpl in Ha; contradiction.
  - destruct n as [|n]; simpl in *; [contradiction|].
    destruct Ha as [<-|Ha].
    + rewrite Forall_forall in Hx. apply Hx.
      eapply in_skipn. exact Hb.
    + eapply IH; eassumption.
Qed.

Lemma filter_not_firstn (l : list string) n :
  NoDup l -> filter (fun x => negb (mem x (firstn n l))) l = skipn n l.
Proof.
  intros Hnd. revert n. induction Hnd as [|x l Hx Hnd IH]; intros n.
  - now destruct n.
  - destruct n as [|n]; simpl.
    + f_equal. clear. induction l as [|y l IHl]; simpl; [reflexivity|now rewrite IHl].
    + unfold mem at 1. simpl. rewrite String.eqb_refl. simpl.
      rewrite <- (IH n). apply filter_ext_in. intros y Hy.
      unfold mem. simpl.
      destruct (String.eqb_spec y x) as [->|Hne]; [contradiction|reflexivity].
Qed.

Lemma perm_filter {A} (p : A -> bool) (l l' : list A) :
  Permutation l l' -> Permutation (filter p l) (filter p l').
Proof.
  induction 1; simpl.
  - constructor.
  - destruct (p x); [now constructor|assumption].
  - destruct (p x), (p y); try reflexivity. apply perm_swap.
  - etransitivity; eassumption.
Qed.

(* ------------------------------------------------------------------ *)
(** ** Retention of the job registry                                    *)
(* ------------------------------------------------------------------ *)

Lemma save_jobs_small jobs : length jobs <= 200 -> _save_jobs jobs = jobs.
Proof.
  intros H. unfold _save_jobs.
  destruct (Nat.ltb_spec 200 (length jobs)); [lia|reflexivity].
Qed.

Lemma save_jobs_filter jobs :
  200 < length jobs ->
  _save_jobs jobs = filter (fun e => negb (mem (fst e) (evicted_keys jobs))) jobs.
Proof.
  intros H. unfold _save_jobs.
  destruct (Nat.ltb_spec 200 (length jobs)); [|lia].
  apply fold_dict_del.
Qed.

Lemma save_jobs_get jobs k j :
  dict_get (_save_jobs jobs) k = Some j -> dict_get jobs k = Some j.
Proof.
  destruct (Nat.le_gt_cases (length jobs) 200) as [H|H].
  - now rewrite save_jobs_small.
  - rewrite save_jobs_filter by assumption.
    rewrite (dict_get_filter_key (fun x => negb (mem x (evicted_keys jobs)))).
    destruct (negb _); [auto|discriminate].
Qed.

Lemma save_jobs_keys jobs :
  NoDup (keys jobs) -> 200 < length jobs ->
  Permutation (keys (_save_jobs jobs))
    (skipn (length jobs - 200) (sorted (created_key jobs) (keys jobs))).
Proof.
  intros Hnd H. rewrite save_jobs_filter by assumption.
  rewrite (keys_filter (fun x => negb (mem x (evicted_keys jobs)))).
  pose proof (sorted_perm (created_key jobs) (keys jobs)) as Hp.
  rewrite (perm_filter _ _ _ (Permutation_sym Hp)).
  unfold evicted_keys. rewrite filter_not_firstn.
  - rewrite (Permutation_length Hp), length_keys. reflexivity.
  - eapply Permutation_NoDup; [apply Permutation_sym; exact Hp|exact Hnd].
Qed.

Lemma save_jobs_length jobs :
  NoDup (keys jobs) -> length (_save_jobs jobs) = Nat.min (length jobs) 200.
Proof.
  intros Hnd. destruct (Nat.le_gt_cases (length jobs) 200) as [H|H].
  - rewrite save_jobs_small by assumption. lia.
  - rewrite <- (length_keys (_save_jobs jobs)).
    rewrite (Permutation_length (save_jobs_keys jobs Hnd H)).
    rewrite length_skipn, (Permutation_length (sorted_perm _ _)), length_keys.
    lia.
Qed.

Lemma save_jobs_oldest jobs k j k' j' :
  NoDup (keys jobs) ->
  dict_get jobs k = Some j ->
  dict_get (_save_jobs jobs) k = None ->
  dict_get (_save_jobs jobs) k' = Some j' ->
  String.leb (j_created_at j) (j_created_at j') = true.
Proof.
  intros Hnd Hk Hev Hkept.
  destruct (Nat.le_gt_cases (length jobs) 200) as [H|H].
  - rewrite save_jobs_small in Hev by assumption. congruence.
  - pose proof (save_jobs_get _ _ _ Hkept) as Hk'.
    assert (Ha : In k (evicted_keys jobs)).
    { rewrite save_jobs_filter in Hev by assumption.
      rewrite (dict_get_filter_key (fun x => negb (mem x (evicted_keys jobs)))) in Hev.
      destruct (mem k (evicted_keys jobs)) eqn:E.
      - now apply mem_true_iff.
      - simpl in Hev. congruence. }
    assert (Hb : In k' (skipn (length jobs - 200)
                          (sorted (created_key jobs) (keys jobs)))).
    { eapply Permutation_in; [apply save_jobs_keys; assumption|].
      eapply dict_get_in_keys; eassumption. }
    unfold evicted_keys in Ha.
    rewrite (Permutation_length (sorted_perm _ _)), length_keys in Ha.
    pose proof (sorted_split_le _ _ _ _ _ (sorted_sorted _ _) Ha Hb) as Hle.
    unfold key_le, created_key in Hle. now rewrite Hk, Hk' in Hle.
Qed.

Lemma nodup_keys_set (jobs : dict Job) k v :
  NoDup (keys jobs) -> NoDup (keys (dict_set jobs k v)).
Proof.
  intros Hnd. destruct (in_dec String.string_dec k (keys jobs)) as [Hin|Hnin].
  - now rewrite keys_set_present.
  - rewrite keys_set_absent by assumption.
    apply NoDup_app; [assumption|repeat constructor; simpl; tauto|].
    intros x Hx [<-|[]]. contradiction.
Qed.

Lemma nodup_keys_save jobs : NoDup (keys jobs) -> NoDup (keys (_save_jobs jobs)).
Proof.
  intros Hnd. destruct (Nat.le_gt_cases (length jobs) 200) as [H|H].
  - now rewrite save_jobs_small.
  - rewrite save_jobs_filter by assumption.
    rewrite (keys_filter (fun x => negb (mem x (evicted_keys jobs)))).
    now apply NoDup_filter.
Qed.

Lemma nodupb_sound l : nodupb l = true -> NoDup l.
Proof.
  induction l as [|x l IH]; simpl; [constructor|].
  intros H. apply andb_prop in H. destruct H as [H1 H2].
  constructor; [|auto].
  apply mem_false_iff. now destruct (mem x l).
Qed.

Lemma string_leb_refl s : String.leb s s = true.
Proof. now destruct (String.leb_total s s). Qed.

(** C3. Every persist of the registry keeps at most 200 records: a
    document of more than 200 records is cut to exactly 200, the survivors
    are unchanged, and every evicted record is at least as old (by
    [created_at]) as every survivor.  In particular, creating a job with a
    fresh id in a registry of 200 evicts exactly one record, whose
    [created_at] is the earliest of all 201. *)
Theorem save_jobs_retention (jobs : dict Job) (Hnd : NoDup (keys jobs)) :
  length (_save_jobs jobs) = Nat.min (length jobs) 200 /\
  (forall k j, dict_get (_save_jobs jobs) k = Some j -> dict_get jobs k = Some j) /\
  (forall k j k' j',
      dict_get jobs k = Some j ->
      dict_get (_save_jobs jobs) k = None ->
      dict_get (_save_jobs jobs) k' = Some j' ->
      String.leb (j_created_at j) (j_created_at j') = true) /\
  (forall job_id now1 now2 ty sid sep,
      length jobs = 200 -> dict_get jobs job_id = None ->
      let all := dict_set jobs job_id (new_job job_id now1 now2 ty sid sep) in
      let after := create_job_doc jobs job_id now1 now2 ty sid sep in
      length after = 200 /\
      exists victim jv,
        dict_get all victim = Some jv /\
        (forall k, dict_get after k
                   = if String.eqb k victim then None else dict_get all k) /\
        (forall k j, dict_get all k = Some j ->
                     String.leb (j_created_at jv) (j_created_at j) = true)).
Proof.
  split; [now apply save_jobs_length|].
  split; [apply save_jobs_get|].
  split; [intros; eapply save_jobs_oldest; eassumption|].
  intros job_id now1 now2 ty sid sep Hlen Hfresh all after.
  assert (Hnd' : NoDup (keys all)) by now apply nodup_keys_set.
  assert (Hlen' : length all = 201).
  { rewrite <- length_keys. unfold all. rewrite keys_set_absent.
    - rewrite length_app, length_keys. simpl. lia.
    - now apply dict_get_none. }
  split.
  { unfold after, create_job_doc. fold all. rewrite save_jobs_length by assumption. lia. }
  pose proof (sorted_perm (created_key all) (keys all)) as Hp.
  pose proof (sorted_sorted (created_key all) (keys all)) as Hs.
  destruct (sorted (created_key all) (keys all)) as [|victim rest] eqn:Es.
  { apply Permutation_length in Hp. rewrite length_keys in Hp. simpl in Hp. lia. }
  assert (Hev : evicted_keys all = [victim]).
  { unfold evicted_keys. rewrite Es.
    replace (length (victim :: rest)) with 201.
    - reflexivity.
    - rewrite (Permutation_length Hp), length_keys. lia. }
  assert (Hvin : In victim (keys all)).
  { eapply Permutation_in; [exact Hp|now left]. }
  destruct (dict_get all victim) as [jv|] eqn:Ev.
  2:{ apply dict_get_none in Ev. contradiction. }
  exists victim, jv. split; [exact Ev|]. split.
  - intros k. unfold after, create_job_doc. fold all.
    rewrite save_jobs_filter by lia. rewrite Hev.
    rewrite (dict_get_filter_key (fun x => negb (mem x [victim]))).
    unfold mem. simpl. rewrite orb_false_r.
    now destruct (String.eqb k victim).
  - intros k j Hk.
    assert (Hin : In k (victim :: rest)).
    { eapply Permutation_in; [apply Permutation_sym; exact Hp|].
      eapply dict_get_in_keys; eassumption. }
    destruct Hin as [<-|Hin].
    + rewrite Ev in Hk. injection Hk as <-. apply string_leb_refl.
    + inversion Hs as [|? ? _ Hall]; subst.
      rewrite Forall_forall in Hall. specialize (Hall k Hin).
      unfold key_le, created_key in Hall. now rewrite Ev, Hk in Hall.
Qed.

(** A registry of 200 records (stamps ["1"] .. ["ø"]) receives a job
    stamped ["z"]: one record goes. *)
Lemma save_jobs_retention_witness :
  NoDup (keys (sample_registry 49 200)) /\
  length (create_job_doc (sample_registry 49 200) "new" "z" "z" Generate None None) = 200.
Proof.
  assert (H : NoDup (keys (sample_registry 49 200))).
  { apply nodupb_sound. vm_compute. reflexivity. }
  split; [exact H|].
  destruct (save_jobs_retention (sample_registry 49 200) H) as (_ & _ & _ & H4).
  apply (H4 "new"%string "z"%string "z"%string Generate None None).
  - vm_compute. reflexivity.
  - vm_compute. reflexivity.
Defined.

Example save_jobs_201_evicts_oldest :
  let after := create_job_doc (sample_registry 49 200) "new" "z" "z" Generate None None in
  dict_get after "1" = None /\ keys after = skipn 1 (keys (sample_registry 49 200)) ++ ["new"%string].
Proof. vm_compute. split; reflexivity. Qed.

(* ------------------------------------------------------------------ *)
(** ** [clear_queue]                                                    *)
(* ------------------------------------------------------------------ *)

Lemma dict_get_del {V} (d : dict V) x k :
  dict_get (dict_del d x) k = if String.eqb k x then None else dict_get d k.
Proof.
  unfold dict_del.
  rewrite (dict_get_filter_key (fun y => negb (String.eqb y x))).
  now destruct (String.eqb k x).
Qed.

Lemma length_dict_del {V} (d : dict V) x :
  NoDup (keys d) -> In x (keys d) -> S (length (dict_del d x)) = length d.
Proof.
  induction d as [|[k v] d IH]; simpl; [tauto|].
  intros Hnd Hin. inversion Hnd as [|? ? Hk Hnd']; subst.
  destruct (String.eqb_spec k x) as [->|Hne]; simpl.
  - f_equal. clear IH Hin Hnd. fold (dict_del d x).
    induction d as [|[k' v'] d IHd]; simpl; [reflexivity|].
    simpl in Hk. inversion Hnd' as [|? ? Hk' Hnd'']; subst.
    destruct (String.eqb_spec k' x) as [->|Hne]; simpl.
    + exfalso. apply Hk. now left.
    + f_equal. apply IHd; [tauto|assumption].
  - f_equal. apply IH; [assumption|]. destruct Hin; [congruence|assumption].
Qed.

Lemma nodup_keys_del {V} (d : dict V) x : NoDup (keys d) -> NoDup (keys (dict_del d x)).
Proof.
  intros H. unfold dict_del.
  rewrite (keys_filter (fun y => negb (String.eqb y x))). now apply NoDup_filter.
Qed.

Lemma clear_fold_get ks : forall d n k,
  dict_get (fst (fold_left clear_step ks (d, n))) k
  = match dict_get d k with
    | Some j => if mem k ks && clearable (j_status j) then None else Some j
    | None => None
    end.
Proof.
  induction ks as [|x ks IH]; intros d n k; cbn [fold_left].
  - simpl. now destruct (dict_get d k).
  - unfold clear_step at 2. cbn [fst snd].
    assert (Hmem : mem k (x :: ks) = String.eqb k x || mem k ks) by reflexivity.
    rewrite Hmem. clear Hmem.
    destruct (dict_get d x) as [jx|] eqn:Ex.
    + destruct (clearable (j_status jx)) eqn:Ec.
      * rewrite IH, dict_get_del.
        destruct (String.eqb_spec k x) as [->|Hne].
        -- now rewrite Ex, Ec.
        -- reflexivity.
      * rewrite IH.
        destruct (String.eqb_spec k x) as [->|Hne]; [|reflexivity].
        rewrite Ex, Ec. now rewrite !andb_false_r.
    + rewrite IH.
      destruct (String.eqb_spec k x) as [->|Hne]; [|reflexivity].
      now rewrite Ex.
Qed.

Lemma clear_fold_count ks : forall d n,
  NoDup (keys d) ->
  let r := fold_left clear_step ks (d, n) in
  length (fst r) + snd r = length d + n /\ NoDup (keys (fst r)).
Proof.
  induction ks as [|x ks IH]; intros d n Hnd; simpl.
  - split; [reflexivity|assumption].
  - unfold clear_step at 2 4 6. simpl.
    destruct (dict_get d x) as [jx|] eqn:Ex; [|now apply IH].
    destruct (clearable (j_status jx)); [|now apply IH].
    destruct (IH (dict_del d x) (S n) (nodup_keys_del d x Hnd)) as [H1 H2].
    split; [|exact H2].
    simpl in H1. rewrite H1.
    pose proof (length_dict_del d x Hnd (dict_get_in_keys _ _ _ Ex)). lia.
Qed.

(** C4. On a registry within its retention bound, [clear_queue] removes
    every queued or failed job, keeps every running or finished job as it
    was, adds nothing, and returns the number of records by which the
    registry shrank. *)
Theorem clear_queue_spec (jobs : dict Job)
    (Hnd : NoDup (keys jobs)) (Hsize : length jobs <= 200) :
  let jobs' := fst (clear_queue jobs) in
  let cleared := snd (clear_queue jobs) in
  (forall k j, dict_get jobs k = Some j ->
     j_status j = Queued \/ j_status j = Error -> dict_get jobs' k = None) /\
  (forall k j, dict_get jobs k = Some j ->
     j_status j = Running \/ j_status j = Done -> dict_get jobs' k = Some j) /\
  (forall k j, dict_get jobs' k = Some j -> dict_get jobs k = Some j) /\
  length jobs' <= length jobs /\
  cleared = length jobs - length jobs'.
Proof.
  unfold clear_queue. simpl.
  destruct (clear_fold_count (keys jobs) jobs 0 Hnd) as [Hc Hnd'].
  set (r := fold_left clear_step (keys jobs) (jobs, 0)) in *.
  assert (Hsmall : length (fst r) <= 200) by lia.
  rewrite (save_jobs_small _ Hsmall).
  assert (Hget : forall k, dict_get (fst r) k
                 = match dict_get jobs k with
                   | Some j => if clearable (j_status j) then None else Some j
                   | None => None
                   end).
  { intros k. unfold r. rewrite clear_fold_get.
    destruct (dict_get jobs k) as [j|] eqn:E; [|reflexivity].
    assert (Hm : mem k (keys jobs) = true).
    { apply mem_true_iff. eapply dict_get_in_keys; eassumption. }
    now rewrite Hm. }
  repeat split.
  - intros k j Hk Hs. rewrite Hget, Hk.
    destruct Hs as [-> | ->]; reflexivity.
  - intros k j Hk Hs. rewrite Hget, Hk.
    destruct Hs as [-> | ->]; reflexivity.
  - intros k j. rewrite Hget.
    destruct (dict_get jobs k) as [j0|]; [|discriminate].
    destruct (clearable (j_status j0)); [discriminate|auto].
  - lia.
  - lia.
Qed.

Lemma clear_queue_spec_witness :
  let reg := [sample_job Queued 97; sample_job Running 98;
              sample_job Done 99; sample_job Error 100] in
  keys (fst (clear_queue reg)) = ["b"%string; "c"%string] /\
  snd (clear_queue reg) = 4 - length (fst (clear_queue reg)).
Proof.
  intros reg.
  assert (Hnd : NoDup (keys reg)) by (apply nodupb_sound; reflexivity).
  assert (Hsz : length reg <= 200) by (simpl; lia).
  split; [reflexivity|].
  exact (proj2 (proj2 (proj2 (proj2 (clear_queue_spec reg Hnd Hsz))))).
Defined.

(* ------------------------------------------------------------------ *)
(** ** Engagement summary                                               *)
(* ------------------------------------------------------------------ *)

Lemma signals_of_touch ts t f t' :
  signals_of (touch ts t f) t'
  = if String.eqb t t' then f (signals_of ts t) else signals_of ts t'.
Proof.
  unfold touch, signals_of at 1. rewrite dict_get_set.
  now destruct (String.eqb t t').
Qed.

Lemma keys_touch ts t f :
  keys (touch ts t f)
  = if in_dec String.string_dec t (keys ts) then keys ts else keys ts ++ [t].
Proof.
  unfold touch. destruct (in_dec String.string_dec t (keys ts)).
  - now apply keys_set_present.
  - now apply keys_set_absent.
Qed.

Lemma topic_signals_snoc events e :
  topic_signals (events ++ [e]) = record_event (topic_signals events) e.
Proof. unfold topic_signals. now rewrite fold_left_app. Qed.

Lemma observed_snoc events e t ty :
  observed (events ++ [e]) t ty = observed events t ty || about t ty e.
Proof. unfold observed. rewrite existsb_app. simpl. now rewrite orb_false_r. Qed.

Lemma max_play_pct_snoc events e t :
  max_play_pct (events ++ [e]) t
  = if about t "play_pct" e then Z.max (max_play_pct events t) (ev_pct0 e)
    else max_play_pct events t.
Proof. unfold max_play_pct. now rewrite fold_left_app. Qed.

Lemma topic_order_in events t :
  In t (topic_order events) <-> In t (map ev_title (filter signalled events)).
Proof.
  unfold topic_order. rewrite <- in_rev, nodup_In, <- in_rev. reflexivity.
Qed.

Lemma topic_order_snoc events e :
  topic_order (events ++ [e])
  = if signalled e then
      if in_dec String.string_dec (ev_title e) (topic_order events)
      then topic_order events else topic_order events ++ [ev_title e]
    else topic_order events.
Proof.
  unfold topic_order at 1. rewrite filter_app. simpl.
  destruct (signalled e); [|now rewrite app_nil_r].
  rewrite map_app, rev_app_distr. simpl.
  destruct (in_dec String.string_dec (ev_title e)
              (rev (map ev_title (filter signalled events)))) as [Hin|Hnin];
  destruct (in_dec String.string_dec (ev_title e) (topic_order events)) as [Hin'|Hnin'].
  - reflexivity.
  - exfalso. apply Hnin'. apply topic_order_in. now rewrite in_rev.
  - exfalso. apply Hnin. rewrite <- in_rev. now apply topic_order_in.
  - reflexivity.
Qed.

Lemma topic_order_nodup events : NoDup (topic_order events).
Proof. unfold topic_order. apply NoDup_rev, NoDup_nodup. Qed.

Lemma topic_order_nonempty events : ~ In EmptyString (topic_order events).
Proof.
  rewrite topic_order_in, in_map_iff. intros (e & Ht & He).
  apply filter_In in He. destruct He as [_ He]. unfold signalled in He.
  rewrite Ht in He. discriminate.
Qed.

(** The five branches of the loop, tried in the order of the source. *)
Ltac by_event_type e :=
  destruct (String.eqb_spec (ev_type e) "preview_started");
  [|destruct (String.eqb_spec (ev_type e) "commissioned");
    [|destruct (String.eqb_spec (ev_type e) "dismissed");
      [|destruct (String.eqb_spec (ev_type e) "play_pct");
        [|destruct (String.eqb_spec (ev_type e) "listen_complete")]]]].

Lemma topic_signals_keys events : keys (topic_signals events) = topic_order events.
Proof.
  induction events as [|e events IH] using rev_ind; [reflexivity|].
  rewrite topic_signals_snoc, topic_order_snoc, <- IH.
  unfold record_event, signalled, recognised, mem.
  destruct (String.eqb_spec (ev_title e) EmptyString) as [E|E]; [reflexivity|].
  cbn [existsb negb andb].
  by_event_type e;
    repeat match goal with
           | H : ev_type e = _ |- _ => rewrite H; clear H
           end;
    cbn [String.eqb Ascii.eqb Bool.eqb andb orb]; try apply keys_touch.
  repeat match goal with
         | H : ev_type e <> _ |- _ => apply String.eqb_neq in H; rewrite H; clear H
         end.
  reflexivity.
Qed.

Lemma about_other t ty e : ev_title e <> t -> about t ty e = false.
Proof.
  intros H. unfold about. apply String.eqb_neq in H. now rewrite H.
Qed.

Lemma about_same ty e : about (ev_title e) ty e = String.eqb (ev_type e) ty.
Proof. unfold about. now rewrite String.eqb_refl. Qed.

Lemma record_event_other ts e t :
  ev_title e <> t -> signals_of (record_event ts e) t = signals_of ts t.
Proof.
  intros H. apply String.eqb_neq in H. unfold record_event.
  destruct (String.eqb (ev_title e) EmptyString); [reflexivity|].
  repeat match goal with
         | |- context [if ?b then _ else _] =>
             destruct b; [rewrite signals_of_touch, H; reflexivity|]
         end.
  reflexivity.
Qed.

Lemma topic_signals_agree events t :
  t <> EmptyString -> agrees events t (signals_of (topic_signals events) t).
Proof.
  intros Ht. induction events as [|e events IH] using rev_ind.
  - unfold agrees. simpl. repeat split; reflexivity.
  - rewrite topic_signals_snoc.
    destruct (String.string_dec (ev_title e) t) as [E|E].
    + subst t. unfold agrees in *.
      rewrite !observed_snoc, max_play_pct_snoc, !about_same.
      destruct IH as (H1 & H2 & H3 & H4 & H5).
      unfold record_event. apply String.eqb_neq in Ht. rewrite Ht.
      by_event_type e;
        repeat match goal with
               | H : ev_type e = _ |- _ => rewrite H; clear H
               end;
        try (rewrite signals_of_touch, String.eqb_refl;
             cbn [String.eqb Ascii.eqb Bool.eqb andb
                  sg_previewed sg_commissioned sg_dismissed
                  sg_max_pct sg_listen_complete];
             rewrite ?orb_false_r, ?orb_true_r;
             repeat split; try assumption; try reflexivity).
      * destruct (sg_listen_complete (signals_of (topic_signals events) (ev_title e)));
          [lia | now rewrite H5].
      * rewrite ?orb_false_r. repeat split; assumption.
    + rewrite record_event_other by assumption.
      unfold agrees in *. rewrite !observed_snoc, max_play_pct_snoc.
      rewrite !(about_other t _ e E), !orb_false_r. exact IH.
Qed.

Lemma items_filter (c : string -> Signals -> bool) (ts : dict Signals) :
  NoDup (keys ts) ->
  map fst (filter (fun e => c (fst e) (snd e)) ts)
  = filter (fun t => c t (signals_of ts t)) (keys ts).
Proof.
  induction ts as [|[k v] ts IH]; simpl; [reflexivity|].
  intros Hnd. inversion Hnd as [|? ? Hk Hnd']; subst.
  assert (Hrest : filter (fun t => c t (signals_of ((k, v) :: ts) t)) (keys ts)
                  = filter (fun t => c t (signals_of ts t)) (keys ts)).
  { apply filter_ext_in. intros t Hin. unfold signals_of. simpl.
    destruct (String.eqb_spec k t) as [->|_]; [contradiction|reflexivity]. }
  unfold signals_of at 1. simpl. rewrite String.eqb_refl.
  destruct (c k v); simpl; rewrite Hrest, IH by assumption; reflexivity.
Qed.

Lemma mem_filter (p : string -> bool) l t :
  In t l -> mem t (filter p l) = p t.
Proof.
  intros Hin. destruct (p t) eqn:E.
  - apply mem_true_iff, filter_In. now split.
  - apply mem_false_iff. rewrite filter_In. intros [_ H]. congruence.
Qed.

Lemma strong_agrees events t s :
  agrees events t s -> is_strong s = strong_rule events t.
Proof.
  intros (_ & _ & _ & H4 & H5). unfold is_strong, strong_rule. rewrite <- H4.
  destruct (sg_listen_complete s); [reflexivity|now rewrite H5].
Qed.

Lemma strong_list_rule events :
  strong_list (topic_signals events)
  = filter (strong_rule events) (topic_order events).
Proof.
  unfold strong_list.
  rewrite (items_filter (fun _ s => is_strong s)), topic_signals_keys
    by (rewrite topic_signals_keys; apply topic_order_nodup).
  apply filter_ext_in. intros t Hin. apply strong_agrees, topic_signals_agree.
  intros ->. now apply (topic_order_nonempty events).
Qed.

Lemma moderate_list_rule events :
  moderate_list (topic_signals events)
  = filter (moderate_rule events) (topic_order events).
Proof.
  unfold moderate_list.
  rewrite (items_filter
             (fun t s => negb (sg_dismissed s)
                         && (sg_previewed s || (25 <=? sg_max_pct s)%Z)
                         && negb (mem t (strong_list (topic_signals events))))),
    topic_signals_keys
    by (rewrite topic_signals_keys; apply topic_order_nodup).
  apply filter_ext_in. intros t Hin.
  assert (Ht : t <> EmptyString).
  { intros ->. now apply (topic_order_nonempty events). }
  pose proof (topic_signals_agree events t Ht) as Hag.
  rewrite strong_list_rule, (mem_filter _ _ _ Hin).
  unfold moderate_rule.
  pose proof (strong_agrees _ _ _ Hag) as Hs.
  destruct Hag as (H1 & _ & H3 & H4 & H5). rewrite <- H1, <- H3.
  destruct (sg_listen_complete (signals_of (topic_signals events) t)) eqn:El.
  - unfold strong_rule. rewrite <- H4. simpl. now rewrite !andb_false_r.
  - now rewrite H5.
Qed.

Lemma dismissed_list_rule events :
  dismissed_list (topic_signals events)
  = filter (dismissed_rule events) (topic_order events).
Proof.
  unfold dismissed_list.
  rewrite (items_filter (fun _ s => sg_dismissed s)), topic_signals_keys
    by (rewrite topic_signals_keys; apply topic_order_nodup).
  apply filter_ext_in. intros t Hin.
  assert (Ht : t <> EmptyString).
  { intros ->. now apply (topic_order_nonempty events). }
  now destruct (topic_signals_agree events t Ht) as (_ & _ & H3 & _).
Qed.

Lemma summary_buckets events s :
  get_engagement_summary (Parsed events) = Some s ->
  strong_interest s = last_n 20 (filter (strong_rule events) (topic_order events)) /\
  moderate_interest s = last_n 20 (filter (moderate_rule events) (topic_order events)) /\
  dismissed s = last_n 30 (filter (dismissed_rule events) (topic_order events)).
Proof.
  unfold get_engagement_summary. simpl.
  destruct events as [|e events]; [discriminate|].
  intros H. injection H as <-. simpl.
  now rewrite strong_list_rule, moderate_list_rule, dismissed_list_rule.
Qed.

Lemma last_n_in {A} n (l : list A) x : In x (last_n n l) -> In x l.
Proof. apply in_skipn. Qed.

Lemma last_n_all {A} n (l : list A) : length l <= n -> last_n n l = l.
Proof.
  intros H. unfold last_n. replace (length l - n) with 0 by lia. reflexivity.
Qed.

Lemma observed_in_order events t ty :
  t <> EmptyString -> recognised ty = true ->
  observed events t ty = true -> In t (topic_order events).
Proof.
  intros Ht Hty Hobs. unfold observed in Hobs.
  apply existsb_exists in Hobs. destruct Hobs as (e & Hin & Hab).
  unfold about in Hab. apply andb_prop in Hab. destruct Hab as [H1 H2].
  apply String.eqb_eq in H1, H2.
  apply topic_order_in, in_map_iff. exists e. split; [assumption|].
  apply filter_In. split; [assumption|].
  unfold signalled. rewrite H1, H2, Hty.
  apply String.eqb_neq in Ht. now rewrite Ht.
Qed.

Lemma max_play_pct_positive events t :
  (0 < max_play_pct events t)%Z -> observed events t "play_pct" = true.
Proof.
  induction events as [|e events IH] using rev_ind.
  - unfold max_play_pct. simpl. lia.
  - rewrite max_play_pct_snoc, observed_snoc.
    destruct (about t "play_pct" e); [now rewrite orb_true_r|].
    intros H. now rewrite IH.
Qed.

Lemma strong_in_order events t :
  t <> EmptyString -> strong_rule events t = true -> In t (topic_order events).
Proof.
  intros Ht H. unfold strong_rule in H. apply orb_prop in H.
  destruct H as [H|H].
  - now apply (observed_in_order events t "listen_complete").
  - apply (observed_in_order events t "play_pct"); [assumption|reflexivity|].
    apply max_play_pct_positive. apply Z.leb_le in H. lia.
Qed.

Lemma moderate_in_order events t :
  t <> EmptyString -> moderate_rule events t = true -> In t (topic_order events).
Proof.
  intros Ht H. unfold moderate_rule in H.
  apply andb_prop in H. destruct H as [H _].
  apply andb_prop in H. destruct H as [_ H].
  apply orb_prop in H. destruct H as [H|H].
  - now apply (observed_in_order events t "preview_started").
  - apply (observed_in_order events t "play_pct"); [assumption|reflexivity|].
    apply max_play_pct_positive. apply Z.leb_le in H. lia.
Qed.

(** C5 (amended). The [strong_interest] bucket is the last 20, in order of
    first signal, of the titles for which [listen_complete] was observed or
    whose maximum [play_pct] is at least 75; [moderate_interest] is the last
    20 of the titles that are not dismissed, were previewed or reached 25,
    and are not strong.  So membership implies the rule, and for a
    non-empty title the rule implies membership whenever at most 20 titles
    qualify.  For the log [[preview_started("T"), play_pct("T", 80)]], "T"
    is in [strong_interest] and not in [moderate_interest]. *)
Theorem engagement_classification (events : list Event) (s : Summary)
    (H : get_engagement_summary (Parsed events) = Some s) :
  strong_interest s = last_n 20 (filter (strong_rule events) (topic_order events)) /\
  moderate_interest s = last_n 20 (filter (moderate_rule events) (topic_order events)) /\
  (forall t, In t (strong_interest s) -> strong_rule events t = true) /\
  (forall t, In t (moderate_interest s) -> moderate_rule events t = true) /\
  (length (filter (strong_rule events) (topic_order events)) <= 20 ->
   forall t, t <> EmptyString ->
             (In t (strong_interest s) <-> strong_rule events t = true)) /\
  (length (filter (moderate_rule events) (topic_order events)) <= 20 ->
   forall t, t <> EmptyString ->
             (In t (moderate_interest s) <-> moderate_rule events t = true)) /\
  (forall s', get_engagement_summary (Parsed preview_then_play) = Some s' ->
              In "T"%string (strong_interest s') /\
              ~ In "T"%string (moderate_interest s')).
Proof.
  destruct (summary_buckets events s H) as (Hs & Hm & _).
  repeat split.
  - exact Hs.
  - exact Hm.
  - intros t Ht. rewrite Hs in Ht. apply last_n_in, filter_In in Ht. tauto.
  - intros t Ht. rewrite Hm in Ht. apply last_n_in, filter_In in Ht. tauto.
  - rewrite Hs, last_n_all, filter_In by assumption. tauto.
  - rewrite Hs, last_n_all, filter_In by assumption.
    intros Hr. split; [|assumption]. now apply strong_in_order.
  - rewrite Hm, last_n_all, filter_In by assumption. tauto.
  - rewrite Hm, last_n_all, filter_In by assumption.
    intros Hr. split; [|assumption]. now apply moderate_in_order.
  - injection H0 as <-. vm_compute. now left.
  - injection H0 as <-. vm_compute. tauto.
Qed.

Lemma engagement_classification_witness :
  strong_interest
    {| strong_interest := ["T"%string]; moderate_interest := []; dismissed := [] |}
  = last_n 20 (filter (strong_rule preview_then_play) (topic_order preview_then_play)).
Proof.
  exact (proj1 (engagement_classification preview_then_play
                  {| strong_interest := ["T"%string]; moderate_interest := [];
                     dismissed := [] |} eq_refl)).
Defined.

(** C5 as worded fails once more than 20 titles qualify: of 21 titles with
    a [listen_complete] event, the first is not in [strong_interest]. *)
Lemma engagement_strong_cap_counterexample :
  let events := sample_events "listen_complete" 49 21 in
  observed events "1" "listen_complete" = true /\
  exists s, get_engagement_summary (Parsed events) = Some s /\
            ~ In "1"%string (strong_interest s).
Proof.
  split; [reflexivity|].
  eexists. split; [reflexivity|].
  vm_compute. intros H.
  repeat (destruct H as [H|H]; [discriminate H|]). exact H.
Qed.

(** C6 (amended). A title with a [dismissed] event is never in
    [moderate_interest]; it is in the [dismissed] bucket exactly when it is
    among the last 30 dismissed titles (so always when at most 30 titles
    are dismissed and the title is not empty); and it is still in
    [strong_interest] when the strong rule holds for it and at most 20
    titles are strong. *)
Theorem dismissal_asymmetry (events : list Event) (s : Summary) (t : string)
    (H : get_engagement_summary (Parsed events) = Some s)
    (Hd : observed events t "dismissed" = true) :
  ~ In t (moderate_interest s) /\
  (In t (dismissed s)
   <-> In t (last_n 30 (filter (dismissed_rule events) (topic_order events)))) /\
  (t <> EmptyString ->
   length (filter (dismissed_rule events) (topic_order events)) <= 30 ->
   In t (dismissed s)) /\
  (t <> EmptyString -> strong_rule events t = true ->
   length (filter (strong_rule events) (topic_order events)) <= 20 ->
   In t (strong_interest s)).
Proof.
  destruct (summary_buckets events s H) as (Hs & Hm & Hdis).
  repeat split.
  - intros Hin. rewrite Hm in Hin. apply last_n_in, filter_In in Hin.
    destruct Hin as [_ Hr]. unfold moderate_rule in Hr. rewrite Hd in Hr.
    discriminate.
  - now rewrite Hdis.
  - now rewrite Hdis.
  - intros Ht Hlen. rewrite Hdis, last_n_all, filter_In by assumption.
    split; [|exact Hd].
    now apply (observed_in_order events t "dismissed").
  - intros Ht Hr Hlen. rewrite Hs, last_n_all, filter_In by assumption.
    split; [|exact Hr]. now apply strong_in_order.
Qed.

(** Dismissed, then played to 90%: strong and dismissed, not moderate. *)
Lemma dismissal_asymmetry_witness :
  ~ In "T"%string (moderate_interest (mkSummary ["T"%string] [] ["T"%string])) /\
  In "T"%string (dismissed (mkSummary ["T"%string] [] ["T"%string])) /\
  In "T"%string (strong_interest (mkSummary ["T"%string] [] ["T"%string])).
Proof.
  destruct (dismissal_asymmetry dismissed_then_played
              (mkSummary ["T"%string] [] ["T"%string]) "T"%string
              eq_refl eq_refl)
    as (H1 & _ & H3 & H4).
  split; [exact H1|]. split.
  - apply H3; [discriminate|vm_compute; lia].
  - apply H4; [discriminate|reflexivity|vm_compute; lia].
Defined.

(** C6 as worded fails once more than 30 titles are dismissed: of 31
    dismissed titles, the first is not in the [dismissed] bucket. *)
Lemma dismissed_cap_counterexample :
  let events := sample_events "dismissed" 49 31 in
  observed events "1" "dismissed" = true /\
  exists s, get_engagement_summary (Parsed events) = Some s /\
            ~ In "1"%string (dismissed s).
Proof.
  split; [reflexivity|].
  eexists. split; [reflexivity|].
  vm_compute. intros H.
  repeat (destruct H as [H|H]; [discriminate H|]). exact H.
Qed.

(** C10. An absent, unparsable or empty event log gives the empty mapping,
    with no bucket at all; only a log with at least one event gives the
    three buckets. *)
Theorem empty_log_empty_mapping :
  get_engagement_summary Absent = None /\
  get_engagement_summary Unparsable = None /\
  get_engagement_summary (Parsed []) = None /\
  (forall f, load_engagement f = [] -> get_engagement_summary f = None) /\
  (forall f, get_engagement_summary f = None -> load_engagement f = []).
Proof.
  repeat split.
  - intros f Hf. unfold get_engagement_summary. now rewrite Hf.
  - intros f. unfold get_engagement_summary.
    destruct (load_engagement f); [reflexivity|discriminate].
Qed.

(* ------------------------------------------------------------------ *)
(** ** Voice resolution                                                 *)
(* ------------------------------------------------------------------ *)

Lemma find_first {A} (p : A -> bool) pre v post :
  p v = true -> (forall u, In u pre -> p u = false) ->
  find p (pre ++ v :: post) = Some v.
Proof.
  intros Hv. induction pre as [|u pre IH]; intros Hpre; simpl.
  - now rewrite Hv.
  - rewrite (Hpre u) by now left. apply IH. intros w Hw. apply Hpre. now right.
Qed.

Lemma find_nothing {A} (p : A -> bool) l :
  (forall u, In u l -> p u = false) -> find p l = None.
Proof.
  induction l as [|u l IH]; intros H; simpl; [reflexivity|].
  rewrite (H u) by now left. apply IH. intros w Hw. apply H. now right.
Qed.

Lemma find_ext_in {A} (p q : A -> bool) l :
  (forall u, In u l -> p u = q u) -> find p l = find q l.
Proof.
  induction l as [|u l IH]; intros H; simpl; [reflexivity|].
  rewrite (H u) by now left. destruct (q u); [reflexivity|].
  apply IH. intros w Hw. apply H. now right.
Qed.

(** C7 (amended). [resolve_voice] returns the id of the first voice of the
    catalog whose name equals the query up to case or whose id equals the
    query; only when no voice matches in either way, the id of the first
    voice whose name contains the query up to case; and nothing when no
    voice matches at all.  It gives name matches priority over id matches
    only in so far as the catalog lists them first: the two readings agree
    on every catalog in which no id equals the query or no name does. *)
Theorem resolve_voice_order (lower : string -> string)
    (voices : list Voice) (q : string) :
  (forall pre v post,
      voices = pre ++ v :: post ->
      exact_match lower q v = true ->
      (forall u, In u pre -> exact_match lower q u = false) ->
      resolve_voice lower voices q = Some (voice_id v)) /\
  (forall pre v post,
      (forall u, In u voices -> exact_match lower q u = false) ->
      voices = pre ++ v :: post ->
      partial_match lower q v = true ->
      (forall u, In u pre -> partial_match lower q u = false) ->
      resolve_voice lower voices q = Some (voice_id v)) /\
  ((forall u, In u voices ->
               exact_match lower q u = false /\
               partial_match lower q u = false) ->
   resolve_voice lower voices q = None) /\
  ((forall u, In u voices -> id_match q u = false) \/
   (forall u, In u voices -> name_match lower q u = false) ->
   resolve_voice lower voices q = resolve_voice_name_first lower voices q).
Proof.
  repeat split.
  - intros pre v post -> Hv Hpre. unfold resolve_voice.
    now rewrite (find_first _ pre v post Hv Hpre).
  - intros pre v post Hnone E Hv Hpre. unfold resolve_voice.
    rewrite (find_nothing _ _ Hnone). rewrite E.
    now rewrite (find_first _ pre v post Hv Hpre).
  - intros Hnone. unfold resolve_voice.
    rewrite !find_nothing; [reflexivity| |]; intros u Hu; now apply Hnone.
  - intros [Hid|Hname]; unfold resolve_voice, resolve_voice_name_first.
    + rewrite (find_ext_in (exact_match lower q) (name_match lower q)).
      * destruct (find (name_match lower q) voices); [reflexivity|].
        now rewrite (find_nothing _ _ Hid).
      * intros u Hu. unfold exact_match.
        fold (name_match lower q u) (id_match q u).
        rewrite (Hid u Hu). apply orb_false_r.
    + rewrite (find_nothing _ _ Hname).
      rewrite (find_ext_in (exact_match lower q) (id_match q)); [reflexivity|].
      intros u Hu. unfold exact_match.
        fold (name_match lower q u) (id_match q u).
      now rewrite (Hname u Hu).
Qed.

(** C7 as worded fails: the query ["bob"] names the second voice up to
    case, yet the first voice, whose id is ["bob"], is returned. *)
Lemma resolve_voice_id_before_name_counterexample :
  find (name_match ascii_lower "bob") crossed_catalog
  = Some (mkVoice "Bob" "v2") /\
  resolve_voice ascii_lower crossed_catalog "bob" = Some "bob"%string /\
  resolve_voice_name_first ascii_lower crossed_catalog "bob"
  = Some "v2"%string.
Proof. repeat split. Qed.

Example resolve_voice_by_name :
  resolve_voice ascii_lower
    [mkVoice "Rachel" "id1"; mkVoice "Adam" "id2"]%string "adam"
  = Some "id2"%string.
Proof. reflexivity. Qed.

Example resolve_voice_by_substring :
  resolve_voice ascii_lower
    [mkVoice "Rachel - calm" "id1"; mkVoice "Adam" "id2"]%string "RACHEL"
  = Some "id1"%string.
Proof. reflexivity. Qed.

Example resolve_voice_unresolved :
  resolve_voice ascii_lower [mkVoice "Rachel" "id1"]%string "Zed" = None.
Proof. reflexivity. Qed.

(* ------------------------------------------------------------------ *)
(** ** Topic of the day                                                 *)
(* ------------------------------------------------------------------ *)

Lemma generate_topics_runs_once env w :
  exists topics w',
    generate_topics_via_claude env w = (Ok topics, w') /\
    topics_cache w' = topics_cache w /\
    topic_runs w' = S (topic_runs w).
Proof.
  unfold generate_topics_via_claude, bind, modify, try_except, read, ask, ret, raise.
  cbn [fst snd].
  destruct (String.eqb (ANTHROPIC_API_KEY env) ""); [now eauto|].
  cbn.
  destruct (call_anthropic env (S (calls w)) false) as [reply|msg]; [|now eauto].
  destruct (json_topics env (strip_fence reply)); now eauto.
Qed.

Lemma generate_topics_fallback env w :
  topic_generation_fails env w ->
  exists w', generate_topics_via_claude env w = (Ok FALLBACK_TOPICS, w') /\
             topics_cache w' = topics_cache w /\
             topic_runs w' = S (topic_runs w).
Proof.
  intros Hf.
  unfold generate_topics_via_claude, bind, modify, try_except, read, ask, ret, raise.
  cbn [fst snd].
  destruct (String.eqb_spec (ANTHROPIC_API_KEY env) "") as [E|E]; [now eauto|].
  destruct Hf as [Hf|Hf]; [contradiction|].
  cbn.
  destruct (call_anthropic env (S (calls w)) false) as [reply|msg]; [|now eauto].
  rewrite Hf. now eauto.
Qed.

Lemma cached_topics_written today topics w :
  cached_topics today
    (topics_cache (write_topics_cache (mkTopicsDoc (Some today) (Some topics)) w))
  = Some topics.
Proof. simpl. now rewrite String.eqb_refl. Qed.

Lemma get_topics_hit env today topics w :
  cached_topics today (topics_cache w) = Some topics ->
  get_topics_for_today env today w = (Ok topics, w).
Proof.
  intros H. unfold get_topics_for_today, bind, gets. now rewrite H.
Qed.

Lemma get_topics_miss env today w :
  cached_topics today (topics_cache w) = None ->
  exists topics w',
    generate_topics_via_claude env w = (Ok topics, w') /\
    get_topics_for_today env today w
    = (Ok topics, write_topics_cache (mkTopicsDoc (Some today) (Some topics)) w').
Proof.
  intros H.
  destruct (generate_topics_runs_once env w) as (topics & w' & Hg & _ & _).
  exists topics, w'. split; [exact Hg|].
  unfold get_topics_for_today, bind, gets, modify, ret. now rewrite H, Hg.
Qed.

Lemma cached_topics_other_day today other f topics :
  cached_topics today f = Some topics -> other <> today ->
  cached_topics other f = None.
Proof.
  destruct f as [| |d]; simpl; try discriminate.
  destruct (tc_date d) as [day|]; [|discriminate].
  destruct (String.eqb_spec day today) as [->|]; [|discriminate].
  intros _ Hne. apply not_eq_sym, String.eqb_neq in Hne. now rewrite Hne.
Qed.

(** C8. Two consecutive calls of [get_topics_for_today] on the same date
    run the generation at most once, the second call returns the topics of
    the first and changes nothing; a call on any other date runs the
    generation again. *)
Theorem topics_cached_for_the_day (env : Env) (today : string) (w : World) :
  let w1 := exec (get_topics_for_today env today) w in
  let w2 := exec (get_topics_for_today env today) w1 in
  (exists topics,
      eval (get_topics_for_today env today) w = Ok topics /\
      eval (get_topics_for_today env today) w1 = Ok topics) /\
  w2 = w1 /\
  topic_runs w2 <= S (topic_runs w) /\
  (forall other, other <> today ->
     topic_runs (exec (get_topics_for_today env other) w1) = S (topic_runs w1)).
Proof.
  intros w1 w2.
  assert (Hhit : exists topics,
             eval (get_topics_for_today env today) w = Ok topics /\
             cached_topics today (topics_cache w1) = Some topics /\
             topic_runs w1 <= S (topic_runs w)).
  { unfold w1, exec, eval.
    destruct (cached_topics today (topics_cache w)) as [topics|] eqn:Ec.
    - rewrite (get_topics_hit env today topics w Ec). simpl. eauto.
    - destruct (get_topics_miss env today w Ec) as (topics & w' & Hg & ->).
      destruct (generate_topics_runs_once env w) as (t0 & w0 & Hg0 & _ & Hr).
      rewrite Hg in Hg0. injection Hg0 as <- <-.
      exists topics. cbn [fst snd].
      split; [reflexivity|]. split; [apply cached_topics_written|].
      simpl. lia. }
  destruct Hhit as (topics & H1 & H2 & H3).
  assert (E2 : get_topics_for_today env today w1 = (Ok topics, w1))
    by now apply get_topics_hit.
  repeat split.
  - exists topics. split; [exact H1|]. unfold eval. now rewrite E2.
  - unfold w2, exec. now rewrite E2.
  - unfold w2, exec. rewrite E2. exact H3.
  - intros other Hne. unfold exec.
    pose proof (cached_topics_other_day today other _ topics H2 Hne) as Hmiss.
    destruct (get_topics_miss env other w1 Hmiss) as (t' & w' & Hg & ->).
    destruct (generate_topics_runs_once env w1) as (t0 & w0 & Hg0 & _ & Hr).
    rewrite Hg in Hg0. injection Hg0 as <- <-. simpl. exact Hr.
Qed.

(** C9. When no entry is cached for today and the generation path fails,
    [get_topics_for_today] returns [FALLBACK_TOPICS] and caches them under
    today's date; every later call on that date returns them and leaves
    the world as it is, so the generation is not tried again. *)
Theorem fallback_topics_cached (env : Env) (today : string) (w : World)
    (Hmiss : cached_topics today (topics_cache w) = None)
    (Hfail : topic_generation_fails env w) :
  let w1 := exec (get_topics_for_today env today) w in
  eval (get_topics_for_today env today) w = Ok FALLBACK_TOPICS /\
  topics_cache w1 = Parsed (mkTopicsDoc (Some today) (Some FALLBACK_TOPICS)) /\
  topic_runs w1 = S (topic_runs w) /\
  (forall n,
      let wn := Nat.iter n (exec (get_topics_for_today env today)) w1 in
      eval (get_topics_for_today env today) wn = Ok FALLBACK_TOPICS /\
      wn = w1).
Proof.
  intros w1.
  destruct (generate_topics_fallback env w Hfail) as (w' & Hg & _ & Hr).
  destruct (get_topics_miss env today w Hmiss) as (t0 & w0 & Hg0 & E).
  rewrite Hg in Hg0. injection Hg0 as <- <-.
  assert (Ew1 : w1 = write_topics_cache
                       (mkTopicsDoc (Some today) (Some FALLBACK_TOPICS)) w').
  { unfold w1, exec. now rewrite E. }
  assert (Hhit : get_topics_for_today env today w1 = (Ok FALLBACK_TOPICS, w1)).
  { apply get_topics_hit. rewrite Ew1. apply cached_topics_written. }
  repeat split.
  - unfold eval. now rewrite E.
  - now rewrite Ew1.
  - rewrite Ew1. simpl. exact Hr.
  - assert (Hn : Nat.iter n (exec (get_topics_for_today env today)) w1 = w1).
    { induction n as [|n IH]; simpl; [reflexivity|].
      rewrite IH. unfold exec. now rewrite Hhit. }
    unfold eval. now rewrite Hn, Hhit.
  - induction n as [|n IH]; simpl; [reflexivity|].
    rewrite IH. unfold exec. now rewrite Hhit.
Qed.

Lemma fallback_topics_cached_witness :
  eval (get_topics_for_today offline_env "2024-01-01") empty_world
  = Ok FALLBACK_TOPICS.
Proof.
  refine (proj1 (fallback_topics_cached offline_env "2024-01-01"%string
                   empty_world eq_refl _)).
  left. reflexivity.
Defined.

(* ------------------------------------------------------------------ *)
(** ** The life cycle of a job under the workers                        *)
(* ------------------------------------------------------------------ *)

Lemma forward_refl a : forward a a.
Proof. now left. Qed.

Lemma forward_trans a b c : forward a b -> forward b c -> forward a c.
Proof.
  unfold forward. intros [->|H1] [->|H2]; auto. right. lia.
Qed.

Lemma forward_none a : forward a None.
Proof.
  unfold forward. destruct a as [[]|]; simpl; auto.
Qed.

Lemma forward_live a s : live a -> a <> None -> s <> Queued -> forward a (Some s).
Proof.
  unfold forward, live. intros [H1 H2] H3 H4.
  destruct a as [[]|], s; simpl; try congruence; auto.
Qed.

Lemma forward_terminal a b :
  forward a b -> a = Some Done \/ a = Some Error -> b = a \/ b = None.
Proof.
  unfold forward. intros [->|H] [->| ->]; auto;
    destruct b as [[]|]; simpl in H; auto; lia.
Qed.

(** *** What [update_job] does to the registry *)

Lemma update_doc_status jobs jid now kw jobs' j :
  update_job_doc jobs jid now kw = Some jobs' ->
  status_in jobs' j = None \/
  (j <> jid /\ status_in jobs' j = status_in jobs j) \/
  (j = jid /\ exists s0,
      status_in jobs j = Some s0 /\
      status_in jobs' j
      = Some (match k_status kw with Some s => s | None => s0 end)).
Proof.
  unfold update_job_doc.
  destruct (dict_get jobs jid) as [r|] eqn:Er; [|discriminate].
  intros H. injection H as <-. unfold status_in.
  destruct (dict_get (_save_jobs _) j) as [r'|] eqn:Eg; [|now left].
  right. apply save_jobs_get in Eg. rewrite dict_get_set in Eg.
  destruct (String.eqb_spec jid j) as [->|Hne].
  - right. split; [reflexivity|]. exists (j_status r).
    rewrite Er. split; [reflexivity|]. injection Eg as <-. reflexivity.
  - left. split; [congruence|]. now rewrite Eg.
Qed.

Lemma update_job_run env jid kw w :
  update_job env jid kw w
  = match update_job_doc (_load_jobs w) jid (utc_now env (calls w)) kw with
    | Some jobs' => (Ok tt, write_jobs jobs' (tick w))
    | None => (Ok tt, tick w)
    end.
Proof.
  unfold update_job, bind, read, gets, modify, ret. cbn [fst snd].
  change (_load_jobs (tick w)) with (_load_jobs w).
  now destruct (update_job_doc (_load_jobs w) jid (utc_now env (calls w)) kw).
Qed.

Lemma update_job_total env jid kw : total (update_job env jid kw).
Proof.
  intros w. exists tt. rewrite update_job_run.
  now destruct (update_job_doc _ _ _ _).
Qed.

Section LifecycleFacts.
Variables (env : Env) (j jid : string) (others : list string).
Hypothesis Hfresh : ~ In jid others.

Lemma untouched_open {A} (m : M A) w :
  untouched m -> open_job j jid others w -> open_job j jid others (snd (m w)).
Proof.
  intros Hm (Ho & Hl & Hothers). destruct (Hm w) as [E1 E2].
  unfold open_job, ordered, live_at, _load_jobs in *.
  rewrite E1, E2. auto.
Qed.

Lemma untouched_closed {A} (m : M A) w :
  untouched m -> closed_job j others w -> closed_job j others (snd (m w)).
Proof.
  intros Hm (Ho & Hothers). destruct (Hm w) as [E1 E2].
  unfold closed_job, ordered, live_at, _load_jobs in *.
  rewrite E1, E2. auto.
Qed.

Lemma open_closed w : open_job j jid others w -> closed_job j others w.
Proof. intros (H1 & _ & H3). now split. Qed.

Lemma untouched_keeps {A} (m : M A) : untouched m -> keeps j jid others m.
Proof. intros Hm w. now apply untouched_open. Qed.

(** One write of [update_job] extends an ordered history when the status
    it leaves for the watched job may follow the current one. *)
Lemma ordered_write jobs' w :
  ordered j w ->
  forward (status_in (_load_jobs w) j) (status_in jobs' j) ->
  ordered j (write_jobs jobs' (tick w)).
Proof.
  unfold ordered. intros Ho Hf.
  change (_load_jobs (write_jobs jobs' (tick w))) with jobs'.
  change (jobs_before (write_jobs jobs' (tick w)))
    with (_load_jobs w :: jobs_before w).
  constructor; [exact Ho|].
  constructor; [exact Hf|].
  inversion Ho as [|? ? _ Hall]; subst.
  rewrite Forall_forall in *. intros older Hin.
  unfold newer_after in *. eapply forward_trans; [apply Hall, Hin|exact Hf].
Qed.

Lemma live_after_update jobs jobs' now kw x :
  update_job_doc jobs jid now kw = Some jobs' ->
  x <> jid \/ k_status kw = None \/ k_status kw = Some Running ->
  live (status_in jobs x) -> live (status_in jobs' x).
Proof.
  intros Hu Hx Hl.
  destruct (update_doc_status _ _ _ _ _ x Hu) as [E|[[_ E]|[-> (s0 & E0 & E)]]].
  - rewrite E. split; discriminate.
  - now rewrite E.
  - rewrite E. destruct Hx as [Hx|[-> | ->]]; [congruence| |].
    + now rewrite <- E0.
    + split; discriminate.
Qed.

Lemma forward_after_update jobs jobs' now kw :
  update_job_doc jobs jid now kw = Some jobs' ->
  live (status_in jobs jid) -> k_status kw <> Some Queued ->
  forward (status_in jobs j) (status_in jobs' j).
Proof.
  intros Hu Hl Hq.
  destruct (update_doc_status _ _ _ _ _ j Hu) as [E|[[_ E]|[-> (s0 & E0 & E)]]].
  - rewrite E. apply forward_none.
  - rewrite E. apply forward_refl.
  - rewrite E. destruct (k_status kw) as [s|] eqn:Ek.
    + apply forward_live; [exact Hl|congruence|congruence].
    + rewrite E0. apply forward_refl.
Qed.

Lemma update_keeps kw :
  k_status kw = None \/ k_status kw = Some Running ->
  keeps j jid others (update_job env jid kw).
Proof.
  intros Hk w (Ho & Hl & Hothers). rewrite update_job_run.
  destruct (update_job_doc (_load_jobs w) jid (utc_now env (calls w)) kw)
    as [jobs'|] eqn:Eu; cbn [snd].
  - split; [|split].
    + apply ordered_write; [exact Ho|].
      eapply forward_after_update; [exact Eu|exact Hl|].
      destruct Hk as [-> | ->]; discriminate.
    + unfold live_at in *. eapply live_after_update; eauto.
    + rewrite Forall_forall in *. intros x Hx. unfold live_at in *.
      eapply live_after_update; [exact Eu| |now apply Hothers].
      left. intros ->. contradiction.
  - exact (conj Ho (conj Hl Hothers)).
Qed.

Lemma update_closes kw :
  k_status kw <> Some Queued ->
  closes j jid others (update_job env jid kw).
Proof.
  intros Hk w (Ho & Hl & Hothers). split; [|apply update_job_total].
  rewrite update_job_run.
  destruct (update_job_doc (_load_jobs w) jid (utc_now env (calls w)) kw)
    as [jobs'|] eqn:Eu; cbn [snd].
  - split.
    + apply ordered_write; [exact Ho|].
      eapply forward_after_update; eassumption.
    + rewrite Forall_forall in *. intros x Hx. unfold live_at in *.
      eapply live_after_update; [exact Eu| |now apply Hothers].
      left. intros ->. contradiction.
  - exact (conj Ho Hothers).
Qed.

(** *** Composition *)

Lemma keeps_bind {A B} (m : M A) (k : A -> M B) :
  keeps j jid others m -> (forall a, keeps j jid others (k a)) ->
  keeps j jid others (bind m k).
Proof.
  intros Hm Hk w Hw. unfold bind. specialize (Hm w Hw).
  destruct (m w) as [[a|msg] w']; cbn [snd] in *; [now apply Hk|exact Hm].
Qed.

Lemma safe_bind {A B} (m : M A) (k : A -> M B) :
  keeps j jid others m -> (forall a, safe j jid others (k a)) ->
  safe j jid others (bind m k).
Proof.
  intros Hm Hk w Hw. unfold bind. specialize (Hm w Hw).
  destruct (m w) as [[a|msg] w']; cbn [snd] in *; [now apply Hk|exact Hm].
Qed.

Lemma closes_safe {A} (m : M A) : closes j jid others m -> safe j jid others m.
Proof.
  intros Hm w Hw. destruct (Hm w Hw) as [Hc (a & Ha)].
  destruct (m w) as [[a'|msg] w']; cbn [fst snd] in *; [exact Hc|discriminate].
Qed.

Lemma keeps_safe {A} (m : M A) : keeps j jid others m -> safe j jid others m.
Proof.
  intros Hm w Hw. specialize (Hm w Hw).
  destruct (m w) as [[a|msg] w']; cbn [snd] in *; [now apply open_closed|exact Hm].
Qed.

Lemma safe_then_quiet {A B} (m : M A) (k : A -> M B) :
  safe j jid others m -> (forall a, untouched (k a)) -> (forall a, total (k a)) ->
  safe j jid others (bind m k).
Proof.
  intros Hm Hu Ht w Hw. unfold bind. specialize (Hm w Hw).
  destruct (m w) as [[a|msg] w']; [|exact Hm].
  destruct (Ht a w') as [b Hb].
  pose proof (untouched_closed (k a) w' (Hu a) Hm) as Hc.
  destruct (k a w') as [[b'|msg] w'']; cbn [fst snd] in *; [exact Hc|discriminate].
Qed.

Lemma try_closes {A} (m : M A) (h : string -> M A) :
  safe j jid others m -> (forall e, closes j jid others (h e)) ->
  closes j jid others (try_except m h).
Proof.
  intros Hm Hh w Hw. unfold try_except. specialize (Hm w Hw).
  destruct (m w) as [[a|msg] w']; cbn [fst snd].
  - split; [exact Hm|eauto].
  - now apply Hh.
Qed.
End LifecycleFacts.

(** *** Computations that leave the jobs file alone *)

Lemma untouched_ret {A} (a : A) : untouched (ret a).
Proof. intros w. now split. Qed.

Lemma untouched_raise {A} msg : untouched (@raise A msg).
Proof. intros w. now split. Qed.

Lemma untouched_read {A} (f : nat -> A) : untouched (read f).
Proof. intros w. now split. Qed.

Lemma untouched_ask {A} (f : nat -> result A) : untouched (ask f).
Proof. intros w. now split. Qed.

Lemma untouched_gets {A} (f : World -> A) : untouched (gets f).
Proof. intros w. now split. Qed.

Lemma untouched_need_key {A} k (v : option A) : untouched (need_key k v).
Proof. destruct v; [apply untouched_ret|apply untouched_raise]. Qed.

Lemma untouched_modify (f : World -> World) :
  (forall w, jobs_file (f w) = jobs_file w /\ jobs_before (f w) = jobs_before w) ->
  untouched (modify f).
Proof. intros H w. apply H. Qed.

Lemma untouched_bind {A B} (m : M A) (k : A -> M B) :
  untouched m -> (forall a, untouched (k a)) -> untouched (bind m k).
Proof.
  intros Hm Hk w. unfold bind. destruct (Hm w) as [E1 E2].
  destruct (m w) as [[a|msg] w']; cbn [snd] in *.
  - destruct (Hk a w') as [E3 E4]. now rewrite E3, E4.
  - now split.
Qed.

Lemma untouched_try {A} (m : M A) (h : string -> M A) :
  untouched m -> (forall e, untouched (h e)) -> untouched (try_except m h).
Proof.
  intros Hm Hh w. unfold try_except. destruct (Hm w) as [E1 E2].
  destruct (m w) as [[a|msg] w']; cbn [snd] in *.
  - now split.
  - destruct (Hh msg w') as [E3 E4]. now rewrite E3, E4.
Qed.

(** Closes a goal [untouched m] for a computation built from the
    primitives above. *)
Ltac quiet :=
  repeat first
    [ apply untouched_ret | apply untouched_raise | apply untouched_read
    | apply untouched_ask | apply untouched_gets | apply untouched_need_key
    | apply untouched_modify; intros; split; reflexivity
    | assumption
    | apply untouched_bind; [|intros]
    | apply untouched_try; [|intros]
    | match goal with
      | |- untouched (match ?x with _ => _ end) => destruct x
      end ].

Section Quiet.
Variable env : Env.

Lemma untouched_log_production : untouched (log_production env).
Proof. unfold log_production. quiet. Qed.

Lemma untouched_save_episode entry : untouched (save_episode entry).
Proof. unfold save_episode. quiet. Qed.

Lemma untouched_generate_grounded_script topic depth brief :
  untouched (generate_grounded_script env topic depth brief).
Proof. unfold generate_grounded_script. quiet. Qed.

Lemma untouched_build_trailer_script topic :
  untouched (build_trailer_script topic).
Proof. unfold build_trailer_script. quiet. Qed.

Lemma untouched_get_elevenlabs_client : untouched (get_elevenlabs_client env).
Proof. unfold get_elevenlabs_client. quiet. Qed.

Lemma untouched_resolve_voice_call q : untouched (resolve_voice_call env q).
Proof. unfold resolve_voice_call. quiet. Qed.

Lemma untouched_synthesize script a b : untouched (synthesize env script a b).
Proof. induction script as [|seg rest IH]; simpl; quiet. Qed.

Lemma untouched_generate_episode_audio script a b :
  untouched (generate_episode_audio env script a b).
Proof.
  unfold generate_episode_audio.
  apply untouched_bind; [quiet|intros; apply untouched_synthesize].
Qed.

Lemma untouched_count_completed sid : untouched (count_completed env sid).
Proof. unfold count_completed. quiet. Qed.

(** The counter update returns when the file system never refuses. *)
Lemma total_count_completed sid :
  (forall n, filesystem env n = Ok tt) -> total (count_completed env sid).
Proof.
  intros Hfs w. unfold count_completed, bind, gets, modify, ask, ret. cbn.
  destruct (find_series sid (load_series w)); cbn; [rewrite Hfs|];
    exists tt; reflexivity.
Qed.

Lemma untouched_read_context topics : untouched (read_context topics).
Proof. induction topics as [|t rest IH]; simpl; quiet. Qed.

Lemma untouched_chat_to_topic message topics :
  untouched (chat_to_topic env message topics).
Proof.
  unfold chat_to_topic.
  apply untouched_bind; [apply untouched_read_context|intros; quiet].
Qed.
End Quiet.

(** *** The workers *)

Ltac hush :=
  repeat first
    [ apply untouched_log_production | apply untouched_save_episode
    | apply untouched_generate_grounded_script
    | apply untouched_build_trailer_script
    | apply untouched_get_elevenlabs_client
    | apply untouched_resolve_voice_call
    | apply untouched_generate_episode_audio
    | apply untouched_chat_to_topic
    | apply untouched_count_completed
    | apply untouched_ret | apply untouched_raise | apply untouched_read
    | apply untouched_ask | apply untouched_gets | apply untouched_need_key
    | apply untouched_bind; [|intros]
    | apply untouched_try; [|intros]
    | match goal with
      | |- untouched (match ?x with _ => _ end) => destruct x
      end ].

(** Walks through the body of a worker: updates that keep the job open,
    calls that leave the registry alone, and the update that closes. *)
Ltac lifecycle :=
  lazy zeta;
  repeat first
    [ solve [apply update_keeps;
             [assumption | (left; reflexivity) || (right; reflexivity)]]
    | solve [apply closes_safe; apply update_closes; [assumption|discriminate]]
    | solve [apply untouched_keeps; hush]
    | solve [apply keeps_safe, untouched_keeps; hush]
    | solve [apply safe_then_quiet;
             [ apply closes_safe, update_closes; [assumption|discriminate]
             | intros; apply untouched_count_completed
             | intros; assumption ]]
    | match goal with
      | |- safe _ _ _ (bind _ _) => apply safe_bind; [|intros; lazy zeta]
      | |- keeps _ _ _ (bind _ _) => apply keeps_bind; [|intros; lazy zeta]
      | |- safe _ _ _ (if ?b then _ else _) => destruct b
      | |- keeps _ _ _ (if ?b then _ else _) => destruct b
      end ].

Section WorkersLifecycle.
Variables (env : Env) (j : string).

Lemma run_generate_closes job_id topic depth va vm trailer brief :
  closes j job_id [] (_run_generate env job_id topic depth va vm trailer brief).
Proof.
  assert (Hfresh : ~ In job_id []) by (simpl; tauto).
  unfold _run_generate. apply try_closes.
  - lifecycle.
  - intros e. apply update_closes; [assumption|discriminate].
Qed.

Lemma run_chat_closes job_id message topics va vm :
  closes j job_id [] (_run_chat env job_id message topics va vm).
Proof.
  assert (Hfresh : ~ In job_id []) by (simpl; tauto).
  unfold _run_chat. apply try_closes.
  - lifecycle.
  - intros e. apply update_closes; [assumption|discriminate].
Qed.
End WorkersLifecycle.

Section SeriesLifecycle.
Variables (env : Env) (j : string).

Lemma produce_episode_safe sid entry total_eps ep_num job_id topic va vm others :
  total (count_completed env sid) ->
  ~ In job_id others ->
  safe j job_id others
       (produce_episode env sid entry total_eps ep_num job_id topic va vm).
Proof.
  intros Hcounter Hfresh. unfold produce_episode. lifecycle.
Qed.

Lemma nth_error_skipn_cons {A} (l : list A) i x :
  nth_error l i = Some x -> skipn i l = x :: skipn (S i) l.
Proof.
  revert i. induction l as [|y l IH]; intros [|i]; simpl; try discriminate.
  - now intros [= ->].
  - intros H. now rewrite (IH i H).
Qed.

Lemma nodup_skipn {A} (l : list A) i : NoDup l -> NoDup (skipn i l).
Proof.
  revert i. induction l as [|y l IH]; intros [|i] H; simpl; auto.
  inversion H; subst. now apply IH.
Qed.

Lemma series_loop_ordered sid entry total_eps va vm episodes :
  total (count_completed env sid) ->
  NoDup (s_job_ids entry) ->
  forall i w,
    ordered j w ->
    Forall (live_at w) (skipn i (s_job_ids entry)) ->
    ordered j (snd (series_loop env sid entry total_eps va vm i episodes w)).
Proof.
  intros Hcounter Hnd.
  induction episodes as [|topic rest IH]; intros i w Ho Hlive.
  - exact Ho.
  - cbn [series_loop]. unfold bind at 1.
    destruct (nth_error (s_job_ids entry) i) as [job_id|] eqn:En;
      [|exact Ho].
    unfold ret at 1. cbv beta iota. unfold bind at 1.
    pose proof (nth_error_skipn_cons _ _ _ En) as Es.
    assert (Hfresh : ~ In job_id (skipn (S i) (s_job_ids entry))).
    { pose proof (nodup_skipn _ i Hnd) as H. rewrite Es in H.
      now inversion H. }
    assert (Hopen : open_job j job_id (skipn (S i) (s_job_ids entry)) w).
    { rewrite Es in Hlive. apply Forall_cons_iff in Hlive.
      destruct Hlive as [H1 H2]. exact (conj Ho (conj H1 H2)). }
    assert (Hhandler : forall e,
               closes j job_id (skipn (S i) (s_job_ids entry))
                 (update_job env job_id
                    (mkFields (Some Error) None None (Some e)))).
    { intros e. apply update_closes; [assumption|discriminate]. }
    destruct (try_closes j job_id _
                (produce_episode env sid entry total_eps (i + 1) job_id
                   topic va vm)
                (fun e => update_job env job_id
                            (mkFields (Some Error) None None (Some e)))
                (produce_episode_safe _ _ _ _ _ _ _ _ _ Hcounter Hfresh)
                Hhandler w Hopen) as [[Ho' Hl'] (a & Ha)].
    destruct (try_except _ _ w) as [[u|msg] w']; cbn [fst snd] in *;
      [|discriminate].
    now apply IH.
Qed.

Lemma run_series_ordered sid episodes va vm w :
  total (count_completed env sid) ->
  (forall entry,
      find_series sid (load_series w) = Some entry ->
      NoDup (s_job_ids entry) /\ Forall (live_at w) (s_job_ids entry)) ->
  ordered j w ->
  ordered j (snd (_run_series env sid episodes va vm w)).
Proof.
  intros Hcounter Hentry Ho. unfold _run_series, bind, gets. cbn [fst snd].
  destruct (find_series sid (load_series w)) as [entry|] eqn:Ef; [|exact Ho].
  destruct (Hentry entry eq_refl) as [Hnd Hlive].
  now apply series_loop_ordered.
Qed.
End SeriesLifecycle.

(** *** From the invariant to the history *)

Lemma strongly_sorted_snoc {A} (R : A -> A -> Prop) l x :
  StronglySorted R l -> Forall (fun y => R y x) l -> StronglySorted R (l ++ [x]).
Proof.
  induction 1 as [|y l Hs IH Hy]; intros Hx; simpl.
  - repeat constructor.
  - inversion Hx; subst. constructor; [now apply IH|].
    apply Forall_app. split; [assumption|now constructor].
Qed.

Lemma strongly_sorted_rev {A} (R : A -> A -> Prop) l :
  StronglySorted R l -> StronglySorted (fun a b => R b a) (rev l).
Proof.
  induction 1 as [|y l Hs IH Hy]; simpl; [constructor|].
  apply strongly_sorted_snoc; [exact IH|].
  apply Forall_rev. exact Hy.
Qed.

Lemma strongly_sorted_nth {A} (R : A -> A -> Prop) l :
  StronglySorted R l ->
  forall i k a b, i < k -> nth_error l i = Some a -> nth_error l k = Some b ->
                  R a b.
Proof.
  induction 1 as [|y l Hs IH Hy]; intros i k a b Hik Ha Hb.
  - destruct i; discriminate.
  - destruct k as [|k]; [lia|]. simpl in Hb.
    destruct i as [|i]; simpl in Ha.
    + injection Ha as <-. rewrite Forall_forall in Hy.
      apply Hy. eapply nth_error_In; eassumption.
    + eapply IH; [|eassumption|eassumption]. lia.
Qed.

Lemma ordered_monotone j w : ordered j w -> monotone_history j w.
Proof.
  intros Ho i k a b Hik Ha Hb.
  assert (Hf : forward (status_in a j) (status_in b j)).
  { apply strongly_sorted_rev in Ho.
    exact (strongly_sorted_nth _ _ Ho i k a b Hik Ha Hb). }
  split; [exact Hf|]. intros Ht. now apply forward_terminal.
Qed.

Lemma ordered_start j w : jobs_before w = [] -> ordered j w.
Proof.
  intros H. unfold ordered. rewrite H. repeat constructor.
Qed.

(** Where the statuses do move forward only.  Started on a job that is
    not yet [done] or [error] (a job as [create_job] leaves it),
    [_run_generate] and [_run_chat] move the status of every job of the
    registry forward only, along queued, running, then done or error: in
    the history of the jobs file a status that is [done] or [error] never
    changes again while the job is retained.  [_run_series] does so on
    the jobs of the series entry, pairwise distinct, when the counter
    update after an episode never raises. *)
Theorem status_forward_only (env : Env) (w : World) (j : string)
    (Hstart : jobs_before w = []) :
  (forall job_id topic depth va vm trailer brief,
      live (status_in (_load_jobs w) job_id) ->
      monotone_history j
        (exec (_run_generate env job_id topic depth va vm trailer brief) w)) /\
  (forall job_id message topics va vm,
      live (status_in (_load_jobs w) job_id) ->
      monotone_history j (exec (_run_chat env job_id message topics va vm) w)) /\
  (forall sid episodes va vm,
      total (count_completed env sid) ->
      (forall entry,
          find_series sid (load_series w) = Some entry ->
          NoDup (s_job_ids entry) /\
          Forall (fun x => live (status_in (_load_jobs w) x)) (s_job_ids entry)) ->
      monotone_history j (exec (_run_series env sid episodes va vm) w)).
Proof.
  pose proof (ordered_start j w Hstart) as Ho.
  split; [|split].
  - intros job_id topic depth va vm trailer brief Hl.
    apply ordered_monotone.
    apply (run_generate_closes env j job_id topic depth va vm trailer brief w).
    split; [exact Ho|]. split; [exact Hl|constructor].
  - intros job_id message topics va vm Hl.
    apply ordered_monotone.
    apply (run_chat_closes env j job_id message topics va vm w).
    split; [exact Ho|]. split; [exact Hl|constructor].
  - intros sid episodes va vm Hcounter Hentry.
    apply ordered_monotone. now apply run_series_ordered.
Qed.

(* ------------------------------------------------------------------ *)
(** ** A series with one failing episode                                *)
(* ------------------------------------------------------------------ *)

Lemma bind_run {A B} (m : M A) (k : A -> M B) w a w1 :
  m w = (Ok a, w1) -> bind m k w = k a w1.
Proof. intros H. unfold bind. now rewrite H. Qed.



Lemma try_run {A} (m : M A) (h : string -> M A) w a w1 :
  m w = (Ok a, w1) -> try_except m h w = (Ok a, w1).
Proof. intros H. unfold try_except. now rewrite H. Qed.



Lemma calm_read {A} (f : nat -> A) : calm (read f).
Proof. intros w. now exists (f (calls w)), (tick w). Qed.


Lemma length_dict_set_present {V} (d : dict V) k v r :
  dict_get d k = Some r -> length (dict_set d k v) = length d.
Proof.
  intros H. rewrite <- !length_keys.
  rewrite keys_set_present; [reflexivity|]. eapply dict_get_in_keys; eassumption.
Qed.

Lemma length_dict_set_le {V} (d : dict V) k v :
  length (dict_set d k v) <= S (length d).
Proof.
  rewrite <- !length_keys.
  destruct (in_dec String.string_dec k (keys d)).
  - rewrite keys_set_present by assumption. lia.
  - rewrite keys_set_absent by assumption. rewrite length_app. simpl. lia.
Qed.



Lemma find_modify_series sid f l s :
  find_series sid l = Some s -> s_id (f s) = s_id s ->
  find_series sid (modify_series sid f l) = Some (f s).
Proof.
  unfold find_series. induction l as [|x l IH]; simpl; [discriminate|].
  destruct (String.eqb (s_id x) sid) eqn:E.
  - intros [= ->] Hid. simpl. now rewrite Hid, E.
  - intros H Hid. simpl. rewrite E. now apply IH.
Qed.



Section Scenario.
Variables (env : Env) (catalog : list Voice) (va vm ida idm : string).
Hypothesis Hclient : forall n, elevenlabs_client env n = Ok tt.
Hypothesis Hvoices : forall n, voices_get_all env n = Ok catalog.
Hypothesis Hva : resolve_voice (str_lower env) catalog va = Some ida.
Hypothesis Hvm : resolve_voice (str_lower env) catalog vm = Some idm.
Hypothesis Hida : ida <> EmptyString.
Hypothesis Hidm : idm <> EmptyString.
Hypothesis Htts : forall n vid words, exists bytes,
    text_to_speech env n vid words = Ok bytes.
Hypothesis Hfs : forall n, filesystem env n = Ok tt.









End Scenario.





Local Open Scope string_scope.


Example series_run_statuses :
  let w' := exec (_run_create_series studio_env "s1" (inr "An arc on data moats")
                    3 "Alex" "Morgan") studio_world in
  map (status_in (_load_jobs w')) ["1"; "4"; "7"]
  = [Some Done; Some Error; Some Done] /\
  map s_completed (load_series w') = [2] /\
  map s_status (load_series w') = [SDone] /\
  length (load_episodes w') = 2.
Proof. vm_compute. repeat split. Qed.

Lemma monotone_never_reverts j w i k :
  monotone_history j w -> i < k ->
  nth_error (map (fun jobs => status_in jobs j) (registry_history w)) i
  = Some (Some Done) ->
  nth_error (map (fun jobs => status_in jobs j) (registry_history w)) k
  = Some (Some Error) ->
  False.
Proof.
  intros Hm Hik Hi Hk. rewrite nth_error_map in Hi, Hk.
  destruct (nth_error (registry_history w) i) as [a|] eqn:Ea; [|discriminate].
  destruct (nth_error (registry_history w) k) as [b|] eqn:Eb; [|discriminate].
  cbn in Hi, Hk. injection Hi as Hi. injection Hk as Hk.
  destruct (Hm i k a b Hik Ea Eb) as [_ Hterm].
  destruct (Hterm (or_introl Hi)) as [E|E]; rewrite E in Hk; congruence.
Qed.

(** C1.  In [_run_series] a job that is [done] can still become
    [error].  The counter update ([load_series], [save_series]) stands
    inside the [try] of the episode, after [update_job(status="done")]:
    when its write of the series file raises, the handler sets the same
    job to [error].  In a series of one episode whose every collaborator
    answers, with the disk full at that one write, the history of the
    job is queued, running, running, done, error: the job ends [error]
    with the message of the exception although its episode was saved,
    and the series counts no episode.  The job was started as
    [create_job] leaves it.  ([_run_generate] and [_run_chat] end their
    [try] with the update to [done].) *)
Theorem series_counter_failure_reverts_done :
  let w' := exec (_run_series full_disk_env "s1" [one_episode]
                    "Alex" "Morgan") one_episode_world in
  map (fun jobs => status_in jobs "a") (registry_history w')
  = [Some Queued; Some Running; Some Running; Some Done; Some Error] /\
  ~ monotone_history "a" w' /\
  (exists r, get_job w' "a" = Some r /\ j_status r = Error /\
             j_error r = Some "[Errno 28] No space left on device") /\
  length (load_episodes w') = 1 /\
  map s_completed (load_series w') = [0] /\
  live (status_in (_load_jobs one_episode_world) "a") /\
  jobs_before one_episode_world = [].
Proof.
  intros w'.
  assert (Hh : map (fun jobs => status_in jobs "a") (registry_history w')
               = [Some Queued; Some Running; Some Running; Some Done;
                  Some Error])
    by (vm_compute; reflexivity).
  split; [exact Hh|]. split.
  - intros Hm.
    apply (monotone_never_reverts "a" w' 3 4 Hm); [lia| |];
      rewrite Hh; reflexivity.
  - split; [eexists; split; [vm_compute; reflexivity|split; reflexivity]|].
    split; [vm_compute; reflexivity|]. split; [vm_compute; reflexivity|].
    split; [split; discriminate|reflexivity].
Qed.

Lemma status_forward_only_witness :
  monotone_history "a"
    (exec (_run_generate studio_env "a"
             (sample_episode 1 "Overview" (Some "Why now."))
             "standard" "Alex" "Morgan" false "") studio_world).
Proof.
  apply (proj1 (status_forward_only studio_env studio_world "a" eq_refl)).
  split; discriminate.
Defined.

Example run_generate_history :
  map (fun jobs => status_in jobs "a")
      (registry_history
         (exec (_run_generate studio_env "a"
                  (sample_episode 1 "Overview" (Some "Why now."))
                  "standard" "Alex" "Morgan" false "") studio_world))
  = [Some Queued; Some Running; Some Running; Some Running; Some Done].
Proof. vm_compute. reflexivity. Qed.

Example run_generate_voice_not_found :
  map (fun jobs => status_in jobs "a")
      (registry_history
         (exec (_run_generate studio_env "a"
                  (sample_episode 1 "Overview" (Some "Why now."))
                  "standard" "Nobody" "Morgan" false "") studio_world))
  = [Some Queued; Some Running; Some Error].
Proof. vm_compute. reflexivity. Qed.

Local Close Scope string_scope.

(* ------------------------------------------------------------------ *)
(** ** Writing the engagement log                                       *)
(* ------------------------------------------------------------------ *)

Lemma save_engagement_event_last_n now ty ttl ep pct f :
  save_engagement_event now ty ttl ep pct f
  = last_n 2000 (load_logged f ++ [new_event now ty ttl ep pct]).
Proof.
  unfold save_engagement_event.
  destruct (Nat.ltb_spec 2000
              (length (load_logged f ++ [new_event now ty ttl ep pct])));
    [reflexivity|].
  symmetry. now apply last_n_all.
Qed.

Lemma last_n_snoc {A} n (l : list A) x :
  last_n (S n) (l ++ [x]) = last_n n l ++ [x].
Proof.
  unfold last_n. rewrite length_app. simpl.
  replace (length l + 1 - S n) with (length l - n) by lia.
  rewrite skipn_app.
  replace (length l - n - length l) with 0 by lia. reflexivity.
Qed.

Lemma length_last_n {A} n (l : list A) : length (last_n n l) = Nat.min (length l) n.
Proof. unfold last_n. rewrite length_skipn. lia. Qed.

Lemma forall_last_n {A} (P : A -> Prop) n (l : list A) :
  Forall P l -> Forall P (last_n n l).
Proof.
  rewrite !Forall_forall. intros H x Hx. apply H. now apply last_n_in in Hx.
Qed.

(** X1. [save_engagement_event] appends the event and keeps the most
    recent 2000 entries: the new event is always the last one, nothing is
    dropped below the cap, and at the cap the oldest entries go first.  A
    missing or unreadable log counts as empty. *)
Theorem engagement_log_capped (now ty ttl : string) (ep : option string)
    (pct : option Z) (f : FileState (list LoggedEvent)) :
  let event := new_event now ty ttl ep pct in
  let before := load_logged f in
  let after := save_engagement_event now ty ttl ep pct f in
  after = last_n 1999 before ++ [event] /\
  length after = Nat.min (S (length before)) 2000 /\
  (length before < 2000 -> after = before ++ [event]) /\
  (2000 <= length before ->
   after = skipn (length before - 1999) before ++ [event]) /\
  (f = Absent \/ f = Unparsable -> after = [event]).
Proof.
  intros event before after.
  assert (E : after = last_n 1999 before ++ [event]).
  { unfold after. rewrite save_engagement_event_last_n. apply last_n_snoc. }
  split; [exact E|]. split; [|split; [|split]].
  - rewrite E, length_app, length_last_n. simpl. lia.
  - intros H. rewrite E, last_n_all by lia. reflexivity.
  - intros _. exact E.
  - intros [-> | ->]; reflexivity.
Qed.

(** X2. [POST /api/engagement] refuses a request without event type or
    topic title with status 400 and leaves the log file as it is;
    otherwise it answers 200 and the log ends with the event of that type
    and title.  A log in which every event has a type and a title stays
    such a log, and after an accepted request it holds at most 2000
    events. *)
Theorem engagement_api_guard (now : string) (data : EngagementRequest)
    (f : FileState (list LoggedEvent)) :
  let ty := or_empty (rq_event_type data) in
  let ttl := or_empty (rq_topic_title data) in
  let status := fst (api_engagement_log now data f) in
  let f' := snd (api_engagement_log now data f) in
  (ty = EmptyString \/ ttl = EmptyString -> status = 400 /\ f' = f) /\
  (ty <> EmptyString -> ttl <> EmptyString ->
   status = 200 /\
   length (load_logged f') <= 2000 /\
   exists before,
     f' = Parsed (before ++ [new_event now ty ttl (rq_episode_id data)
                               (rq_pct data)])) /\
  (Forall named (load_logged f) -> Forall named (load_logged f')).
Proof.
  intros ty ttl status f'. unfold status, f', api_engagement_log.
  fold ty ttl.
  destruct (String.eqb_spec ty EmptyString) as [Ety|Ety];
    [|destruct (String.eqb_spec ttl EmptyString) as [Ettl|Ettl]];
    cbn [orb fst snd].
  - split; [intros _; now split|]. split; [intros H; contradiction|tauto].
  - split; [intros _; now split|]. split; [intros _ H; contradiction|tauto].
  - split; [intros [H|H]; contradiction|]. split.
    + intros _ _. split; [reflexivity|]. cbn [load_logged].
      rewrite save_engagement_event_last_n. split.
      * rewrite length_last_n. lia.
      * exists (last_n 1999 (load_logged f)). f_equal. apply last_n_snoc.
    + intros Hall. cbn [load_logged]. rewrite save_engagement_event_last_n.
      apply forall_last_n. apply Forall_app. split; [exact Hall|].
      constructor; [|constructor]. split; assumption.
Qed.

Example engagement_log_drops_oldest :
  let after := save_engagement_event "later" "dismissed" "U" None None
                 (Parsed (sample_log 2000)) in
  length after = 2000 /\
  map le_topic_title (skipn 1998 after) = ["T"; "U"]%string.
Proof. vm_compute. split; reflexivity. Qed.

(* ------------------------------------------------------------------ *)
(** ** The registry between operations                                  *)
(* ------------------------------------------------------------------ *)

Lemma registry_ok_save jobs : NoDup (keys jobs) -> registry_ok (_save_jobs jobs).
Proof.
  intros Hnd. split; [now apply nodup_keys_save|].
  rewrite save_jobs_length by assumption. lia.
Qed.

Lemma string_ltb_not_leb a b : String.ltb a b = true -> String.leb b a = false.
Proof.
  unfold String.ltb, String.leb. rewrite (String.compare_antisym b a).
  destruct (String.compare a b); simpl; congruence.
Qed.

Lemma dict_get_head_exists {V} (d : dict V) :
  d <> [] -> exists k v, dict_get d k = Some v.
Proof.
  destruct d as [|[k v] d]; [congruence|]. intros _.
  exists k, v. simpl. now rewrite String.eqb_refl.
Qed.

(** X3. Every operation that persists the registry leaves it with
    pairwise distinct ids and at most 200 records, whatever its size
    before: creation, update and queue clearing all end in the retention
    step. *)
Theorem registry_bound_kept (jobs : dict Job) (Hnd : NoDup (keys jobs)) :
  (forall id now1 now2 ty sid sep,
      registry_ok (create_job_doc jobs id now1 now2 ty sid sep)) /\
  (forall id now kw jobs',
      update_job_doc jobs id now kw = Some jobs' -> registry_ok jobs') /\
  registry_ok (fst (clear_queue jobs)).
Proof.
  split; [|split].
  - intros. unfold create_job_doc. now apply registry_ok_save, nodup_keys_set.
  - intros id now kw jobs'. unfold update_job_doc.
    destruct (dict_get jobs id); [|discriminate].
    intros [= <-]. now apply registry_ok_save, nodup_keys_set.
  - unfold clear_queue. cbn [fst]. apply registry_ok_save.
    now destruct (clear_fold_count (keys jobs) jobs 0 Hnd).
Qed.

Lemma registry_bound_kept_witness :
  registry_ok (create_job_doc (sample_registry 49 200)
                 "new" "z" "z" Generate None None).
Proof.
  assert (H : NoDup (keys (sample_registry 49 200))).
  { apply nodupb_sound. vm_compute. reflexivity. }
  exact (proj1 (registry_bound_kept (sample_registry 49 200) H)
           "new"%string "z"%string "z"%string Generate None None).
Defined.

(** X4. A job just created is found by [get_job] when the registry has
    room, and also in a full registry when its creation stamp is later
    than every other stored one.  But a job stamped earlier than all 200
    stored jobs is evicted by its own creation: [create_job] returns an id
    that is not in the registry. *)
Theorem created_job_lookup (jobs : dict Job) (id now1 now2 : string)
    (ty : JobType) (sid : option string) (sep : option Z)
    (Hnd : NoDup (keys jobs)) :
  let job := new_job id now1 now2 ty sid sep in
  let after := create_job_doc jobs id now1 now2 ty sid sep in
  (length jobs < 200 -> dict_get after id = Some job) /\
  ((forall k j, k <> id -> dict_get jobs k = Some j ->
                String.ltb (j_created_at j) now1 = true) ->
   dict_get after id = Some job) /\
  (length jobs = 200 -> dict_get jobs id = None ->
   (forall k j, dict_get jobs k = Some j ->
                String.ltb now1 (j_created_at j) = true) ->
   dict_get after id = None).
Proof.
  intros job after.
  set (all := dict_set jobs id job).
  assert (Hall : dict_get all id = Some job).
  { unfold all. rewrite dict_get_set. now rewrite String.eqb_refl. }
  assert (Hnd' : NoDup (keys all)) by now apply nodup_keys_set.
  assert (Hother : forall k, k <> id -> dict_get all k = dict_get jobs k).
  { intros k Hk. unfold all. rewrite dict_get_set.
    destruct (String.eqb_spec id k); [congruence|reflexivity]. }
  split; [|split].
  - intros Hlen. unfold after, create_job_doc. fold job all.
    rewrite save_jobs_small; [exact Hall|].
    pose proof (length_dict_set_le jobs id job). fold all in H. lia.
  - intros Hlater. unfold after, create_job_doc. fold job all.
    destruct (dict_get (_save_jobs all) id) as [r|] eqn:E.
    + apply save_jobs_get in E. congruence.
    + exfalso.
      destruct (Nat.le_gt_cases (length all) 200) as [Hs|Hs].
      { rewrite save_jobs_small in E by assumption. congruence. }
      assert (Hne : _save_jobs all <> []).
      { intros H0. pose proof (save_jobs_length all Hnd') as Hl.
        rewrite H0 in Hl. simpl in Hl. lia. }
      destruct (dict_get_head_exists _ Hne) as (k & j & Hk).
      pose proof (save_jobs_oldest all id job k j Hnd' Hall E Hk) as Hle.
      assert (Hkid : k <> id) by (intros ->; congruence).
      apply save_jobs_get in Hk. rewrite Hother in Hk by assumption.
      apply (Hlater k j Hkid) in Hk. apply string_ltb_not_leb in Hk.
      simpl in Hle. congruence.
  - intros Hlen Hfresh Hearlier. unfold after, create_job_doc. fold job all.
    destruct (dict_get (_save_jobs all) id) as [r|] eqn:E; [|reflexivity].
    exfalso.
    assert (Hlen' : length all = 201).
    { rewrite <- length_keys. unfold all. rewrite keys_set_absent.
      - rewrite length_app, length_keys. simpl. lia.
      - now apply dict_get_none. }
    pose proof (sorted_perm (created_key all) (keys all)) as Hp.
    pose proof (save_jobs_keys all Hnd' ltac:(lia)) as Hk.
    rewrite Hlen' in Hk. change (201 - 200) with 1 in Hk.
    destruct (sorted (created_key all) (keys all)) as [|v rest] eqn:Es.
    { apply Permutation_length in Hp. rewrite length_keys in Hp.
      simpl in Hp. lia. }
    simpl in Hk.
    assert (Hvnd : NoDup (v :: rest)).
    { eapply Permutation_NoDup; [apply Permutation_sym; exact Hp|exact Hnd']. }
    assert (Hvout : dict_get (_save_jobs all) v = None).
    { apply dict_get_none. intros Hin.
      apply (Permutation_in _ Hk) in Hin. now inversion Hvnd. }
    assert (Hvin : In v (keys all)).
    { eapply Permutation_in; [exact Hp|now left]. }
    destruct (dict_get all v) as [jv|] eqn:Ev.
    2:{ apply dict_get_none in Ev. contradiction. }
    assert (Hvid : v <> id) by (intros ->; congruence).
    pose proof (save_jobs_oldest all v jv id r Hnd' Ev Hvout E) as Hle.
    apply save_jobs_get in E. rewrite Hall in E. injection E as <-.
    rewrite Hother in Ev by assumption.
    apply Hearlier in Ev. apply string_ltb_not_leb in Ev.
    simpl in Hle. congruence.
Qed.

Lemma created_job_lookup_witness :
  dict_get (create_job_doc (sample_registry 49 200) "new" "!" "!" Generate None None)
           "new" = None.
Proof.
  assert (H : NoDup (keys (sample_registry 49 200))).
  { apply nodupb_sound. vm_compute. reflexivity. }
  apply (proj2 (proj2 (created_job_lookup (sample_registry 49 200)
                         "new"%string "!"%string "!"%string Generate None None H))).
  - vm_compute. reflexivity.
  - vm_compute. reflexivity.
  - intros k j Hk.
    assert (Hin : In (k, j) (sample_registry 49 200)).
    { clear -Hk. induction (sample_registry 49 200) as [|[k' j'] l IH];
        simpl in *; [discriminate|].
      destruct (String.eqb_spec k' k) as [->|]; [injection Hk as ->; now left|].
      right. now apply IH. }
    unfold sample_registry in Hin. apply in_map_iff in Hin.
    destruct Hin as (c & Hc & Hseq). apply in_seq in Hseq.
    unfold sample_job in Hc. injection Hc as _ <-. cbn [j_created_at].
    unfold String.ltb. simpl.
    rewrite ascii_compare_N.
    assert (Hlt : (N_of_ascii "!" < N_of_ascii (ascii_of_nat c))%N).
    { rewrite <- (N2Nat.id (N_of_ascii (ascii_of_nat c))).
      change (N.to_nat (N_of_ascii (ascii_of_nat c)))
        with (nat_of_ascii (ascii_of_nat c)).
      rewrite nat_ascii_embedding by lia. vm_compute N_of_ascii. lia. }
    apply N.compare_lt_iff in Hlt. now rewrite Hlt.
Defined.

(** X5. [update_job] never raises.  On an unknown id it writes nothing;
    on a known id (registry within its bound) it replaces that record by
    the merged one, in place: the ids of the registry and every other
    record stay as they are, and the record keeps its id, type, creation
    stamp and series linkage.  The series and episode files are not
    touched. *)
Theorem update_job_effect (env : Env) (w : World) (id : string) (kw : JobFields)
    (Hok : registry_ok (_load_jobs w)) :
  let w' := exec (update_job env id kw) w in
  eval (update_job env id kw) w = Ok tt /\
  (get_job w id = None ->
   jobs_file w' = jobs_file w /\ jobs_before w' = jobs_before w) /\
  (forall r, get_job w id = Some r ->
     let r' := merge_fields r (utc_now env (calls w)) kw in
     get_job w' id = Some r' /\
     keys (get_all_jobs w') = keys (get_all_jobs w) /\
     (forall k, k <> id -> get_job w' k = get_job w k) /\
     j_id r' = j_id r /\ j_type r' = j_type r /\
     j_created_at r' = j_created_at r /\
     j_series_id r' = j_series_id r /\ j_series_ep r' = j_series_ep r) /\
  series_file w' = series_file w /\ episodes_file w' = episodes_file w.
Proof.
  intros w'. destruct Hok as [Hnd Hlen].
  unfold w', exec, eval, get_job, get_all_jobs. rewrite update_job_run.
  unfold update_job_doc.
  destruct (dict_get (_load_jobs w) id) as [r|] eqn:Er; cbn [fst snd].
  - split; [reflexivity|]. split; [discriminate|]. split; [|now split].
    intros r0 [= <-].
    change (_load_jobs (write_jobs ?d _)) with d.
    rewrite save_jobs_small
      by (rewrite (length_dict_set_present _ _ _ r Er); exact Hlen).
    split; [|split; [|split]].
    + rewrite dict_get_set. now rewrite String.eqb_refl.
    + apply keys_set_present. eapply dict_get_in_keys; eassumption.
    + intros k Hk. rewrite dict_get_set.
      destruct (String.eqb_spec id k); [congruence|reflexivity].
    + repeat split.
  - split; [reflexivity|]. split; [now split|].
    split; [discriminate|now split].
Qed.

Lemma update_job_effect_witness :
  get_job (exec (update_job studio_env "a"
                   (mkFields (Some Running) None None None)) studio_world) "a"
  = Some (merge_fields (snd (sample_job Queued 97))
            "2024-01-01T00:00:00+00:00"
            (mkFields (Some Running) None None None)).
Proof.
  assert (Hok : registry_ok (_load_jobs studio_world)).
  { split; [apply nodupb_sound; reflexivity|simpl; lia]. }
  exact (proj1 (proj1 (proj2 (proj2
           (update_job_effect studio_env studio_world "a"%string
              (mkFields (Some Running) None None None) Hok)))
           (snd (sample_job Queued 97)) eq_refl)).
Defined.

(** *** The queue listing *)

Lemma insert_on_perm {A} (key : A -> string) x l :
  Permutation (insert_on key x l) (x :: l).
Proof.
  induction l as [|y l IH]; simpl; [reflexivity|].
  destruct (String.leb (key x) (key y)); [reflexivity|].
  rewrite IH. apply perm_swap.
Qed.

Lemma sort_on_perm {A} (key : A -> string) l : Permutation (sort_on key l) l.
Proof.
  induction l as [|x l IH]; simpl; [reflexivity|].
  rewrite insert_on_perm. now constructor.
Qed.

Lemma insert_on_sorted {A} (key : A -> string) x l :
  StronglySorted (fun a b => String.leb (key a) (key b) = true) l ->
  StronglySorted (fun a b => String.leb (key a) (key b) = true)
                 (insert_on key x l).
Proof.
  induction 1 as [|y l Hs IH Hy]; simpl.
  - repeat constructor.
  - destruct (String.leb (key x) (key y)) eqn:E.
    + constructor; [now constructor|].
      constructor; [exact E|].
      rewrite Forall_forall in *. intros z Hz.
      eapply string_leb_trans; [exact E|]. now apply Hy.
    + constructor; [exact IH|].
      rewrite Forall_forall in *. intros z Hz.
      apply (Permutation_in _ (insert_on_perm key x l)) in Hz.
      destruct Hz as [<-|Hz]; [|now apply Hy].
      destruct (String.leb_total (key x) (key y)) as [H|H]; [congruence|exact H].
Qed.

Lemma sort_on_sorted {A} (key : A -> string) l :
  StronglySorted (fun a b => String.leb (key a) (key b) = true) (sort_on key l).
Proof.
  induction l as [|x l IH]; simpl; [constructor|].
  now apply insert_on_sorted.
Qed.

Lemma insert_on_least {A} (key : A -> string) x l :
  (forall z, In z l -> String.leb (key x) (key z) = true) ->
  insert_on key x l = x :: l.
Proof.
  destruct l as [|y l]; simpl; [reflexivity|].
  intros H. now rewrite (H y) by now left.
Qed.

Lemma filter_insert_on {A} (key : A -> string) (p : A -> bool) x l :
  StronglySorted (fun a b => String.leb (key a) (key b) = true) l ->
  filter p (insert_on key x l)
  = if p x then insert_on key x (filter p l) else filter p l.
Proof.
  induction 1 as [|y l Hs IH Hy]; simpl.
  - now destruct (p x).
  - destruct (String.leb (key x) (key y)) eqn:E; simpl.
    + destruct (p x) eqn:Ex; [|reflexivity].
      destruct (p y) eqn:Ey.
      * simpl. now rewrite E.
      * symmetry. apply insert_on_least. intros z Hz.
        apply filter_In in Hz. destruct Hz as [Hz _].
        rewrite Forall_forall in Hy.
        eapply string_leb_trans; [exact E|now apply Hy].
    + rewrite IH. destruct (p y) eqn:Ey; destruct (p x) eqn:Ex;
        simpl; rewrite ?E; reflexivity.
Qed.

Lemma filter_sort_on {A} (key : A -> string) (p : A -> bool) l :
  filter p (sort_on key l) = sort_on key (filter p l).
Proof.
  induction l as [|x l IH]; simpl; [reflexivity|].
  rewrite filter_insert_on by apply sort_on_sorted.
  rewrite IH. now destruct (p x).
Qed.

Lemma nodup_dict_get_in {V} (d : dict V) k v :
  NoDup (keys d) -> In (k, v) d -> dict_get d k = Some v.
Proof.
  induction d as [|[k' v'] d IH]; simpl; [tauto|].
  intros Hnd [[= -> ->]|Hin].
  - now rewrite String.eqb_refl.
  - inversion Hnd as [|? ? Hk Hnd']; subst.
    destruct (String.eqb_spec k' k) as [->|_]; [|now apply IH].
    exfalso. apply Hk. change k with (fst (k, v)). now apply in_map.
Qed.

Lemma filter_twice {A} (f g : A -> bool) l :
  filter f (filter g l) = filter (fun x => g x && f x) l.
Proof.
  induction l as [|x l IH]; simpl; [reflexivity|].
  destruct (g x); simpl; [destruct (f x)|]; now rewrite IH.
Qed.

Lemma clear_fold_filter ks : forall d n,
  NoDup (keys d) ->
  fst (fold_left clear_step ks (d, n))
  = filter (fun e => negb (mem (fst e) ks && clearable (j_status (snd e)))) d.
Proof.
  induction ks as [|x ks IH]; intros d n Hnd; cbn [fold_left].
  - simpl. symmetry. apply forallb_filter_id.
    apply forallb_forall. reflexivity.
  - unfold clear_step at 2. cbn [fst snd].
    assert (Hmem : forall k, mem k (x :: ks) = String.eqb k x || mem k ks)
      by reflexivity.
    destruct (dict_get d x) as [jx|] eqn:Ex.
    + destruct (clearable (j_status jx)) eqn:Ec.
      * rewrite IH by now apply nodup_keys_del.
        unfold dict_del. rewrite filter_twice.
        apply filter_ext_in. intros [k v] He. cbn [fst snd]. rewrite Hmem.
        destruct (String.eqb_spec k x) as [->|]; [|reflexivity].
        rewrite (nodup_dict_get_in d x v Hnd He) in Ex. injection Ex as ->.
        now rewrite Ec.
      * rewrite IH by assumption. apply filter_ext_in. intros [k v] He.
        cbn [fst snd]. rewrite Hmem.
        destruct (String.eqb_spec k x) as [->|]; [|reflexivity].
        rewrite (nodup_dict_get_in d x v Hnd He) in Ex. injection Ex as ->.
        now rewrite Ec, !andb_false_r.
    + rewrite IH by assumption. apply filter_ext_in. intros [k v] He.
      cbn [fst snd]. rewrite Hmem.
      destruct (String.eqb_spec k x) as [->|]; [|reflexivity].
      rewrite (nodup_dict_get_in d x v Hnd He) in Ex. discriminate.
Qed.

Lemma map_snd_filter {K V} (f : V -> bool) (l : list (K * V)) :
  map snd (filter (fun e => f (snd e)) l) = filter f (map snd l).
Proof.
  induction l as [|e l IH]; simpl; [reflexivity|].
  destruct (f (snd e)); simpl; now rewrite IH.
Qed.

Lemma clear_queue_document jobs :
  registry_ok jobs ->
  fst (clear_queue jobs)
  = filter (fun e => negb (clearable (j_status (snd e)))) jobs.
Proof.
  intros [Hnd Hlen]. unfold clear_queue. cbn [fst].
  rewrite clear_fold_filter by assumption.
  assert (E : filter (fun e => negb (mem (fst e) (keys jobs)
                                     && clearable (j_status (snd e)))) jobs
              = filter (fun e => negb (clearable (j_status (snd e)))) jobs).
  { apply filter_ext_in. intros e He.
    assert (Hm : mem (fst e) (keys jobs) = true).
    { apply mem_true_iff. now apply in_map. }
    now rewrite Hm. }
  rewrite E. apply save_jobs_small.
  pose proof (filter_length_le (fun e => negb (clearable (j_status (snd e)))) jobs).
  lia.
Qed.

(** X6. The queue listing holds exactly the queued and running jobs,
    oldest creation stamp first.  After [clear_queue] the listing is the
    earlier one without its queued jobs: every running job is still
    listed, in the same order, and nothing else. *)
Theorem queue_listing_after_clear (jobs : dict Job) (Hok : registry_ok jobs) :
  let active := api_queue_status jobs in
  Permutation active (filter is_active (map snd jobs)) /\
  StronglySorted
    (fun a b => String.leb (j_created_at a) (j_created_at b) = true) active /\
  api_queue_status (fst (clear_queue jobs)) = filter is_running active.
Proof.
  intros active. split; [apply sort_on_perm|]. split; [apply sort_on_sorted|].
  unfold active, api_queue_status.
  rewrite clear_queue_document by assumption.
  rewrite (map_snd_filter (fun j => negb (clearable (j_status j)))).
  rewrite filter_sort_on, !filter_twice. f_equal.
  apply filter_ext. intros j. unfold is_active, is_running.
  now destruct (j_status j).
Qed.

Lemma queue_listing_after_clear_witness :
  map j_id (api_queue_status
              (fst (clear_queue [sample_job Queued 97; sample_job Running 98;
                                 sample_job Done 99; sample_job Error 100])))
  = map j_id (filter is_running
                (api_queue_status [sample_job Queued 97; sample_job Running 98;
                                   sample_job Done 99; sample_job Error 100])).
Proof.
  assert (Hok : registry_ok [sample_job Queued 97; sample_job Running 98;
                             sample_job Done 99; sample_job Error 100]).
  { split; [apply nodupb_sound; reflexivity|simpl; lia]. }
  exact (f_equal (map j_id)
           (proj2 (proj2 (queue_listing_after_clear _ Hok)))).
Defined.

(* ------------------------------------------------------------------ *)
(** ** Where the workers leave their jobs                               *)
(* ------------------------------------------------------------------ *)

Section RegistrySteps.
Variable R : dict Job -> dict Job -> Prop.
Variable allowed : string -> Prop.
Hypothesis R_refl : forall d, R d d.
Hypothesis R_trans : forall a b c, R a b -> R b c -> R a c.
Hypothesis R_update : forall jobs id now kw jobs',
    allowed id -> update_job_doc jobs id now kw = Some jobs' -> R jobs jobs'.

Lemma steps_untouched {A} (m : M A) : untouched m -> steps R m.
Proof.
  intros Hm w. destruct (Hm w) as [E _]. unfold _load_jobs. rewrite E.
  apply R_refl.
Qed.

Lemma steps_bind {A B} (m : M A) (k : A -> M B) :
  steps R m -> (forall a, steps R (k a)) -> steps R (bind m k).
Proof.
  intros Hm Hk w. unfold bind. specialize (Hm w).
  destruct (m w) as [[a|e] w1]; cbn [snd] in *; [|exact Hm].
  eapply R_trans; [exact Hm|apply Hk].
Qed.

Lemma steps_try {A} (m : M A) (h : string -> M A) :
  steps R m -> (forall e, steps R (h e)) -> steps R (try_except m h).
Proof.
  intros Hm Hh w. unfold try_except. specialize (Hm w).
  destruct (m w) as [[a|e] w1]; cbn [snd] in *; [exact Hm|].
  eapply R_trans; [exact Hm|apply Hh].
Qed.

Lemma steps_update env id kw : allowed id -> steps R (update_job env id kw).
Proof.
  intros Hid w. rewrite update_job_run.
  destruct (update_job_doc (_load_jobs w) id (utc_now env (calls w)) kw)
    as [jobs'|] eqn:E; cbn [snd].
  - change (_load_jobs (write_jobs jobs' (tick w))) with jobs'.
    eapply R_update; eassumption.
  - apply R_refl.
Qed.
End RegistrySteps.

(** Walks through a worker for a goal [steps R m]. *)
Ltac walk Hrefl Htrans Hupd :=
  lazy zeta;
  repeat first
    [ solve [apply (steps_update _ _ Hrefl Hupd); auto]
    | solve [apply (steps_untouched _ Hrefl); hush]
    | match goal with
      | |- steps _ (bind _ _) =>
          apply (steps_bind _ Htrans); [|intros; lazy zeta]
      | |- steps _ (try_except _ _) =>
          apply (steps_try _ Htrans); [|intros; lazy zeta]
      | |- steps _ (if ?b then _ else _) => destruct b
      | |- steps _ (match ?x with _ => _ end) => destruct x
      end ].

Section WorkerSteps.
Variable R : dict Job -> dict Job -> Prop.
Variable allowed : string -> Prop.
Hypothesis R_refl : forall d, R d d.
Hypothesis R_trans : forall a b c, R a b -> R b c -> R a c.
Hypothesis R_update : forall jobs id now kw jobs',
    allowed id -> update_job_doc jobs id now kw = Some jobs' -> R jobs jobs'.
Variable env : Env.

Lemma run_generate_steps jid topic depth va vm trailer brief :
  allowed jid ->
  steps R (_run_generate env jid topic depth va vm trailer brief).
Proof.
  intros Hid. unfold _run_generate. walk R_refl R_trans R_update.
Qed.

Lemma run_chat_steps jid message topics va vm :
  allowed jid -> steps R (_run_chat env jid message topics va vm).
Proof.
  intros Hid. unfold _run_chat. walk R_refl R_trans R_update.
Qed.

Lemma produce_episode_steps sid entry total_eps ep_num jid topic va vm :
  allowed jid ->
  steps R (produce_episode env sid entry total_eps ep_num jid topic va vm).
Proof.
  intros Hid. unfold produce_episode. walk R_refl R_trans R_update.
Qed.

Lemma series_loop_steps sid entry total_eps va vm episodes :
  (forall jid, In jid (s_job_ids entry) -> allowed jid) ->
  forall i, steps R (series_loop env sid entry total_eps va vm i episodes).
Proof.
  intros Hall. induction episodes as [|topic rest IH]; intros i.
  - apply (steps_untouched _ R_refl). apply untouched_ret.
  - cbn [series_loop].
    destruct (nth_error (s_job_ids entry) i) as [jid|] eqn:En.
    + apply nth_error_In in En. apply Hall in En.
      intros w. revert w.
      change (steps R
        (try_except
           (produce_episode env sid entry total_eps (i + 1) jid topic va vm)
           (fun e => update_job env jid
                       (mkFields (Some Error) None None (Some e))) ;;
         series_loop env sid entry total_eps va vm (S i) rest)%monad).
      apply (steps_bind _ R_trans); [|intros; apply IH].
      apply (steps_try _ R_trans).
      * apply produce_episode_steps, En.
      * intros e. apply (steps_update _ _ R_refl R_update), En.
    + intros w. cbn. apply R_refl.
Qed.

Lemma run_series_steps sid episodes va vm :
  (forall jid, allowed jid) ->
  steps R (_run_series env sid episodes va vm).
Proof.
  intros Hall. unfold _run_series.
  apply (steps_bind _ R_trans); [apply (steps_untouched _ R_refl); hush|].
  intros l. destruct (find_series sid l).
  - apply series_loop_steps. intros; apply Hall.
  - apply (steps_untouched _ R_refl), untouched_ret.
Qed.
End WorkerSteps.

Lemma only_touches_refl jid d : only_touches jid d d.
Proof. intros j _. now right. Qed.

Lemma only_touches_trans jid a b c :
  only_touches jid a b -> only_touches jid b c -> only_touches jid a c.
Proof.
  intros Hab Hbc j Hj. destruct (Hbc j Hj) as [H|H]; [now left|].
  rewrite H. now apply Hab.
Qed.

Lemma only_touches_update jid jobs id now kw jobs' :
  id = jid -> update_job_doc jobs id now kw = Some jobs' ->
  only_touches jid jobs jobs'.
Proof.
  intros Eid H j Hj. subst jid. unfold update_job_doc in H.
  destruct (dict_get jobs id) as [r|]; [|discriminate]. injection H as <-.
  destruct (dict_get (_save_jobs _) j) as [r'|] eqn:Eg; [|now left].
  right. apply save_jobs_get in Eg. rewrite dict_get_set in Eg.
  destruct (String.eqb_spec id j) as [->|Hne]; [contradiction|]. now rewrite Eg.
Qed.

Lemma same_ids_refl d : same_ids d d.
Proof. intros H. now split. Qed.

Lemma same_ids_trans a b c : same_ids a b -> same_ids b c -> same_ids a c.
Proof.
  intros Hab Hbc Ha. destruct (Hab Ha) as [Hb Eb].
  destruct (Hbc Hb) as [Hc Ec]. split; [exact Hc|congruence].
Qed.

Lemma same_ids_update jobs id now kw jobs' :
  True -> update_job_doc jobs id now kw = Some jobs' -> same_ids jobs jobs'.
Proof.
  intros _ H [Hnd Hlen]. unfold update_job_doc in H.
  destruct (dict_get jobs id) as [r|] eqn:Er; [|discriminate]. injection H as <-.
  rewrite save_jobs_small
    by now rewrite (length_dict_set_present _ _ _ r).
  assert (Ek : keys (dict_set jobs id (merge_fields r now kw)) = keys jobs).
  { apply keys_set_present. eapply dict_get_in_keys; eassumption. }
  split; [|exact Ek]. split.
  - now rewrite Ek.
  - now rewrite (length_dict_set_present _ _ _ r).
Qed.

(** A terminal [update_job]: the record is written as done with a result, or
    as failed with a message. *)
Lemma update_settles env jid kw :
  (k_status kw = Some Done /\ k_result kw <> None) \/
  (k_status kw = Some Error /\ k_error kw <> None) ->
  settles jid (update_job env jid kw).
Proof.
  intros Hkw w. split; [|apply update_job_total].
  rewrite update_job_run. unfold settled_or_gone, get_job.
  destruct (update_job_doc (_load_jobs w) jid (utc_now env (calls w)) kw)
    as [jobs'|] eqn:E; cbn [snd].
  - change (_load_jobs (write_jobs jobs' (tick w))) with jobs'.
    unfold update_job_doc in E.
    destruct (dict_get (_load_jobs w) jid) as [r|] eqn:Er; [|discriminate].
    injection E as <-.
    destruct (dict_get (_save_jobs _) jid) as [r'|] eqn:Eg; [|exact I].
    apply save_jobs_get in Eg. rewrite dict_get_set, String.eqb_refl in Eg.
    injection Eg as <-. unfold settled, merge_fields; cbn.
    destruct Hkw as [[-> Hr]|[-> He]]; [left|right]; (split; [reflexivity|]).
    + destruct (k_result kw); [discriminate|contradiction].
    + destruct (k_error kw); [discriminate|contradiction].
  - change (_load_jobs (tick w)) with (_load_jobs w).
    unfold update_job_doc in E.
    destruct (dict_get (_load_jobs w) jid); [discriminate|exact I].
Qed.

Lemma settles_ends jid {A} (m : M A) : settles jid m -> ends_settled jid m.
Proof.
  intros H w. destruct (H w) as [Hs _].
  destruct (m w) as [[a|e] w']; [exact Hs|exact I].
Qed.

Lemma ends_bind jid {A B} (m : M A) (k : A -> M B) :
  (forall a, ends_settled jid (k a)) -> ends_settled jid (bind m k).
Proof.
  intros Hk w. unfold bind. destruct (m w) as [[a|e] w1]; [apply Hk|exact I].
Qed.

Lemma ends_then_quiet jid {A B} (m : M A) (k : A -> M B) :
  ends_settled jid m -> (forall a, untouched (k a)) ->
  ends_settled jid (bind m k).
Proof.
  intros Hm Hk w. unfold bind. specialize (Hm w).
  destruct (m w) as [[a|e] w1]; [|exact I].
  destruct (Hk a w1) as [E _].
  destruct (k a w1) as [[b|e] w2]; [|exact I]. cbn [snd] in E.
  unfold settled_or_gone, get_job, _load_jobs in *. now rewrite E.
Qed.

Lemma try_settles jid {A} (m : M A) (h : string -> M A) :
  ends_settled jid m -> (forall e, settles jid (h e)) ->
  settles jid (try_except m h).
Proof.
  intros Hm Hh w. unfold try_except. specialize (Hm w).
  destruct (m w) as [[a|e] w1]; cbn [fst snd].
  - split; [exact Hm|now exists a].
  - apply Hh.
Qed.

(** Walks through a worker body for a goal [ends_settled jid m]. *)
Ltac settle :=
  lazy zeta;
  repeat first
    [ solve [apply settles_ends, update_settles;
             first [left; split; [reflexivity|discriminate]
                   |right; split; [reflexivity|discriminate]]]
    | solve [apply ends_then_quiet;
             [apply settles_ends, update_settles;
              first [left; split; [reflexivity|discriminate]
                    |right; split; [reflexivity|discriminate]]
             |intros; hush]]
    | match goal with
      | |- ends_settled _ (bind _ _) => apply ends_bind; intros; lazy zeta
      | |- ends_settled _ (if ?b then _ else _) => destruct b
      end ].

Lemma run_generate_settles env jid topic depth va vm trailer brief :
  settles jid (_run_generate env jid topic depth va vm trailer brief).
Proof.
  unfold _run_generate. apply try_settles.
  - settle.
  - intros e. apply update_settles. right. split; [reflexivity|discriminate].
Qed.

Lemma run_chat_settles env jid message topics va vm :
  settles jid (_run_chat env jid message topics va vm).
Proof.
  unfold _run_chat. apply try_settles.
  - settle.
  - intros e. apply update_settles. right. split; [reflexivity|discriminate].
Qed.

Lemma produce_episode_ends env sid entry total_eps ep_num jid topic va vm :
  ends_settled jid
    (produce_episode env sid entry total_eps ep_num jid topic va vm).
Proof. unfold produce_episode. settle. Qed.

Lemma settled_stays jid0 w w1 j :
  only_touches jid0 (_load_jobs w) (_load_jobs w1) ->
  settled_or_gone w1 jid0 ->
  settled_or_gone w j -> settled_or_gone w1 j.
Proof.
  intros Ht H0 Hj. destruct (String.eqb_spec j jid0) as [->|Hne]; [exact H0|].
  unfold settled_or_gone, get_job in *.
  destruct (Ht j Hne) as [E|E]; rewrite E; [exact I|exact Hj].
Qed.

Lemma series_loop_settles env sid entry total_eps va vm episodes :
  forall i w,
    (forall j, settled_or_gone w j ->
       settled_or_gone
         (snd (series_loop env sid entry total_eps va vm i episodes w)) j) /\
    (forall k jid,
       k < length episodes ->
       nth_error (s_job_ids entry) (i + k) = Some jid ->
       settled_or_gone
         (snd (series_loop env sid entry total_eps va vm i episodes w)) jid).
Proof.
  induction episodes as [|topic rest IH]; intros i w.
  - split; [intros j Hj; exact Hj|]. intros k jid Hk. simpl in Hk. lia.
  - cbn [series_loop].
    destruct (nth_error (s_job_ids entry) i) as [jid0|] eqn:En.
    + change (bind (ret jid0) ?k w) with (k jid0 w). cbv beta.
      pose proof (try_settles jid0 _ _
                    (produce_episode_ends env sid entry total_eps (i + 1)
                       jid0 topic va vm)
                    (fun e => update_settles env jid0
                       (mkFields (Some Error) None None (Some e))
                       (or_intror (conj eq_refl
                          (fun H : Some e = None =>
                             eq_ind (Some e)
                               (fun o => match o with
                                         | Some _ => True | None => False end)
                               I None H)))) w) as [Hs [u Hu]].
      assert (Ht : only_touches jid0 (_load_jobs w)
                (_load_jobs (snd (try_except
                   (produce_episode env sid entry total_eps (i + 1) jid0
                      topic va vm)
                   (fun e => update_job env jid0
                      (mkFields (Some Error) None None (Some e))) w)))).
      { apply (steps_try _ (only_touches_trans jid0)).
        - apply (produce_episode_steps _ (fun id => id = jid0)
                   (only_touches_refl jid0) (only_touches_trans jid0)
                   (only_touches_update jid0)). reflexivity.
        - intros e. apply (steps_update _ (fun id => id = jid0)
                             (only_touches_refl jid0)
                             (only_touches_update jid0)). reflexivity. }
      destruct (try_except _ _ w) as [[u'|e] w1] eqn:Et; cbn [fst snd] in *;
        [|discriminate].
      rewrite (bind_run _ _ _ _ _ Et).
      destruct (IH (S i) w1) as [IH1 IH2]. split.
      * intros j Hj. apply IH1. eapply settled_stays; eassumption.
      * intros k jid Hk Hn. destruct k as [|k].
        -- rewrite Nat.add_0_r, En in Hn. injection Hn as <-.
           apply IH1, Hs.
        -- apply (IH2 k); [simpl in Hk; lia|].
           now replace (S i + k) with (i + S k) by lia.
    + change (snd (bind (raise _) _ w)) with w. split; [auto|].
      intros k jid Hk Hn. exfalso.
      apply nth_error_None in En.
      assert (nth_error (s_job_ids entry) (i + k) = None)
        by (apply nth_error_None; lia).
      congruence.
Qed.

Lemma present_finished w w' jid :
  same_ids (_load_jobs w) (_load_jobs w') ->
  settled_or_gone w' jid ->
  registry_ok (_load_jobs w) -> get_job w jid <> None -> finished w' jid.
Proof.
  intros Hs Hg Hok Hin. destruct (Hs Hok) as [_ Ek].
  unfold finished, settled_or_gone, get_job in *.
  destruct (dict_get (_load_jobs w') jid) as [r|] eqn:E; [now exists r|].
  exfalso. apply dict_get_none in E. rewrite Ek in E.
  apply dict_get_none in E. contradiction.
Qed.

(** X7. No worker leaves its job queued or running.  When [_run_generate]
    or [_run_chat] ends, and for every episode job [_run_series] gets to
    (each index below the number of outlined episodes that has a job id),
    the job's record is [done] with a result or [error] with a message,
    unless the id is no longer in the registry; and a job that was in a
    registry within its bound is still there, finished. *)
Theorem workers_settle_jobs (env : Env) (w : World) :
  (forall jid topic depth va vm trailer brief,
     let w' := exec (_run_generate env jid topic depth va vm trailer brief) w in
     settled_or_gone w' jid /\
     (registry_ok (_load_jobs w) -> get_job w jid <> None -> finished w' jid)) /\
  (forall jid message topics va vm,
     let w' := exec (_run_chat env jid message topics va vm) w in
     settled_or_gone w' jid /\
     (registry_ok (_load_jobs w) -> get_job w jid <> None -> finished w' jid)) /\
  (forall sid episodes va vm entry k jid,
     find_series sid (load_series w) = Some entry ->
     k < length episodes ->
     nth_error (s_job_ids entry) k = Some jid ->
     let w' := exec (_run_series env sid episodes va vm) w in
     settled_or_gone w' jid /\
     (registry_ok (_load_jobs w) -> get_job w jid <> None -> finished w' jid)).
Proof.
  split; [|split].
  - intros jid topic depth va vm trailer brief w'.
    assert (Hs : settled_or_gone w' jid)
      by apply (run_generate_settles env jid topic depth va vm trailer brief w).
    split; [exact Hs|]. apply present_finished; [|exact Hs].
    apply (run_generate_steps _ (fun _ => True) same_ids_refl same_ids_trans
             same_ids_update). exact I.
  - intros jid message topics va vm w'.
    assert (Hs : settled_or_gone w' jid)
      by apply (run_chat_settles env jid message topics va vm w).
    split; [exact Hs|]. apply present_finished; [|exact Hs].
    apply (run_chat_steps _ (fun _ => True) same_ids_refl same_ids_trans
             same_ids_update). exact I.
  - intros sid episodes va vm entry k jid Hf Hk Hn w'.
    assert (Hs : settled_or_gone w' jid).
    { subst w'. unfold exec, _run_series.
      change (snd (bind (gets load_series) ?f w)) with (snd (f (load_series w) w)).
      cbv beta. rewrite Hf.
      apply (proj2 (series_loop_settles env sid entry (length episodes) va vm
                      episodes 0 w) k jid Hk Hn). }
    split; [exact Hs|]. apply present_finished; [|exact Hs].
    apply (run_series_steps _ (fun _ => True) same_ids_refl same_ids_trans
             same_ids_update). intros; exact I.
Qed.

(* ------------------------------------------------------------------ *)
(** ** Where [_run_create_series] leaves the series                     *)
(* ------------------------------------------------------------------ *)

Lemma sk_ret {A} (a : A) : series_kept (ret a).
Proof. intros w. reflexivity. Qed.

Lemma sk_raise {A} msg : series_kept (@raise A msg).
Proof. intros w. reflexivity. Qed.

Lemma sk_read {A} (f : nat -> A) : series_kept (read f).
Proof. intros w. reflexivity. Qed.

Lemma sk_ask {A} (f : nat -> result A) : series_kept (ask f).
Proof. intros w. reflexivity. Qed.

Lemma sk_gets {A} (f : World -> A) : series_kept (gets f).
Proof. intros w. reflexivity. Qed.

Lemma sk_need_key {A} k (v : option A) : series_kept (need_key k v).
Proof. intros w. now destruct v. Qed.

Lemma sk_modify (f : World -> World) :
  (forall w, series_file (f w) = series_file w) -> series_kept (modify f).
Proof. intros H w. apply H. Qed.

Lemma sk_bind {A B} (m : M A) (k : A -> M B) :
  series_kept m -> (forall a, series_kept (k a)) -> series_kept (bind m k).
Proof.
  intros Hm Hk w. unfold bind. specialize (Hm w).
  destruct (m w) as [[a|e] w1]; cbn [snd] in *; [|exact Hm].
  now rewrite Hk.
Qed.

Lemma sk_try {A} (m : M A) (h : string -> M A) :
  series_kept m -> (forall e, series_kept (h e)) -> series_kept (try_except m h).
Proof.
  intros Hm Hh w. unfold try_except. specialize (Hm w).
  destruct (m w) as [[a|e] w1]; cbn [snd] in *; [exact Hm|].
  now rewrite Hh.
Qed.

(** Closes a goal [series_kept m] for a computation built from the
    primitives. *)
Ltac kept0 :=
  lazy zeta;
  repeat first
    [ apply sk_ret | apply sk_raise | apply sk_read | apply sk_ask
    | apply sk_gets | apply sk_need_key
    | apply sk_modify; intros; reflexivity
    | assumption
    | apply sk_bind; [|intros; lazy zeta]
    | apply sk_try; [|intros; lazy zeta]
    | match goal with
      | |- series_kept (match ?x with _ => _ end) => destruct x
      end ].

Section SeriesKept.
Variable env : Env.

Lemma sk_update_job jid kw : series_kept (update_job env jid kw).
Proof. unfold update_job. kept0. Qed.

Lemma sk_create_job ty sid sep : series_kept (create_job env ty sid sep).
Proof. unfold create_job. kept0. Qed.

Lemma sk_log_production : series_kept (log_production env).
Proof. unfold log_production. kept0. Qed.

Lemma sk_save_episode entry : series_kept (save_episode entry).
Proof. unfold save_episode. kept0. Qed.

Lemma sk_generate_grounded_script topic depth brief :
  series_kept (generate_grounded_script env topic depth brief).
Proof. unfold generate_grounded_script. kept0. Qed.

Lemma sk_get_elevenlabs_client : series_kept (get_elevenlabs_client env).
Proof. unfold get_elevenlabs_client. kept0. Qed.

Lemma sk_resolve_voice_call q : series_kept (resolve_voice_call env q).
Proof. unfold resolve_voice_call. kept0. Qed.

Lemma sk_synthesize script a b : series_kept (synthesize env script a b).
Proof.
  induction script as [|seg rest IH]; cbn [synthesize]; kept0.
Qed.

Lemma sk_generate_episode_audio script a b :
  series_kept (generate_episode_audio env script a b).
Proof.
  unfold generate_episode_audio.
  apply sk_bind; [apply sk_ask|intros; apply sk_synthesize].
Qed.

Lemma sk_generate_series_outline seed n :
  series_kept (generate_series_outline env seed n).
Proof. unfold generate_series_outline. kept0. Qed.

Lemma sk_create_episode_jobs sid episodes :
  series_kept (create_episode_jobs env sid episodes).
Proof.
  induction episodes as [|ep rest IH]; cbn [create_episode_jobs].
  - apply sk_ret.
  - apply sk_bind; [apply sk_need_key|intros].
    apply sk_bind; [apply sk_create_job|intros].
    apply sk_bind; [apply IH|intros; apply sk_ret].
Qed.
End SeriesKept.

Ltac kept :=
  lazy zeta;
  repeat first
    [ apply sk_update_job | apply sk_create_job | apply sk_log_production
    | apply sk_save_episode | apply sk_generate_grounded_script
    | apply sk_get_elevenlabs_client | apply sk_resolve_voice_call
    | apply sk_generate_episode_audio
    | apply sk_ret | apply sk_raise | apply sk_read | apply sk_ask
    | apply sk_gets | apply sk_need_key
    | apply sk_bind; [|intros; lazy zeta]
    | apply sk_try; [|intros; lazy zeta]
    | match goal with
      | |- series_kept (if ?b then _ else _) => destruct b
      end ].

Lemma counted_refl sid n l : counted sid n l l.
Proof.
  unfold counted. destruct (find_series sid l); [|exact I].
  repeat split; lia.
Qed.

Lemma counted_trans sid a b l1 l2 l3 :
  counted sid a l1 l2 -> counted sid b l2 l3 -> counted sid (a + b) l1 l3.
Proof.
  unfold counted.
  destruct (find_series sid l1) as [s1|], (find_series sid l2) as [s2|],
    (find_series sid l3) as [s3|]; try tauto.
  intros (E1 & E2 & E3 & E4 & E5 & H) (F1 & F2 & F3 & F4 & F5 & G).
  repeat split; try congruence; lia.
Qed.

Lemma counted_weaken sid a b l1 l2 :
  a <= b -> counted sid a l1 l2 -> counted sid b l1 l2.
Proof.
  unfold counted.
  destruct (find_series sid l1) as [s1|], (find_series sid l2) as [s2|];
    try tauto.
  intros Hab (E1 & E2 & E3 & E4 & E5 & H). repeat split; try assumption; lia.
Qed.

Lemma counts_kept sid n {A} (m : M A) : series_kept m -> counts sid n m.
Proof.
  intros H w. unfold load_series. rewrite H. apply counted_refl.
Qed.

Lemma counts_bind sid a b {A B} (m : M A) (k : A -> M B) :
  counts sid a m -> (forall x, counts sid b (k x)) ->
  counts sid (a + b) (bind m k).
Proof.
  intros Hm Hk w. unfold bind. specialize (Hm w).
  destruct (m w) as [[x|e] w1]; cbn [snd] in *.
  - eapply counted_trans; [exact Hm|apply Hk].
  - eapply counted_weaken; [|exact Hm]. lia.
Qed.

Lemma counts_try sid a b {A} (m : M A) (h : string -> M A) :
  counts sid a m -> (forall e, counts sid b (h e)) ->
  counts sid (a + b) (try_except m h).
Proof.
  intros Hm Hh w. unfold try_except. specialize (Hm w).
  destruct (m w) as [[x|e] w1]; cbn [snd] in *.
  - eapply counted_weaken; [|exact Hm]. lia.
  - eapply counted_trans; [exact Hm|apply Hh].
Qed.

Lemma counts_after_kept sid n {A B} (m : M A) (k : A -> M B) :
  series_kept m -> (forall x, counts sid n (k x)) -> counts sid n (bind m k).
Proof.
  intros Hm Hk. apply (counts_bind sid 0 n); [now apply counts_kept|exact Hk].
Qed.

Lemma counts_count_completed env sid : counts sid 1 (count_completed env sid).
Proof.
  intros w. unfold count_completed.
  change (snd (bind (gets load_series) ?k w)) with (snd (k (load_series w) w)).
  cbv beta. unfold counted.
  destruct (find_series sid (load_series w)) as [s|] eqn:E.
  - unfold bind, ask, modify.
    destruct (filesystem env (calls w)) as [u|e]; cbn [snd].
    + change (load_series (save_series ?l (tick w))) with l.
      rewrite (find_modify_series sid bump_completed _ s E eq_refl).
      cbn. repeat split; lia.
    + change (load_series (tick w)) with (load_series w). rewrite E.
      repeat split; lia.
  - cbn. now rewrite E.
Qed.

(** Walks through the body of an episode for a goal [counts sid 1 m]. *)
Ltac tally :=
  lazy zeta;
  repeat first
    [ apply counts_count_completed
    | solve [apply counts_kept; kept]
    | match goal with
      | |- counts _ _ (bind _ _) =>
          apply counts_after_kept; [solve [kept]|intros; lazy zeta]
      | |- counts _ _ (if ?b then _ else _) => destruct b
      end ].

Lemma produce_episode_counts env sid entry total_eps ep_num jid topic va vm :
  counts sid 1 (produce_episode env sid entry total_eps ep_num jid topic va vm).
Proof. unfold produce_episode. tally. Qed.

Lemma series_loop_counts env sid entry total_eps va vm episodes :
  forall i,
    counts sid (length episodes)
      (series_loop env sid entry total_eps va vm i episodes).
Proof.
  induction episodes as [|topic rest IH]; intros i.
  - apply counts_kept, sk_ret.
  - cbn [series_loop length].
    apply counts_after_kept; [destruct (nth_error _ _); kept|intros jid].
    apply (counts_bind sid 1 (length rest)); [|intros; apply IH].
    apply (counts_try sid 1 0).
    + apply produce_episode_counts.
    + intros e. apply counts_kept, sk_update_job.
Qed.

Lemma run_series_counts env sid episodes va vm :
  counts sid (length episodes) (_run_series env sid episodes va vm).
Proof.
  unfold _run_series. apply counts_after_kept; [apply sk_gets|intros l].
  destruct (find_series sid l).
  - apply series_loop_counts.
  - apply counts_kept, sk_ret.
Qed.

Lemma create_episode_jobs_length env sid episodes :
  forall w ids w',
    create_episode_jobs env sid episodes w = (Ok ids, w') ->
    length ids = length episodes.
Proof.
  induction episodes as [|ep rest IH]; intros w ids w'; cbn [create_episode_jobs].
  - intros [= <- _]. reflexivity.
  - unfold bind at 1.
    destruct (need_key _ _ w) as [[num|e] w1]; [|discriminate].
    unfold bind at 1.
    destruct (create_job env SeriesEp (Some sid) (Some num) w1)
      as [[jid|e] w2]; [|discriminate].
    unfold bind at 1.
    destruct (create_episode_jobs env sid rest w2) as [[more|e] w3] eqn:Er;
      [|discriminate].
    intros [= <- _]. simpl. f_equal. eapply IH; eassumption.
Qed.

Lemma fail_series_run sid msg w s :
  find_series sid (load_series w) = Some s ->
  fail_series sid msg w
  = (Ok tt, save_series (modify_series sid (set_error msg) (load_series w)) w).
Proof.
  intros E. unfold fail_series.
  change (bind (gets load_series) ?k w) with (k (load_series w) w).
  cbv beta. now rewrite E.
Qed.

Lemma bind_inv {A B} (m : M A) (k : A -> M B) w r w' :
  bind m k w = (r, w') ->
  (exists a w1, m w = (Ok a, w1) /\ k a w1 = (r, w')) \/
  (exists e, m w = (Raise e, w') /\ r = Raise e).
Proof.
  unfold bind. destruct (m w) as [[a|e] w1]; intros H.
  - left. now exists a, w1.
  - right. exists e. now injection H as <- <-.
Qed.

Lemma kept_find sid {A} (m : M A) w r w' s :
  series_kept m -> m w = (r, w') ->
  find_series sid (load_series w) = Some s ->
  find_series sid (load_series w') = Some s.
Proof.
  intros Hk Hm Hs. specialize (Hk w). rewrite Hm in Hk. cbn [snd] in Hk.
  unfold load_series in *. now rewrite Hk.
Qed.

Lemma series_failed sid msg w s :
  find_series sid (load_series w) = Some s ->
  s_completed s <= s_total s ->
  exists s',
    find_series sid (load_series (snd (fail_series sid msg w))) = Some s' /\
    series_closed (snd (fail_series sid msg w)) s' /\
    s_completed s' <= s_total s'.
Proof.
  intros E Hc. rewrite (fail_series_run sid msg w s E). cbn [snd].
  change (load_series (save_series ?l w)) with l.
  exists (set_error msg s). split; [now apply find_modify_series|].
  split; [|exact Hc]. right. split; [reflexivity|discriminate].
Qed.

(** X8. Where [_run_create_series] leaves a series that is in the list
    (with no more episodes counted than its total): the entry is still
    there, and it is either [done], with as many job ids and episodes as
    its total and none of its jobs queued or running, or [error] with a
    message; in both cases the completed count is at most the total. *)
Theorem create_series_outcome (env : Env) (w : World) (sid : string)
    (seed : Topic + string) (n : nat) (va vm : string) (entry : Series)
    (Hfind : find_series sid (load_series w) = Some entry)
    (Hcount : s_completed entry <= s_total entry) :
  let w' := exec (_run_create_series env sid seed n va vm) w in
  exists s,
    find_series sid (load_series w') = Some s /\
    series_closed w' s /\
    s_completed s <= s_total s.
Proof.
  intros w'. subst w'. unfold exec, _run_create_series.
  unfold try_except.
  change (bind (gets load_series) ?k w) with (k (load_series w) w).
  cbv beta. rewrite Hfind.
  change (bind (modify ?f) ?k w) with (k tt (f w)). cbv beta.
  set (w1 := save_series _ w).
  assert (E1 : find_series sid (load_series w1)
               = Some (set_status Outlining entry))
    by (apply find_modify_series; [exact Hfind|reflexivity]).
  clearbody w1.
  destruct (bind _ _ w1) as [r w5] eqn:Eb.
  apply bind_inv in Eb.
  destruct Eb as [(eps & w2 & Eo & Eb)|(e & Eo & ->)].
  2:{ apply series_failed with (s := set_status Outlining entry); [|exact Hcount].
      eapply kept_find; [apply sk_generate_series_outline|exact Eo|exact E1]. }
  pose proof (kept_find sid _ _ _ _ _ (sk_generate_series_outline env seed n)
                Eo E1) as E2.
  apply bind_inv in Eb.
  destruct Eb as [(ids & w3 & Ec & Eb)|(e & Ec & ->)].
  2:{ apply series_failed with (s := set_status Outlining entry); [|exact Hcount].
      eapply kept_find; [apply sk_create_episode_jobs|exact Ec|exact E2]. }
  pose proof (kept_find sid _ _ _ _ _ (sk_create_episode_jobs env sid eps)
                Ec E2) as E3.
  pose proof (create_episode_jobs_length env sid eps _ _ _ Ec) as Hlen.
  change (bind (gets load_series) ?k w3) with (k (load_series w3) w3) in Eb.
  cbv beta in Eb. rewrite E3 in Eb.
  change (bind (modify ?f) ?k w3) with (k tt (f w3)) in Eb. cbv beta in Eb.
  set (w4 := save_series _ w3) in *.
  set (sp := set_producing eps ids (set_status Outlining entry)).
  assert (E4 : find_series sid (load_series w4) = Some sp)
    by (apply find_modify_series; [exact E3|reflexivity]).
  clearbody w4.
  apply bind_inv in Eb.
  pose proof (run_series_counts env sid eps va vm w4) as Hcnt.
  pose proof (proj2 (series_loop_settles env sid sp (length eps) va vm eps 0 w4))
    as Hset.
  assert (Er : _run_series env sid eps va vm w4
               = series_loop env sid sp (length eps) va vm 0 eps w4).
  { unfold _run_series.
    change (bind (gets load_series) ?k w4) with (k (load_series w4) w4).
    cbv beta. now rewrite E4. }
  rewrite <- Er in Hset. clear Er.
  unfold counted in Hcnt. rewrite E4 in Hcnt.
  destruct Eb as [(u' & w6 & Es & Eb)|(e & Es & ->)].
  - rewrite Es in Hcnt, Hset. cbn [snd] in Hcnt, Hset.
    change (bind (gets load_series) ?k w6) with (k (load_series w6) w6) in Eb.
    cbv beta in Eb.
    destruct (find_series sid (load_series w6)) as [s6|] eqn:E6; [|contradiction].
    injection Eb as <- <-. cbn [snd].
    change (load_series (save_series ?l w6)) with l.
    destruct Hcnt as (_ & _ & Hep & Hids & Htot & Hc).
    exists (set_status SDone s6).
    split; [apply find_modify_series; [exact E6|reflexivity]|].
    cbn in Hep, Hids, Htot, Hc. split.
    + left. cbn. rewrite Hep, Hids, Htot.
      split; [reflexivity|]. split; [exact Hlen|]. split; [reflexivity|].
      intros jid Hin. apply In_nth_error in Hin. destruct Hin as [k Hk].
      assert (Hk' : k < length eps).
      { rewrite <- Hlen. apply nth_error_Some. congruence. }
      exact (Hset k jid Hk' Hk).
    + cbn. lia.
  - rewrite Es in Hcnt. cbn [snd] in Hcnt.
    destruct (find_series sid (load_series w5)) as [s5|] eqn:E5; [|contradiction].
    apply series_failed with (s := s5); [exact E5|].
    destruct Hcnt as (_ & _ & _ & _ & Htot & Hc). cbn in Htot, Hc. lia.
Qed.

Lemma create_series_outcome_witness :
  let w' := exec (_run_create_series studio_env "s1" (inr "The arc"%string) 3
                    "Alex" "Morgan") studio_world in
  exists s,
    find_series "s1" (load_series w') = Some s /\
    series_closed w' s /\
    s_completed s <= s_total s.
Proof.
  apply (create_series_outcome studio_env studio_world "s1"%string
           (inr "The arc"%string) 3 "Alex"%string "Morgan"%string
           sample_series).
  - reflexivity.
  - simpl. lia.
Defined.

Lemma outline_world env seed n w :
  snd (generate_series_outline env seed n w) = w \/
  snd (generate_series_outline env seed n w) = tick w.
Proof.
  unfold generate_series_outline, bind, need_key, ask, ret, raise.
  destruct seed as [topic|prompt]; [destruct (title topic)|]; cbn;
    try (now left);
    destruct (call_anthropic env (calls w) false); cbn;
    try (now right);
    destruct (json_topics env _); now right.
Qed.

Lemma outline_after_save env seed n l w :
  generate_series_outline env seed n (save_series l w)
  = (fst (generate_series_outline env seed n w),
     save_series l (snd (generate_series_outline env seed n w))).
Proof.
  unfold generate_series_outline, bind, need_key, ask, ret, raise.
  destruct seed as [topic|prompt]; [destruct (title topic)|]; cbn;
    try reflexivity;
    destruct (call_anthropic env (calls w) false); cbn;
    try reflexivity;
    destruct (json_topics env _); reflexivity.
Qed.

Lemma modify_series_twice sid f g l :
  (forall s, s_id (f s) = s_id s) ->
  modify_series sid g (modify_series sid f l)
  = modify_series sid (fun s => g (f s)) l.
Proof.
  intros Hid. induction l as [|x l IH]; simpl; [reflexivity|].
  destruct (String.eqb (s_id x) sid) eqn:E; simpl.
  - now rewrite Hid, E.
  - now rewrite E, IH.
Qed.

(** X9. A failed outline stops the series before any job exists.  When
    the series id is not in the list, [_run_create_series] changes
    nothing.  When it is and [generate_series_outline] raises, the entry
    is marked [error] with the message of the exception; no job is
    created, no episode saved and no production logged, and the service
    was called at most once. *)
Theorem outline_failure_stops_series (env : Env) (w : World) (sid : string)
    (seed : Topic + string) (n : nat) (va vm : string) :
  let w' := exec (_run_create_series env sid seed n va vm) w in
  (find_series sid (load_series w) = None -> w' = w) /\
  (forall entry msg,
     find_series sid (load_series w) = Some entry ->
     eval (generate_series_outline env seed n) w = Raise msg ->
     load_series w'
     = modify_series sid (fun s => set_error msg (set_status Outlining s))
         (load_series w) /\
     find_series sid (load_series w')
     = Some (set_error msg (set_status Outlining entry)) /\
     jobs_file w' = jobs_file w /\ jobs_before w' = jobs_before w /\
     episodes_file w' = episodes_file w /\
     production_log w' = production_log w /\
     calls w' <= S (calls w)).
Proof.
  intros w'. subst w'. unfold exec, _run_create_series, try_except.
  change (bind (gets load_series) ?k w) with (k (load_series w) w).
  cbv beta. split.
  - intros ->. reflexivity.
  - intros entry msg Hfind Hraise. rewrite Hfind.
    change (bind (modify ?f) ?k w) with (k tt (f w)). cbv beta.
    set (l1 := modify_series sid (set_status Outlining) (load_series w)).
    destruct (bind _ _ (save_series l1 w)) as [r w5] eqn:Eb.
    unfold bind at 1 in Eb. rewrite outline_after_save in Eb.
    unfold eval in Hraise. rewrite Hraise in Eb. injection Eb as <- <-.
    set (w2 := snd (generate_series_outline env seed n w)).
    assert (E1 : find_series sid l1 = Some (set_status Outlining entry))
      by (apply find_modify_series; [exact Hfind|reflexivity]).
    rewrite (fail_series_run sid msg (save_series l1 w2)
               (set_status Outlining entry) E1).
    cbn [snd]. change (load_series (save_series l1 w2)) with l1.
    change (load_series (save_series ?l ?x)) with l.
    assert (E2 : modify_series sid (set_error msg) l1
                 = modify_series sid
                     (fun s => set_error msg (set_status Outlining s))
                     (load_series w))
      by (apply modify_series_twice; reflexivity).
    split; [exact E2|].
    split.
    { rewrite E2.
      exact (find_modify_series sid
               (fun s => set_error msg (set_status Outlining s)) _ entry
               Hfind eq_refl). }
    cbn [jobs_file jobs_before episodes_file production_log calls save_series].
    destruct (outline_world env seed n w) as [E|E]; fold w2 in E; rewrite E;
      cbn; repeat split; lia.
Qed.

Lemma outline_failure_stops_series_witness :
  find_series "s1"
    (load_series (exec (_run_create_series offline_env "s1" (inr "The arc"%string) 3
                          "Alex" "Morgan") studio_world))
  = Some (set_error "no credentials"%string (set_status Outlining sample_series)).
Proof.
  exact (proj1 (proj2 (proj2
           (outline_failure_stops_series offline_env studio_world "s1"%string
              (inr "The arc"%string) 3 "Alex"%string "Morgan"%string)
           sample_series "no credentials"%string eq_refl eq_refl))).
Defined.

(* ------------------------------------------------------------------ *)
(** ** The feed and the episode list                                    *)
(* ------------------------------------------------------------------ *)

Lemma insert_desc_perm {A} (key : A -> string) x l :
  Permutation (insert_desc key x l) (x :: l).
Proof.
  induction l as [|y l IH]; simpl; [reflexivity|].
  destruct (String.leb (key y) (key x)); [reflexivity|].
  rewrite IH. apply perm_swap.
Qed.

Lemma sort_desc_perm {A} (key : A -> string) l : Permutation (sort_desc key l) l.
Proof.
  induction l as [|x l IH]; simpl; [reflexivity|].
  rewrite insert_desc_perm. now constructor.
Qed.

Lemma insert_desc_sorted {A} (key : A -> string) x l :
  StronglySorted (fun a b => String.leb (key b) (key a) = true) l ->
  StronglySorted (fun a b => String.leb (key b) (key a) = true)
                 (insert_desc key x l).
Proof.
  induction 1 as [|y l Hs IH Hy]; simpl.
  - repeat constructor.
  - destruct (String.leb (key y) (key x)) eqn:E.
    + constructor; [now constructor|].
      constructor; [exact E|].
      rewrite Forall_forall in *. intros z Hz.
      eapply string_leb_trans; [|exact E]. now apply Hy.
    + constructor; [exact IH|].
      rewrite Forall_forall in *. intros z Hz.
      apply (Permutation_in _ (insert_desc_perm key x l)) in Hz.
      destruct Hz as [<-|Hz]; [|now apply Hy].
      destruct (String.leb_total (key y) (key x)) as [H|H]; [congruence|exact H].
Qed.

Lemma sort_desc_sorted {A} (key : A -> string) l :
  StronglySorted (fun a b => String.leb (key b) (key a) = true)
                 (sort_desc key l).
Proof.
  induction l as [|x l IH]; simpl; [constructor|].
  now apply insert_desc_sorted.
Qed.

Lemma insert_desc_greatest {A} (key : A -> string) x l :
  (forall z, In z l -> String.leb (key z) (key x) = true) ->
  insert_desc key x l = x :: l.
Proof.
  destruct l as [|y l]; simpl; [reflexivity|].
  intros H. now rewrite (H y) by now left.
Qed.

Lemma filter_insert_desc {A} (key : A -> string) (p : A -> bool) x l :
  StronglySorted (fun a b => String.leb (key b) (key a) = true) l ->
  filter p (insert_desc key x l)
  = if p x then insert_desc key x (filter p l) else filter p l.
Proof.
  induction 1 as [|y l Hs IH Hy]; simpl.
  - now destruct (p x).
  - destruct (String.leb (key y) (key x)) eqn:E; simpl.
    + destruct (p x) eqn:Ex; [|reflexivity].
      destruct (p y) eqn:Ey.
      * simpl. now rewrite E.
      * symmetry. apply insert_desc_greatest. intros z Hz.
        apply filter_In in Hz. destruct Hz as [Hz _].
        rewrite Forall_forall in Hy.
        eapply string_leb_trans; [|exact E]. now apply Hy.
    + rewrite IH. destruct (p y) eqn:Ey; destruct (p x) eqn:Ex;
        simpl; rewrite ?E; reflexivity.
Qed.

Lemma filter_sort_desc {A} (key : A -> string) (p : A -> bool) l :
  filter p (sort_desc key l) = sort_desc key (filter p l).
Proof.
  induction l as [|x l IH]; simpl; [reflexivity|].
  rewrite filter_insert_desc by apply sort_desc_sorted.
  rewrite IH. now destruct (p x).
Qed.

(** Sorting leaves a list of one key as it is. *)
Lemma sort_desc_one_key {A} (key : A -> string) k l :
  (forall x, In x l -> key x = k) -> sort_desc key l = l.
Proof.
  induction l as [|x l IH]; intros H; simpl; [reflexivity|].
  rewrite IH by (intros; apply H; now right).
  apply insert_desc_greatest. intros z Hz.
  rewrite (H x) by now left. rewrite (H z) by now right.
  apply string_leb_refl.
Qed.

Lemma sort_desc_snoc_latest {A} (key : A -> string) x l :
  (forall z, In z l -> String.ltb (key z) (key x) = true) ->
  sort_desc key (l ++ [x]) = x :: sort_desc key l.
Proof.
  induction l as [|y l IH]; intros H; simpl; [reflexivity|].
  rewrite IH by (intros; apply H; now right). simpl.
  now rewrite (string_ltb_not_leb (key y) (key x)) by (apply H; now left).
Qed.

Lemma filter_app_one {A} (p : A -> bool) l x :
  filter p (l ++ [x]) = if p x then filter p l ++ [x] else filter p l.
Proof.
  rewrite filter_app. simpl. destruct (p x); [reflexivity|apply app_nil_r].
Qed.

(** X10. The items of the feed are the episodes that are not trailers,
    latest publication first, and episodes published at the same instant
    keep the order of the episode list.  The feed has as many items as
    [api_episodes] counts full episodes.  Saving a trailer leaves the feed
    as it is; saving a full episode published later than every episode of
    the list puts it at the head of the feed. *)
Theorem feed_order (w : World) :
  let eps := load_episodes w in
  Permutation (feed_episodes eps)
    (filter (fun e => negb (ep_is_trailer e)) eps) /\
  StronglySorted
    (fun a b => String.leb (ep_published b) (ep_published a) = true)
    (feed_episodes eps) /\
  (forall stamp,
     filter (fun e => String.eqb (ep_published e) stamp) (feed_episodes eps)
     = filter (fun e => negb (ep_is_trailer e)
                        && String.eqb (ep_published e) stamp) eps) /\
  length (feed_episodes eps) = snd (fst (api_episodes w)) /\
  snd (fst (api_episodes w)) + snd (api_episodes w) = length eps /\
  (forall entry,
     let eps' := load_episodes (exec (save_episode entry) w) in
     (ep_is_trailer entry = true -> feed_episodes eps' = feed_episodes eps) /\
     (ep_is_trailer entry = false ->
      (forall e, In e eps ->
         String.ltb (ep_published e) (ep_published entry) = true) ->
      feed_episodes eps' = entry :: feed_episodes eps)).
Proof.
  intros eps. unfold feed_episodes.
  split; [apply sort_desc_perm|].
  split; [apply sort_desc_sorted|].
  split.
  { intros stamp. rewrite filter_sort_desc, filter_twice.
    apply (sort_desc_one_key ep_published stamp).
    intros x Hx. apply filter_In in Hx. destruct Hx as [_ Hx].
    apply andb_prop in Hx. now apply String.eqb_eq. }
  split.
  { unfold api_episodes. cbn [fst snd]. fold eps.
    apply Permutation_length, sort_desc_perm. }
  split.
  { unfold api_episodes. cbn [fst snd]. fold eps. clear.
    induction eps as [|e l IH]; simpl; [reflexivity|].
    destruct (ep_is_trailer e); simpl; lia. }
  intros entry.
  change (load_episodes (exec (save_episode entry) w)) with (eps ++ [entry]).
  rewrite filter_app_one. split.
  - intros ->. reflexivity.
  - intros -> Hlate. cbn [negb].
    apply sort_desc_snoc_latest. intros z Hz.
    apply filter_In in Hz. now apply Hlate.
Qed.

Example feed_order_sample :
  map ep_id
    (feed_episodes
       [sample_entry "a" false "2024-01-02"; sample_entry "t" true "2024-01-09";
        sample_entry "b" false "2024-01-05"; sample_entry "c" false "2024-01-02"])
  = ["b"; "a"; "c"]%string.
Proof. reflexivity. Qed.

Lemma filter_split {A} (p : A -> bool) l :
  forall l1 x l2,
    filter p l = l1 ++ x :: l2 ->
    exists l1' l2',
      l = l1' ++ x :: l2' /\ filter p l1' = l1 /\ filter p l2' = l2.
Proof.
  induction l as [|y l IH]; intros l1 x l2; simpl.
  - intros H. destruct l1; discriminate.
  - destruct (p y) eqn:Ey.
    + destruct l1 as [|z l1]; simpl; intros [= -> H].
      * exists [], l. simpl. auto.
      * destruct (IH _ _ _ H) as (l1' & l2' & -> & E1 & E2).
        exists (z :: l1'), l2'. simpl. rewrite Ey, E1. auto.
    + intros H. destruct (IH _ _ _ H) as (l1' & l2' & -> & E1 & E2).
      exists (y :: l1'), l2'. simpl. rewrite Ey. auto.
Qed.

Lemma find_id_none id (eps : list Episode) :
  find (fun e => String.eqb (ep_id e) id) eps = None <->
  ~ In id (map ep_id eps).
Proof.
  induction eps as [|e l IH]; simpl; [tauto|].
  destruct (String.eqb_spec (ep_id e) id) as [E|E].
  - split; [discriminate|]. intros H. exfalso. apply H. now left.
  - rewrite IH. tauto.
Qed.

(** X12. Deleting an episode.  The reply is 404 exactly when no entry of
    the list has the id, and then nothing is written.  Otherwise it is
    200: every entry with that id is gone (not only the first one), the
    other entries are kept in their order, the feed loses exactly the
    items of that id, and asking again for the same id gives 404.  Jobs
    and series are never touched. *)
Theorem episode_delete_effect (id : string) (w : World) :
  let eps := load_episodes w in
  let status := fst (api_episode_delete id w) in
  let w' := snd (api_episode_delete id w) in
  (status = 404 \/ status = 200) /\
  (status = 404 <-> ~ In id (map ep_id eps)) /\
  (status = 404 -> w' = w) /\
  (status = 200 ->
     (forall e, In e (load_episodes w') <-> In e eps /\ ep_id e <> id) /\
     (forall a b pre mid post,
        load_episodes w' = pre ++ a :: mid ++ b :: post ->
        exists pre' mid' post', eps = pre' ++ a :: mid' ++ b :: post') /\
     length (load_episodes w') < length eps /\
     feed_episodes (load_episodes w')
     = filter (fun e => negb (String.eqb (ep_id e) id)) (feed_episodes eps) /\
     fst (api_episode_delete id w') = 404) /\
  jobs_file w' = jobs_file w /\ series_file w' = series_file w.
Proof.
  intros eps status w'. subst status w'. unfold api_episode_delete.
  fold eps.
  pose proof (find_id_none id eps) as Hnone.
  destruct (find (fun e => String.eqb (ep_id e) id) eps) as [target|] eqn:Ef;
    cbn [fst snd].
  - split; [now right|].
    split; [split; [discriminate|]; intros H; apply Hnone in H; discriminate|].
    split; [discriminate|].
    split; [|split; reflexivity]. intros _.
    change (load_episodes (write_episodes ?l w)) with l.
    split; [|split; [|split; [|split]]].
    + intros e. rewrite filter_In.
      destruct (String.eqb_spec (ep_id e) id); simpl; intuition congruence.
    + intros a b pre mid post H.
      apply filter_split in H. destruct H as (pre' & r & -> & _ & H).
      apply filter_split in H. destruct H as (mid' & post' & -> & _ & _).
      now exists pre', mid', post'.
    + apply find_some in Ef. destruct Ef as [Hin Hid].
      clear Hnone. induction eps as [|e l IH]; [contradiction|]. simpl.
      destruct Hin as [->|Hin].
      * rewrite Hid. simpl.
        pose proof (filter_length_le
                      (fun e => negb (String.eqb (ep_id e) id)) l). lia.
      * specialize (IH Hin).
        destruct (negb (String.eqb (ep_id e) id)); simpl; lia.
    + unfold feed_episodes. rewrite filter_sort_desc, !filter_twice.
      f_equal. apply filter_ext. intros e. apply andb_comm.
    + assert (En : find (fun e => String.eqb (ep_id e) id)
                     (filter (fun e => negb (String.eqb (ep_id e) id)) eps)
                   = None).
      { apply find_id_none. rewrite in_map_iff. intros (e & He & Hin).
        apply filter_In in Hin. destruct Hin as [_ Hin].
        apply String.eqb_eq in He. now rewrite He in Hin. }
      now rewrite En.
  - split; [now left|].
    split; [split; [intros _; now apply Hnone|reflexivity]|].
    split; [reflexivity|].
    split; [discriminate|split; reflexivity].
Qed.

Lemma string_app_assoc (a b c : string) :
  ((a ++ b) ++ c = a ++ (b ++ c))%string.
Proof. induction a as [|x a IH]; simpl; [reflexivity|now rewrite IH]. Qed.

Lemma each_app f (a b : string) :
  each f (a ++ b)%string = (each f a ++ each f b)%string.
Proof.
  induction a as [|x a IH]; simpl; [reflexivity|].
  now rewrite IH, string_app_assoc.
Qed.

Lemma replace_char_each c by_ s :
  replace_char c by_ s
  = each (fun a => if Ascii.eqb a c then by_ else String a EmptyString) s.
Proof.
  induction s as [|a s IH]; simpl; [reflexivity|].
  rewrite IH. now destruct (Ascii.eqb a c).
Qed.

Lemma each_each f g s : each g (each f s) = each (fun c => each g (f c)) s.
Proof.
  induction s as [|a s IH]; simpl; [reflexivity|].
  now rewrite each_app, IH.
Qed.

Lemma each_ext f g s : (forall c, f c = g c) -> each f s = each g s.
Proof.
  intros H. induction s as [|a s IH]; simpl; [reflexivity|].
  now rewrite H, IH.
Qed.

Lemma esc_each s : esc s = each entity s.
Proof.
  unfold esc. rewrite !replace_char_each, !each_each.
  apply each_ext. intros c.
  destruct c as [[] [] [] [] [] [] [] []]; reflexivity.
Qed.

Lemma entity_cases c :
  entity c = "&amp;"%string \/ entity c = "&lt;"%string \/
  entity c = "&gt;"%string \/ entity c = "&quot;"%string \/
  (entity c = String c EmptyString /\ c <> "&"%char /\ c <> "<"%char /\
   c <> ">"%char /\ c <> "034"%char).
Proof.
  unfold entity.
  destruct (Ascii.eqb_spec c "&"%char); [now left|].
  destruct (Ascii.eqb_spec c "<"%char); [now right; left|].
  destruct (Ascii.eqb_spec c ">"%char); [now right; right; left|].
  destruct (Ascii.eqb_spec c "034"%char); [now right; right; right; left|].
  now right; right; right; right.
Qed.

Lemma entity_inj c d x y :
  (entity c ++ x = entity d ++ y)%string -> c = d /\ x = y.
Proof.
  unfold entity.
  destruct (Ascii.eqb_spec c "&"%char) as [->|Hc1];
    [|destruct (Ascii.eqb_spec c "<"%char) as [->|Hc2];
      [|destruct (Ascii.eqb_spec c ">"%char) as [->|Hc3];
        [|destruct (Ascii.eqb_spec c "034"%char) as [->|Hc4]]]];
  (destruct (Ascii.eqb_spec d "&"%char) as [->|Hd1];
    [|destruct (Ascii.eqb_spec d "<"%char) as [->|Hd2];
      [|destruct (Ascii.eqb_spec d ">"%char) as [->|Hd3];
        [|destruct (Ascii.eqb_spec d "034"%char) as [->|Hd4]]]]);
  simpl; intros H; try discriminate;
  try (injection H as H; split; congruence).
Qed.

Lemma each_entity_inj s : forall t, each entity s = each entity t -> s = t.
Proof.
  induction s as [|c s IH]; intros [|d t]; simpl; intros H.
  - reflexivity.
  - exfalso. destruct (entity_cases d) as [E|[E|[E|[E|[E _]]]]];
      rewrite E in H; discriminate.
  - exfalso. destruct (entity_cases c) as [E|[E|[E|[E|[E _]]]]];
      rewrite E in H; discriminate.
  - apply entity_inj in H. destruct H as [-> H]. f_equal. now apply IH.
Qed.

Lemma in_string_app c (a b : string) :
  In c (list_ascii_of_string (a ++ b)) <->
  In c (list_ascii_of_string a) \/ In c (list_ascii_of_string b).
Proof.
  induction a as [|x a IH]; simpl; [tauto|]. rewrite IH. tauto.
Qed.

(** X11. The escaping of the feed.  The four replacements in a row amount
    to one pass that writes each of [&], [<], [>] and the double quote as
    its entity and copies every other character, so that nothing is
    escaped twice.  The escaped text holds no [<], [>] or double quote;
    texts are escaped piece by piece; a text without the four characters
    is left as it is; and two different texts never get the same escaped
    form. *)
Theorem esc_properties :
  (forall s, esc s = each entity s) /\
  (forall s c, In c (list_ascii_of_string (esc s)) ->
     c <> "<"%char /\ c <> ">"%char /\ c <> "034"%char) /\
  (forall a b, esc (a ++ b) = (esc a ++ esc b)%string) /\
  (forall s,
     (forall c, In c (list_ascii_of_string s) ->
        c <> "&"%char /\ c <> "<"%char /\ c <> ">"%char /\ c <> "034"%char) ->
     esc s = s) /\
  (forall s t, esc s = esc t -> s = t).
Proof.
  split; [exact esc_each|].
  split.
  { intros s c. rewrite esc_each.
    induction s as [|a s IH]; simpl; [tauto|].
    rewrite in_string_app. intros [H|H]; [|now apply IH].
    destruct (entity_cases a) as [E|[E|[E|[E|[E (_ & N1 & N2 & N3)]]]]];
      rewrite E in H; simpl in H;
      repeat (destruct H as [<-|H]; [repeat split; congruence|]);
      contradiction. }
  split; [intros a b; rewrite !esc_each; apply each_app|].
  split.
  { intros s Hs. rewrite esc_each.
    induction s as [|a s IH]; simpl; [reflexivity|].
    rewrite IH by (intros c Hc; apply Hs; now right).
    destruct (Hs a (or_introl eq_refl)) as (N0 & N1 & N2 & N3).
    unfold entity.
    destruct (Ascii.eqb_spec a "&"%char); [contradiction|].
    destruct (Ascii.eqb_spec a "<"%char); [contradiction|].
    destruct (Ascii.eqb_spec a ">"%char); [contradiction|].
    destruct (Ascii.eqb_spec a "034"%char); [contradiction|].
    reflexivity. }
  intros s t. rewrite !esc_each. apply each_entity_inj.
Qed.

Example esc_sample : esc "a<b & c" = "a&lt;b &amp; c"%string.
Proof. reflexivity. Qed.

(* ------------------------------------------------------------------ *)
(** ** Writing a script                                                 *)
(* ------------------------------------------------------------------ *)

(** X16. [generate_grounded_script] on a topic that has a title and a
    tension never raises, whatever the generation service does: it
    returns what was parsed from a reply of the service, or the built-in
    script with no sources.  It calls the service once, and a second time
    exactly when the first call (with web search) raised; a reply that
    cannot be parsed is not asked for again.  Nothing but the call count
    changes.  The built-in script has twelve segments, Alex and Morgan in
    turn. *)
Theorem script_always_written (env : Env) (topic : Topic)
    (depth brief : string) (w : World) (ttl tns : string)
    (Htitle : title topic = Some ttl) (Htension : tension topic = Some tns) :
  let r := generate_grounded_script env topic depth brief w in
  (exists script sources,
     fst r = Ok (script, sources) /\
     ((exists reply b n,
         call_anthropic env n b = Ok reply /\
         parse_script_reply env reply = Some (script, sources)) \/
      (script = fallback_script ttl tns topic /\ sources = []))) /\
  (calls (snd r) = S (calls w) \/ calls (snd r) = S (S (calls w))) /\
  (calls (snd r) = S (S (calls w)) <->
   exists e, call_anthropic env (calls w) true = Raise e) /\
  jobs_file (snd r) = jobs_file w /\ series_file (snd r) = series_file w /\
  episodes_file (snd r) = episodes_file w /\
  production_log (snd r) = production_log w /\
  map host (fallback_script ttl tns topic)
  = ["Alex"; "Morgan"; "Alex"; "Morgan"; "Alex"; "Morgan";
     "Alex"; "Morgan"; "Alex"; "Morgan"; "Alex"; "Morgan"]%string.
Proof.
  intros r. subst r.
  unfold generate_grounded_script, need_key, bind, try_except, ask, ret, raise.
  rewrite Htitle, Htension.
  assert (Hn : forall n : nat, S n = S (S n) -> False) by (intros; lia).
  destruct (call_anthropic env (calls w) true) as [reply|e] eqn:E1.
  - destruct (parse_script_reply env reply) as [[script sources]|] eqn:Ep;
      cbn [fst snd calls tick jobs_file series_file episodes_file
           production_log].
    + split; [exists script, sources; split; [reflexivity|]; left;
              now exists reply, true, (calls w)|].
      split; [now left|].
      split; [split; [intros H; now apply Hn in H|intros [? ?]; discriminate]|].
      repeat split.
    + split; [eexists _, _; split; [reflexivity|]; now right|].
      split; [now left|].
      split; [split; [intros H; now apply Hn in H|intros [? ?]; discriminate]|].
      repeat split.
  - cbn [fst snd calls tick].
    destruct (call_anthropic env (S (calls w)) false) as [reply|e'] eqn:E2.
    + destruct (parse_script_reply env reply) as [[script sources]|] eqn:Ep;
        cbn [fst snd calls tick jobs_file series_file episodes_file
             production_log].
      * split; [exists script, sources; split; [reflexivity|]; left;
                now exists reply, false, (S (calls w))|].
        split; [now right|].
        split; [split; [intros _; now exists e|reflexivity]|].
        repeat split.
      * split; [eexists _, _; split; [reflexivity|]; now right|].
        split; [now right|].
        split; [split; [intros _; now exists e|reflexivity]|].
        repeat split.
    + cbn [fst snd calls tick jobs_file series_file episodes_file
           production_log].
      split; [eexists _, _; split; [reflexivity|]; now right|].
      split; [now right|].
      split; [split; [intros _; now exists e|reflexivity]|].
      repeat split.
Qed.

Lemma script_always_written_witness :
  fst (generate_grounded_script offline_env
         (sample_episode 1 "Overview" (Some "Why now."%string))
         "standard" "" empty_world)
  = Ok (fallback_script "Overview" "Why now."
          (sample_episode 1 "Overview" (Some "Why now."%string)), []) /\
  calls (snd (generate_grounded_script offline_env
                (sample_episode 1 "Overview" (Some "Why now."%string))
                "standard" "" empty_world)) = 2.
Proof.
  pose proof (script_always_written offline_env
                (sample_episode 1 "Overview"%string (Some "Why now."%string))
                "standard"%string ""%string empty_world
                "Overview"%string "Why now."%string eq_refl eq_refl)
    as (_ & _ & Hcalls & _).
  split; [reflexivity|].
  apply (proj2 Hcalls). exists "no credentials"%string. reflexivity.
Defined.

(* ------------------------------------------------------------------ *)
(** ** The weekly count and the topics endpoint                         *)
(* ------------------------------------------------------------------ *)







Example topics_endpoint_undated_entry :
  fst (api_topics offline_env sample_dates (fun _ => 0%Z) "2024-01-01"
         (write_production_log ["2024-01-01T00:00:00+00:00"; "bad"]%string
            empty_world))
  = Ok (mkTopicsReply (Some "Invalid isoformat string: 'bad'"%string)
          FALLBACK_TOPICS 0 50).
Proof. reflexivity. Qed.

(* ------------------------------------------------------------------ *)
(** ** Workers and the production log                                   *)
(* ------------------------------------------------------------------ *)

Lemma blind_ret {A} (a : A) : blind (ret a).
Proof.
  intros w1 w2 H. cbn. split; [reflexivity|]. split; [exact H|].
  exists []. now rewrite !app_nil_r.
Qed.

Lemma blind_raise {A} msg : blind (@raise A msg).
Proof.
  intros w1 w2 H. cbn. split; [reflexivity|]. split; [exact H|].
  exists []. now rewrite !app_nil_r.
Qed.

Lemma same_but_log_tick w1 w2 :
  same_but_log w1 w2 -> same_but_log (tick w1) (tick w2).
Proof.
  unfold same_but_log. cbn. intros (A1 & A2 & A3 & A4 & A5 & A6 & A7).
  repeat split; congruence.
Qed.

Lemma blind_read {A} (f : nat -> A) : blind (read f).
Proof.
  intros w1 w2 H. cbn. split; [now rewrite (proj1 (proj2 (proj2 (proj2 (proj2 (proj2 H))))))|].
  split; [now apply same_but_log_tick|].
  exists []. now rewrite !app_nil_r.
Qed.

Lemma blind_ask {A} (f : nat -> result A) : blind (ask f).
Proof.
  intros w1 w2 H. cbn. split; [now rewrite (proj1 (proj2 (proj2 (proj2 (proj2 (proj2 H))))))|].
  split; [now apply same_but_log_tick|].
  exists []. now rewrite !app_nil_r.
Qed.

Lemma blind_need_key {A} k (v : option A) : blind (need_key k v).
Proof. destruct v; [apply blind_ret|apply blind_raise]. Qed.

Lemma blind_gets {A} (f : World -> A) :
  (forall w1 w2, same_but_log w1 w2 -> f w1 = f w2) -> blind (gets f).
Proof.
  intros Hf w1 w2 H. cbn. split; [now rewrite (Hf w1 w2 H)|].
  split; [exact H|]. exists []. now rewrite !app_nil_r.
Qed.

Lemma blind_modify (f : World -> World) :
  (forall w1 w2, same_but_log w1 w2 -> same_but_log (f w1) (f w2)) ->
  (forall w, production_log (f w) = production_log w) ->
  blind (modify f).
Proof.
  intros Hf Hl w1 w2 H. cbn. split; [reflexivity|]. split; [now apply Hf|].
  exists []. unfold get_production_log. now rewrite !Hl, !app_nil_r.
Qed.

Lemma blind_bind {A B} (m : M A) (k : A -> M B) :
  blind m -> (forall a, blind (k a)) -> blind (bind m k).
Proof.
  intros Hm Hk w1 w2 H. unfold bind.
  destruct (Hm w1 w2 H) as (E & S1 & st & L1 & L2).
  destruct (m w1) as [[a|e] v1], (m w2) as [[a'|e'] v2]; cbn [fst snd] in *;
    try discriminate.
  - injection E as <-.
    destruct (Hk a v1 v2 S1) as (E' & S2 & st' & L1' & L2').
    split; [exact E'|]. split; [exact S2|].
    exists (st ++ st'). rewrite L1', L2', L1, L2, !app_assoc. auto.
  - injection E as <-. split; [reflexivity|]. split; [exact S1|].
    now exists st.
Qed.

Lemma blind_try {A} (m : M A) (h : string -> M A) :
  blind m -> (forall e, blind (h e)) -> blind (try_except m h).
Proof.
  intros Hm Hh w1 w2 H. unfold try_except.
  destruct (Hm w1 w2 H) as (E & S1 & st & L1 & L2).
  destruct (m w1) as [[a|e] v1], (m w2) as [[a'|e'] v2]; cbn [fst snd] in *;
    try discriminate.
  - split; [exact E|]. split; [exact S1|]. now exists st.
  - injection E as <-.
    destruct (Hh e v1 v2 S1) as (E' & S2 & st' & L1' & L2').
    split; [exact E'|]. split; [exact S2|].
    exists (st ++ st'). rewrite L1', L2', L1, L2, !app_assoc. auto.
Qed.

Lemma blind_log_production env : blind (log_production env).
Proof.
  intros w1 w2 H. unfold log_production, bind, gets, read, modify. cbn.
  pose proof H as (A1 & A2 & A3 & A4 & A5 & A6 & A7).
  split; [reflexivity|]. split.
  - unfold same_but_log. cbn. repeat split; congruence.
  - exists [utc_now env (calls w1)]. rewrite A6. auto.
Qed.

(** Closes a goal [blind m] for a computation built from the primitives
    that read or write the files other than the production log. *)
Ltac unseen :=
  lazy zeta;
  repeat first
    [ apply blind_ret | apply blind_raise | apply blind_read | apply blind_ask
    | apply blind_need_key | apply blind_log_production
    | assumption
    | apply blind_gets; unfold same_but_log, _load_jobs, load_series,
        load_episodes;
        let A1 := fresh in let A2 := fresh in let A3 := fresh in
        let A4 := fresh in let A5 := fresh in let A6 := fresh in
        let A7 := fresh in
        intros ? ? (A1 & A2 & A3 & A4 & A5 & A6 & A7);
        rewrite ?A1, ?A2, ?A3, ?A4, ?A5, ?A6, ?A7; reflexivity
    | apply blind_modify;
        [unfold same_but_log; cbn; unfold _load_jobs;
         let A1 := fresh in let A2 := fresh in let A3 := fresh in
         let A4 := fresh in let A5 := fresh in let A6 := fresh in
         let A7 := fresh in
         intros ? ? (A1 & A2 & A3 & A4 & A5 & A6 & A7);
         rewrite ?A1, ?A2, ?A3, ?A4, ?A5, ?A6, ?A7; repeat split; reflexivity
        |reflexivity]
    | apply blind_bind; [|intros; lazy zeta]
    | apply blind_try; [|intros; lazy zeta]
    | match goal with
      | |- blind (match ?x with _ => _ end) => destruct x
      end ].

Section Blind.
Variable env : Env.

Lemma blind_update_job jid kw : blind (update_job env jid kw).
Proof. unfold update_job. unseen. Qed.

Lemma blind_create_job ty sid sep : blind (create_job env ty sid sep).
Proof. unfold create_job. unseen. Qed.

Lemma blind_save_episode entry : blind (save_episode entry).
Proof. unfold save_episode. unseen. Qed.

Lemma blind_generate_grounded_script topic depth brief :
  blind (generate_grounded_script env topic depth brief).
Proof. unfold generate_grounded_script. unseen. Qed.

Lemma blind_build_trailer_script topic : blind (build_trailer_script topic).
Proof. unfold build_trailer_script. unseen. Qed.

Lemma blind_get_elevenlabs_client : blind (get_elevenlabs_client env).
Proof. unfold get_elevenlabs_client. unseen. Qed.

Lemma blind_resolve_voice_call q : blind (resolve_voice_call env q).
Proof. unfold resolve_voice_call. unseen. Qed.

Lemma blind_synthesize script a b : blind (synthesize env script a b).
Proof. induction script as [|seg rest IH]; cbn [synthesize]; unseen. Qed.

Lemma blind_generate_episode_audio script a b :
  blind (generate_episode_audio env script a b).
Proof.
  unfold generate_episode_audio.
  apply blind_bind; [apply blind_ask|intros; apply blind_synthesize].
Qed.

Lemma blind_count_completed sid : blind (count_completed env sid).
Proof. unfold count_completed. unseen. Qed.

Lemma blind_fail_series sid msg : blind (fail_series sid msg).
Proof. unfold fail_series. unseen. Qed.

Lemma blind_generate_series_outline seed n :
  blind (generate_series_outline env seed n).
Proof. unfold generate_series_outline. unseen. Qed.

Lemma blind_create_episode_jobs sid episodes :
  blind (create_episode_jobs env sid episodes).
Proof.
  induction episodes as [|ep rest IH]; cbn [create_episode_jobs].
  - apply blind_ret.
  - apply blind_bind; [apply blind_need_key|intros].
    apply blind_bind; [apply blind_create_job|intros].
    apply blind_bind; [apply IH|intros; apply blind_ret].
Qed.
End Blind.

Ltac unseen_worker :=
  lazy zeta;
  repeat first
    [ apply blind_update_job | apply blind_create_job
    | apply blind_save_episode | apply blind_generate_grounded_script
    | apply blind_build_trailer_script | apply blind_get_elevenlabs_client
    | apply blind_resolve_voice_call | apply blind_generate_episode_audio
    | apply blind_count_completed | apply blind_fail_series
    | apply blind_generate_series_outline | apply blind_create_episode_jobs
    | apply blind_log_production
    | apply blind_ret | apply blind_raise | apply blind_read | apply blind_ask
    | apply blind_need_key
    | assumption
    | apply blind_bind; [|intros; lazy zeta]
    | apply blind_try; [|intros; lazy zeta]
    | match goal with
      | |- blind (if ?b then _ else _) => destruct b
      end ].

Section BlindWorkers.
Variable env : Env.

Lemma blind_read_context topics : blind (read_context topics).
Proof. induction topics as [|t rest IH]; cbn [read_context]; unseen_worker. Qed.

Lemma blind_chat_to_topic message topics :
  blind (chat_to_topic env message topics).
Proof.
  unfold chat_to_topic.
  apply blind_bind; [apply blind_read_context|intros _].
  apply blind_bind; [apply blind_ask|intros reply].
  destruct (json_topic env (strip_fence reply)); unseen_worker.
Qed.

Lemma blind_run_generate jid topic depth va vm trailer brief :
  blind (_run_generate env jid topic depth va vm trailer brief).
Proof. unfold _run_generate. unseen_worker. Qed.

Lemma blind_run_chat jid message topics va vm :
  blind (_run_chat env jid message topics va vm).
Proof.
  pose proof (blind_chat_to_topic message topics).
  unfold _run_chat. unseen_worker.
Qed.

Lemma blind_produce_episode sid entry total_eps ep_num jid topic va vm :
  blind (produce_episode env sid entry total_eps ep_num jid topic va vm).
Proof. unfold produce_episode. unseen_worker. Qed.

Lemma blind_series_loop sid entry total_eps va vm episodes :
  forall i, blind (series_loop env sid entry total_eps va vm i episodes).
Proof.
  induction episodes as [|topic rest IH]; intros i; cbn [series_loop].
  - apply blind_ret.
  - apply blind_bind;
      [destruct (nth_error _ _); [apply blind_ret|apply blind_raise]|intros].
    apply blind_bind; [|intros; apply IH].
    apply blind_try; [apply blind_produce_episode|intros; apply blind_update_job].
Qed.

Lemma series_list_blind w1 w2 :
  same_but_log w1 w2 -> load_series w1 = load_series w2.
Proof.
  intros (_ & _ & A3 & _). unfold load_series. now rewrite A3.
Qed.

Lemma blind_run_series sid episodes va vm :
  blind (_run_series env sid episodes va vm).
Proof.
  unfold _run_series.
  apply blind_bind; [apply blind_gets, series_list_blind|intros l].
  destruct (find_series sid l); [apply blind_series_loop|apply blind_ret].
Qed.

Lemma blind_save_series l : blind (modify (save_series l)).
Proof.
  apply blind_modify; [|reflexivity].
  unfold same_but_log. cbn. intros w1 w2 (A1 & A2 & A3 & A4 & A5 & A6 & A7).
  repeat split; assumption.
Qed.

Lemma blind_run_create_series sid seed n va vm :
  blind (_run_create_series env sid seed n va vm).
Proof.
  unfold _run_create_series.
  apply blind_try; [|intros; apply blind_fail_series].
  apply blind_bind; [apply blind_gets, series_list_blind|intros l].
  destruct (find_series sid l); [|apply blind_ret].
  apply blind_bind; [apply blind_save_series|intros _].
  apply blind_bind; [apply blind_generate_series_outline|intros eps].
  apply blind_bind; [apply blind_create_episode_jobs|intros ids].
  apply blind_bind; [apply blind_gets, series_list_blind|intros l'].
  apply blind_bind;
    [destruct (find_series sid l'); [apply blind_save_series|apply blind_raise]
    |intros _].
  apply blind_bind; [apply blind_run_series|intros _].
  apply blind_bind; [apply blind_gets, series_list_blind|intros l''].
  destruct (find_series sid l''); [apply blind_save_series|apply blind_ret].
Qed.
End BlindWorkers.

(** X14. The weekly cap is never enforced.  No worker looks at the
    production log: started from two worlds that differ in the log only
    (one may hold any number of recent productions, or be unreadable),
    [_run_generate], [_run_chat], [_run_series] and [_run_create_series]
    give the same result, leave the same jobs, series and episodes, and
    append the same entries to the log. *)
Theorem workers_ignore_cap (env : Env) :
  (forall jid topic depth va vm trailer brief,
     blind (_run_generate env jid topic depth va vm trailer brief)) /\
  (forall jid message topics va vm,
     blind (_run_chat env jid message topics va vm)) /\
  (forall sid episodes va vm, blind (_run_series env sid episodes va vm)) /\
  (forall sid seed n va vm, blind (_run_create_series env sid seed n va vm)).
Proof.
  split; [intros; apply blind_run_generate|].
  split; [intros; apply blind_run_chat|].
  split; [intros; apply blind_run_series|].
  intros; apply blind_run_create_series.
Qed.

Example cap_not_enforced_sample :
  let w := write_production_log (repeat "2024-01-01T00:00:00+00:00"%string 60)
             studio_world in
  let w' := exec (_run_generate studio_env "a"
                    (sample_episode 1 "Overview" (Some "Why now."%string))
                    "standard" "Alex" "Morgan" false "") w in
  status_in (_load_jobs w') "a" = Some Done /\
  length (get_production_log w') = 61.
Proof. vm_compute. split; reflexivity. Qed.

(* ------------------------------------------------------------------ *)
(** ** Queueing a topic from the dashboard                              *)
(* ------------------------------------------------------------------ *)

(** X15. [autoqueue_ar_topic] never raises, and each outcome has its
    condition.  It returns [None] without writing the registry when the
    dashboard gave nothing (and then the generation service is not
    called), when the service call raises, when its reply is no topic,
    and when the topic has no title.  In the one remaining case, a reply
    that is a topic with a title, it creates a job of type [generate]
    under a fresh token, returns it, and has started [_run_generate] on
    that job with the topic retitled with the prefix [[AR] ], depth
    [standard], the given voices, no trailer and the brief of the topic;
    the job is queued in the registry when there was room, and the worker
    started leaves it finished.  Series, episodes and the production log
    are not touched. *)
Theorem autoqueue_outcome (env : Env) (va vm : string) (w : World) :
  let r := autoqueue_ar_topic env va vm w in
  let ar_data := fetch_ar_intelligence env (calls w) in
  let answer := call_anthropic env (S (calls w)) false in
  (exists o, fst r = Ok o) /\
  (ar_data = [] -> fst r = Ok None /\ calls (snd r) = S (calls w)) /\
  (ar_data <> [] -> forall e, answer = Raise e -> fst r = Ok None) /\
  (ar_data <> [] -> forall reply,
     answer = Ok reply -> json_topic env (strip_fence reply) = None ->
     fst r = Ok None) /\
  (ar_data <> [] -> forall reply topic,
     answer = Ok reply -> json_topic env (strip_fence reply) = Some topic ->
     title topic = None -> fst r = Ok None) /\
  (ar_data <> [] -> forall reply topic ttl,
     answer = Ok reply -> json_topic env (strip_fence reply) = Some topic ->
     title topic = Some ttl ->
     let jid := uuid4 env (S (S (calls w))) in
     let job := new_job jid (utc_now env (calls w + 3))
                  (utc_now env (calls w + 4)) Generate None None in
     let started :=
       mkStarted jid (with_title ("[AR] " ++ ttl) topic) "standard" va vm
         false (match production_brief topic with
                | Some b => b | None => EmptyString end) in
     fst r = Ok (Some started) /\
     _load_jobs (snd r) = _save_jobs (dict_set (_load_jobs w) jid job) /\
     jobs_before (snd r) = _load_jobs w :: jobs_before w /\
     (length (_load_jobs w) < 200 -> get_job (snd r) jid = Some job) /\
     settled_or_gone (exec (run_started env started) (snd r)) jid) /\
  (fst r = Ok None ->
   jobs_file (snd r) = jobs_file w /\ jobs_before (snd r) = jobs_before w) /\
  series_file (snd r) = series_file w /\
  episodes_file (snd r) = episodes_file w /\
  production_log (snd r) = production_log w.
Proof.
  intros r ar_data answer. subst r ar_data answer.
  unfold autoqueue_ar_topic, try_except, bind, read, ask, need_key, ret, raise.
  cbn [fst snd].
  destruct (fetch_ar_intelligence env (calls w)) as [|kv ar] eqn:Ef.
  { cbn. split; [now exists None|]. split; [auto|].
    do 4 (split; [intros H; now contradiction H|]). auto. }
  cbn [calls tick].
  destruct (call_anthropic env (S (calls w)) false) as [reply|e] eqn:Ec.
  2:{ cbn. split; [now exists None|]. split; [discriminate|].
      split; [auto|]. do 3 (split; [intros _; intros; discriminate|]). auto. }
  destruct (json_topic env (strip_fence reply)) as [topic|] eqn:Ej.
  2:{ cbn. split; [now exists None|]. split; [discriminate|].
      split; [intros _ e He; discriminate|]. split; [auto|].
      split; [intros _ reply' topic He; injection He as <-; congruence|].
      split; [intros _ reply' topic ttl He; injection He as <-; congruence|].
      auto. }
  destruct (title topic) as [ttl|] eqn:Et.
  2:{ cbn. split; [now exists None|]. split; [discriminate|].
      split; [intros _ e He; discriminate|]. split; [auto|]. split; [auto|].
      split; [intros _ reply' topic' ttl He Hj;
              injection He as <-; rewrite Ej in Hj; injection Hj as <-;
              congruence|].
      auto. }
  unfold create_job, bind, read, gets, modify, ret. cbn [fst snd].
  split; [eexists; reflexivity|]. split; [discriminate|].
  split; [intros _ e He; discriminate|].
  split; [intros _ reply' He Hj; injection He as <-; congruence|].
  split; [intros _ reply' topic' He Hj Ht; injection He as <-;
          rewrite Ej in Hj; injection Hj as <-; congruence|].
  split; [|split; [discriminate|repeat split]].
  intros _ reply' topic' ttl' He Hj Ht. injection He as <-.
  rewrite Ej in Hj. injection Hj as <-. rewrite Et in Ht. injection Ht as <-.
  cbn [calls tick].
  replace (calls w + 3) with (S (S (S (calls w)))) by lia.
  replace (calls w + 4) with (S (S (S (S (calls w))))) by lia.
  lazy zeta.
  change (_load_jobs (write_jobs ?d _)) with d.
  change (_load_jobs (tick (tick (tick (tick (tick w)))))) with (_load_jobs w).
  split; [reflexivity|]. split; [reflexivity|]. split; [reflexivity|].
  split.
  - intros Hlen. unfold get_job.
    change (_load_jobs (write_jobs ?d _)) with d.
    unfold create_job_doc. rewrite save_jobs_small.
    + now rewrite dict_get_set, String.eqb_refl.
    + match goal with
      | |- length (dict_set ?d ?k ?v) <= _ =>
          pose proof (length_dict_set_le d k v)
      end. lia.
  - apply run_generate_settles.
Qed.

Example autoqueue_queues_a_topic :
  let env :=
    {| ANTHROPIC_API_KEY := "key"; utc_now := utc_now studio_env;
       local_stamp := local_stamp studio_env; uuid4 := uuid4 studio_env;
       fetch_ar_intelligence :=
         fun _ => [("positions", "Vendors converge.")]%string;
       call_anthropic := call_anthropic studio_env;
       json_topics := json_topics studio_env;
       json_topic := fun _ => Some one_episode;
       parse_script_reply := parse_script_reply studio_env;
       elevenlabs_client := elevenlabs_client studio_env;
       voices_get_all := voices_get_all studio_env;
       text_to_speech := text_to_speech studio_env;
       filesystem := filesystem studio_env;
       str_lower := ascii_lower; str_title := title_case |} in
  let r := autoqueue_ar_topic env "Alex" "Morgan" studio_world in
  option_map st_job_id (match fst r with Ok o => o | Raise _ => None end)
  = Some "2"%string /\
  option_map (fun s => title (st_topic s))
    (match fst r with Ok o => o | Raise _ => None end)
  = Some (Some "[AR] Overview"%string) /\
  map fst (_load_jobs (snd r)) = ["a"; "2"]%string /\
  status_in (_load_jobs (snd r)) "2" = Some Queued.
Proof. vm_compute. repeat split. Qed.

(* ------------------------------------------------------------------ *)
(** ** Resolving a voice: what can come out                             *)
(* ------------------------------------------------------------------ *)

(** X17. Whatever the case folding does, what [resolve_voice] returns is
    the id of a voice of the catalog that matches the query exactly or by
    substring, and an empty catalog resolves nothing.  As the folding of
    the empty text is empty, an empty query is never unresolved when the
    catalog has a voice, because the empty text is a substring of every
    name: it gives the first voice with an empty name or id, and the
    first voice of the catalog when there is none. *)
Theorem resolve_voice_sound (lower : string -> string)
    (voices : list Voice) (q : string) :
  (forall id, resolve_voice lower voices q = Some id ->
     exists v, In v voices /\ voice_id v = id /\
               (exact_match lower q v = true \/
                partial_match lower q v = true)) /\
  resolve_voice lower [] q = None /\
  (lower EmptyString = EmptyString ->
   forall v rest, voices = v :: rest ->
     exists u, In u voices /\
               resolve_voice lower voices EmptyString = Some (voice_id u) /\
               ((forall x, In x voices ->
                           exact_match lower EmptyString x = false) ->
                u = v)).
Proof.
  split; [|split; [reflexivity|]].
  - intros id. unfold resolve_voice.
    destruct (find (exact_match lower q) voices) as [v|] eqn:E1.
    + intros [= <-]. apply find_some in E1. exists v. tauto.
    + destruct (find (partial_match lower q) voices) as [v|] eqn:E2;
        [|discriminate].
      intros [= <-]. apply find_some in E2. exists v. tauto.
  - intros Hempty v rest ->. unfold resolve_voice.
    destruct (find (exact_match lower EmptyString) (v :: rest)) as [u|] eqn:E1.
    + exists u. split; [now apply find_some in E1|]. split; [reflexivity|].
      intros Hno. apply find_some in E1. destruct E1 as [Hin Hu].
      rewrite (Hno u Hin) in Hu. discriminate.
    + exists v. split; [now left|]. split; [|reflexivity].
      cbn [find]. unfold partial_match at 1. rewrite Hempty.
      now destruct (lower (name v)).
Qed.

Lemma resolve_voice_sound_witness :
  exists u, In u sample_catalog /\
            resolve_voice ascii_lower sample_catalog EmptyString
            = Some (voice_id u) /\
            ((forall x, In x sample_catalog ->
                        exact_match ascii_lower EmptyString x = false) ->
             u = mkVoice "Alex" "voice-a").
Proof.
  exact (proj2 (proj2 (resolve_voice_sound ascii_lower sample_catalog
                         EmptyString))
           eq_refl (mkVoice "Alex" "voice-a")
           [mkVoice "Morgan" "voice-m"] eq_refl).
Defined.

Example resolve_voice_empty_query :
  resolve_voice ascii_lower sample_catalog "" = Some "voice-a"%string.
Proof. reflexivity. Qed.

(* ------------------------------------------------------------------ *)
(** ** What the workers add to the production log                       *)
(* ------------------------------------------------------------------ *)

Lemma logs_weaken a b {A} (m : M A) : a <= b -> logs a m -> logs b m.
Proof.
  intros Hab Hm w. destruct (Hm w) as (st & E & Hl). exists st.
  split; [exact E|lia].
Qed.

Lemma logs_kept {A} (m : M A) :
  (forall w, production_log (snd (m w)) = production_log w) -> logs 0 m.
Proof.
  intros H w. exists []. unfold get_production_log.
  now rewrite H, app_nil_r.
Qed.

Lemma logs_bind a b {A B} (m : M A) (k : A -> M B) :
  logs a m -> (forall x, logs b (k x)) -> logs (a + b) (bind m k).
Proof.
  intros Hm Hk w. unfold bind. destruct (Hm w) as (st & E & Hl).
  destruct (m w) as [[x|e] w1]; cbn [snd] in *.
  - destruct (Hk x w1) as (st' & E' & Hl'). exists (st ++ st').
    rewrite E', E, app_assoc, length_app. split; [reflexivity|lia].
  - exists st. split; [exact E|lia].
Qed.

Lemma logs_try a b {A} (m : M A) (h : string -> M A) :
  logs a m -> (forall e, logs b (h e)) -> logs (a + b) (try_except m h).
Proof.
  intros Hm Hh w. unfold try_except. destruct (Hm w) as (st & E & Hl).
  destruct (m w) as [[x|e] w1]; cbn [snd] in *.
  - exists st. split; [exact E|lia].
  - destruct (Hh e w1) as (st' & E' & Hl'). exists (st ++ st').
    rewrite E', E, app_assoc, length_app. split; [reflexivity|lia].
Qed.

Lemma logs_bind0 n {A B} (m : M A) (k : A -> M B) :
  logs 0 m -> (forall x, logs n (k x)) -> logs n (bind m k).
Proof. intros Hm Hk. now apply (logs_bind 0 n). Qed.

Lemma logs_bind_last n {A B} (m : M A) (k : A -> M B) :
  logs n m -> (forall x, logs 0 (k x)) -> logs n (bind m k).
Proof.
  intros Hm Hk. apply (logs_weaken (n + 0)); [lia|]. now apply logs_bind.
Qed.

Lemma logs_log_production env : logs 1 (log_production env).
Proof.
  intros w. exists [utc_now env (calls w)]. split; [reflexivity|simpl; lia].
Qed.

(** Closes a goal [logs 0 m] for a computation that does not write the
    log. *)
Ltac silent :=
  lazy zeta;
  repeat first
    [ assumption
    | apply logs_kept; intros; reflexivity
    | apply logs_kept; intros ?; unfold need_key;
        match goal with |- context [match ?v with _ => _ end] => destruct v end;
        reflexivity
    | match goal with
      | |- logs 0 (bind _ _) => apply (logs_bind 0 0); [|intros; lazy zeta]
      | |- logs 0 (try_except _ _) => apply (logs_try 0 0); [|intros; lazy zeta]
      | |- logs 0 (match ?x with _ => _ end) => destruct x
      end ].

Section Logs.
Variable env : Env.

Lemma logs_update_job jid kw : logs 0 (update_job env jid kw).
Proof. unfold update_job. silent. Qed.

Lemma logs_create_job ty sid sep : logs 0 (create_job env ty sid sep).
Proof. unfold create_job. silent. Qed.

Lemma logs_save_episode entry : logs 0 (save_episode entry).
Proof. unfold save_episode. silent. Qed.

Lemma logs_generate_grounded_script topic depth brief :
  logs 0 (generate_grounded_script env topic depth brief).
Proof. unfold generate_grounded_script. silent. Qed.

Lemma logs_build_trailer_script topic : logs 0 (build_trailer_script topic).
Proof. unfold build_trailer_script. silent. Qed.

Lemma logs_get_elevenlabs_client : logs 0 (get_elevenlabs_client env).
Proof. unfold get_elevenlabs_client. silent. Qed.

Lemma logs_resolve_voice_call q : logs 0 (resolve_voice_call env q).
Proof. unfold resolve_voice_call. silent. Qed.

Lemma logs_synthesize script a b : logs 0 (synthesize env script a b).
Proof. induction script as [|seg rest IH]; cbn [synthesize]; silent. Qed.

Lemma logs_generate_episode_audio script a b :
  logs 0 (generate_episode_audio env script a b).
Proof.
  pose proof (logs_synthesize script a b).
  unfold generate_episode_audio. silent.
Qed.

Lemma logs_count_completed sid : logs 0 (count_completed env sid).
Proof. unfold count_completed. silent. Qed.

Lemma logs_read_context topics : logs 0 (read_context topics).
Proof. induction topics as [|t rest IH]; cbn [read_context]; silent. Qed.

Lemma logs_chat_to_topic message topics :
  logs 0 (chat_to_topic env message topics).
Proof.
  pose proof (logs_read_context topics).
  unfold chat_to_topic. silent.
Qed.
End Logs.

(** Closes a goal [logs 0 m] for a piece of a worker that does not log. *)
Ltac unlogged :=
  lazy zeta;
  repeat first
    [ apply logs_update_job | apply logs_create_job | apply logs_save_episode
    | apply logs_generate_grounded_script | apply logs_build_trailer_script
    | apply logs_get_elevenlabs_client | apply logs_resolve_voice_call
    | apply logs_generate_episode_audio | apply logs_count_completed
    | apply logs_chat_to_topic
    | apply logs_kept; intros; reflexivity
    | apply logs_kept; intros ?; unfold need_key;
        match goal with |- context [match ?v with _ => _ end] => destruct v end;
        reflexivity
    | match goal with
      | |- logs 0 (bind _ _) => apply (logs_bind 0 0); [|intros; lazy zeta]
      | |- logs 0 (try_except _ _) => apply (logs_try 0 0); [|intros; lazy zeta]
      | |- logs 0 (if ?b then _ else _) => destruct b
      end ].

(** Walks through a worker for a goal [logs 1 m]: the pieces before the
    one that logs and the pieces after it do not log. *)
Ltac ledger :=
  lazy zeta;
  repeat first
    [ apply logs_log_production
    | solve [apply (logs_weaken 0 1); [lia|unlogged]]
    | match goal with
      | |- logs 1 (bind _ _) =>
          first [ apply logs_bind0; [solve [unlogged]|intros; lazy zeta]
                | apply logs_bind_last; [|intros; solve [unlogged]] ]
      | |- logs 1 (if ?b then _ else _) => destruct b
      end ].

Section WorkerLogs.
Variable env : Env.

Lemma run_generate_logs jid topic depth va vm trailer brief :
  logs 1 (_run_generate env jid topic depth va vm trailer brief).
Proof.
  unfold _run_generate. apply (logs_try 1 0); [ledger|intros; unlogged].
Qed.

Lemma run_generate_trailer_logs jid topic depth va vm brief :
  logs 0 (_run_generate env jid topic depth va vm true brief).
Proof. unfold _run_generate. unlogged. Qed.

Lemma run_chat_logs jid message topics va vm :
  logs 1 (_run_chat env jid message topics va vm).
Proof.
  unfold _run_chat. apply (logs_try 1 0); [ledger|intros; unlogged].
Qed.

Lemma produce_episode_logs sid entry total_eps ep_num jid topic va vm :
  logs 1 (produce_episode env sid entry total_eps ep_num jid topic va vm).
Proof. unfold produce_episode. ledger. Qed.

Lemma series_loop_logs sid entry total_eps va vm episodes :
  forall i,
    logs (length episodes)
      (series_loop env sid entry total_eps va vm i episodes).
Proof.
  induction episodes as [|topic rest IH]; intros i; cbn [series_loop length].
  - unlogged.
  - apply logs_bind0; [destruct (nth_error _ _); unlogged|intros jid].
    apply (logs_bind 1 (length rest)); [|intros; apply IH].
    apply (logs_try 1 0); [apply produce_episode_logs|intros; unlogged].
Qed.

Lemma run_series_logs sid episodes va vm :
  logs (length episodes) (_run_series env sid episodes va vm).
Proof.
  unfold _run_series. apply logs_bind0; [unlogged|intros l].
  destruct (find_series sid l); [apply series_loop_logs|].
  apply (logs_weaken 0); [lia|unlogged].
Qed.
End WorkerLogs.

(** X18. What the workers add to the production log.  [_run_generate]
    and [_run_chat] append at most one entry, a trailer none at all, and
    [_run_series] at most one entry per episode; entries already in the
    log are never removed or changed (an unreadable log counts as
    empty). *)
Theorem production_log_accounting (env : Env) :
  (forall jid topic depth va vm trailer brief,
     logs 1 (_run_generate env jid topic depth va vm trailer brief)) /\
  (forall jid topic depth va vm brief w,
     get_production_log
       (exec (_run_generate env jid topic depth va vm true brief) w)
     = get_production_log w) /\
  (forall jid message topics va vm,
     logs 1 (_run_chat env jid message topics va vm)) /\
  (forall sid episodes va vm,
     logs (length episodes) (_run_series env sid episodes va vm)).
Proof.
  split; [intros; apply run_generate_logs|].
  split.
  { intros jid topic depth va vm brief w.
    destruct (run_generate_trailer_logs env jid topic depth va vm brief w)
      as (st & E & Hl).
    unfold exec. rewrite E. destruct st; [apply app_nil_r|simpl in Hl; lia]. }
  split; [intros; apply run_chat_logs|].
  intros; apply run_series_logs.
Qed.

(* ------------------------------------------------------------------ *)
(** ** A voice that cannot be resolved                                  *)
(* ------------------------------------------------------------------ *)

Lemma update_job_step env jid kw w r :
  dict_get (_load_jobs w) jid = Some r ->
  length (_load_jobs w) <= 200 ->
  exists w',
    update_job env jid kw w = (Ok tt, w') /\
    _load_jobs w' = dict_set (_load_jobs w) jid
                      (merge_fields r (utc_now env (calls w)) kw) /\
    length (_load_jobs w') = length (_load_jobs w) /\
    calls w' = S (calls w) /\
    series_file w' = series_file w /\ episodes_file w' = episodes_file w /\
    production_log w' = production_log w.
Proof.
  intros Hr Hlen. rewrite update_job_run. unfold update_job_doc. rewrite Hr.
  eexists. split; [reflexivity|].
  change (_load_jobs (write_jobs ?d _)) with d.
  rewrite save_jobs_small by now rewrite (length_dict_set_present _ _ _ r).
  split; [reflexivity|].
  split; [now apply length_dict_set_present with (r := r)|].
  repeat split.
Qed.

Lemma script_runs env topic depth brief w ttl tns :
  title topic = Some ttl -> tension topic = Some tns ->
  exists r w',
    generate_grounded_script env topic depth brief w = (Ok r, w') /\
    jobs_file w' = jobs_file w /\ series_file w' = series_file w /\
    episodes_file w' = episodes_file w /\
    production_log w' = production_log w.
Proof.
  intros Ht Hn.
  unfold generate_grounded_script, need_key, bind, try_except, ask, ret, raise.
  rewrite Ht, Hn.
  destruct (call_anthropic env (calls w) true) as [reply|e].
  - destruct (parse_script_reply env reply); cbn; eauto 10.
  - cbn. destruct (call_anthropic env (S (calls w)) false) as [reply|e'].
    + destruct (parse_script_reply env reply); cbn; eauto 10.
    + cbn. eauto 10.
Qed.

Section VoiceNotFound.
Variables (env : Env) (catalog : list Voice) (va vm : string).
Hypothesis Hclient : forall n, elevenlabs_client env n = Ok tt.
Hypothesis Hvoices : forall n, voices_get_all env n = Ok catalog.
Hypothesis Hbad :
  unresolved (resolve_voice (str_lower env) catalog va)
  || unresolved (resolve_voice (str_lower env) catalog vm)
  = true.

Lemma client_run w : get_elevenlabs_client env w = (Ok tt, tick w).
Proof. unfold get_elevenlabs_client, ask. now rewrite Hclient. Qed.

Lemma voices_run q w :
  resolve_voice_call env q w
  = (Ok (resolve_voice (str_lower env) catalog q), tick w).
Proof. unfold resolve_voice_call, bind, ask, ret. now rewrite Hvoices. Qed.

Lemma run_generate_voice_missing jid topic depth trailer brief w r :
  registry_ok (_load_jobs w) -> get_job w jid = Some r ->
  let w' := exec (_run_generate env jid topic depth va vm trailer brief) w in
  (exists r', get_job w' jid = Some r' /\ j_status r' = Error /\
              j_error r' = Some "Voice not found"%string) /\
  episodes_file w' = episodes_file w /\
  production_log w' = production_log w /\
  series_file w' = series_file w /\
  calls w' = calls w + 5.
Proof.
  intros [_ Hlen] Hr w'. subst w'. unfold exec, get_job in *.
  unfold _run_generate.
  destruct (update_job_step env jid
              (mkFields (Some Running)
                 (Some "Connecting to voice service..."%string) None None)
              w r Hr Hlen) as (w1 & E1 & J1 & L1 & C1 & S1 & P1 & G1).
  assert (Hr1 : exists r1, dict_get (_load_jobs w1) jid = Some r1)
    by (rewrite J1, dict_get_set, String.eqb_refl; eauto).
  destruct Hr1 as [r1 Hr1].
  set (w4 := tick (tick (tick w1))).
  destruct (update_job_step env jid
              (mkFields (Some Error) None None (Some "Voice not found"%string))
              w4 r1 Hr1 ltac:(change (_load_jobs w4) with (_load_jobs w1); lia))
    as (w5 & E5 & J5 & L5 & C5 & S5 & P5 & G5).
  assert (E : _run_generate env jid topic depth va vm trailer brief w
              = (Ok tt, w5)).
  { unfold _run_generate.
    apply try_run.
    rewrite (bind_run _ _ _ _ _ E1).
    rewrite (bind_run _ _ _ _ _ (client_run w1)).
    rewrite (bind_run _ _ _ _ _ (voices_run va (tick w1))).
    rewrite (bind_run _ _ _ _ _ (voices_run vm (tick (tick w1)))).
    rewrite Hbad. exact E5. }
  unfold _run_generate in E. rewrite E. cbn [snd].
  split.
  - rewrite J5, dict_get_set, String.eqb_refl. eexists.
    split; [reflexivity|]. now split.
  - rewrite P5, S5, G5, C5. subst w4. cbn [episodes_file production_log
      series_file calls tick]. rewrite P1, S1, G1, C1.
    repeat split. lia.
Qed.
Lemma episode_voice_missing sid entry total_eps ep_num jid topic w r ttl tns :
  registry_ok (_load_jobs w) -> get_job w jid = Some r ->
  title topic = Some ttl -> tension topic = Some tns ->
  let w' := exec (try_except
                    (produce_episode env sid entry total_eps ep_num jid topic
                       va vm)
                    (fun e => update_job env jid
                                (mkFields (Some Error) None None (Some e)))) w in
  (exists r', get_job w' jid = Some r' /\ j_status r' = Error /\
              j_error r' = Some "Voice not found"%string) /\
  episodes_file w' = episodes_file w /\
  (exists stamp, get_production_log w' = get_production_log w ++ [stamp]) /\
  series_file w' = series_file w.
Proof.
  intros [_ Hlen] Hr Ht Hn w'. subst w'. unfold exec, get_job in *.
  match goal with
  | |- context [try_except ?m ?h w] =>
      assert (E : exists w9 r9 stamp,
                 m w = (Ok tt, w9) /\
                 dict_get (_load_jobs w9) jid = Some r9 /\
                 j_status r9 = Error /\
                 j_error r9 = Some "Voice not found"%string /\
                 episodes_file w9 = episodes_file w /\
                 get_production_log w9 = get_production_log w ++ [stamp] /\
                 series_file w9 = series_file w)
  end.
  { unfold produce_episode.
    match goal with
    | |- context [bind (update_job env jid ?kw) _] =>
        destruct (update_job_step env jid kw w r Hr Hlen)
          as (w1 & E1 & J1 & L1 & C1 & S1 & P1 & G1)
    end.
    rewrite (bind_run _ _ _ _ _ E1). lazy zeta.
    match goal with
    | |- context [bind (generate_grounded_script env topic ?d ?b) _] =>
        destruct (script_runs env topic d b w1 ttl tns Ht Hn)
          as (sc & w2 & E2 & J2 & S2 & P2 & G2)
    end.
    rewrite (bind_run _ _ _ _ _ E2).
    assert (E3 : log_production env w2
                 = (Ok tt, write_production_log
                             (get_production_log w2 ++ [utc_now env (calls w2)])
                             (tick w2))) by reflexivity.
    rewrite (bind_run _ _ _ _ _ E3).
    set (w3 := write_production_log _ (tick w2)).
    assert (J3 : _load_jobs w3 = _load_jobs w1)
      by (unfold _load_jobs; subst w3; cbn; now rewrite J2).
    assert (Hr1 : exists r1, dict_get (_load_jobs w3) jid = Some r1)
      by (rewrite J3, J1, dict_get_set, String.eqb_refl; eauto).
    destruct Hr1 as [r1 Hr1].
    match goal with
    | |- context [bind (update_job env jid ?kw) _] =>
        destruct (update_job_step env jid kw w3 r1 Hr1
                    ltac:(rewrite J3; lia))
          as (w4 & E4 & J4 & L4 & C4 & S4 & P4 & G4)
    end.
    rewrite (bind_run _ _ _ _ _ E4).
    rewrite (bind_run _ _ _ _ _ (client_run w4)).
    rewrite (bind_run _ _ _ _ _ (voices_run va (tick w4))).
    rewrite (bind_run _ _ _ _ _ (voices_run vm (tick (tick w4)))).
    rewrite Hbad.
    assert (Hr4 : exists r4, dict_get (_load_jobs w4) jid = Some r4)
      by (rewrite J4, dict_get_set, String.eqb_refl; eauto).
    destruct Hr4 as [r4 Hr4].
    set (w7 := tick (tick (tick w4))).
    destruct (update_job_step env jid
                (mkFields (Some Error) None None
                   (Some "Voice not found"%string))
                w7 r4 Hr4
                ltac:(change (_load_jobs w7) with (_load_jobs w4);
                      rewrite L4, J3; lia))
      as (w8 & E8 & J8 & L8 & C8 & S8 & P8 & G8).
    exists w8. eexists. exists (utc_now env (calls w2)).
    split; [exact E8|].
    split; [rewrite J8, dict_get_set, String.eqb_refl; reflexivity|].
    split; [reflexivity|]. split; [reflexivity|].
    unfold get_production_log.
    rewrite P8, G8, S8. subst w7. cbn [episodes_file production_log
      series_file tick]. rewrite P4, G4, S4. subst w3.
    cbn [episodes_file production_log series_file tick write_production_log].
    rewrite P2, S2, P1, S1.
    split; [reflexivity|]. split; [|reflexivity].
    unfold get_production_log. now rewrite G2, G1. }
  destruct E as (w9 & r9 & stamp & E & Hr9 & Hs & He & Hep & Hlog & Hser).
  rewrite (try_run _ _ _ _ _ E). cbn [snd].
  split; [now exists r9|]. split; [exact Hep|]. split; [now exists stamp|].
  exact Hser.
Qed.

(** X19. A voice that cannot be resolved.  With a voice service that
    answers and a catalog in which one of the two voice names resolves to
    nothing, [_run_generate] on a job of the registry marks it [error]
    with the message [Voice not found] after five readings of clock and
    services, before any script is asked for: no episode is saved and no
    production logged.  An episode of [_run_series] ends with the same
    error, but only after its script was written: one production is
    logged for it, while no episode is saved and the series entry is left
    as it is. *)
Theorem voice_not_found :
  (forall jid topic depth trailer brief w r,
     registry_ok (_load_jobs w) -> get_job w jid = Some r ->
     let w' := exec (_run_generate env jid topic depth va vm trailer brief) w in
     (exists r', get_job w' jid = Some r' /\ j_status r' = Error /\
                 j_error r' = Some "Voice not found"%string) /\
     episodes_file w' = episodes_file w /\
     production_log w' = production_log w /\
     series_file w' = series_file w /\
     calls w' = calls w + 5) /\
  (forall sid entry total_eps ep_num jid topic w r ttl tns,
     registry_ok (_load_jobs w) -> get_job w jid = Some r ->
     title topic = Some ttl -> tension topic = Some tns ->
     let w' := exec (try_except
                       (produce_episode env sid entry total_eps ep_num jid
                          topic va vm)
                       (fun e => update_job env jid
                                   (mkFields (Some Error) None None (Some e))))
                 w in
     (exists r', get_job w' jid = Some r' /\ j_status r' = Error /\
                 j_error r' = Some "Voice not found"%string) /\
     episodes_file w' = episodes_file w /\
     (exists stamp, get_production_log w' = get_production_log w ++ [stamp]) /\
     series_file w' = series_file w).
Proof.
  split.
  - intros jid topic depth trailer brief w r Hok Hr.
    exact (run_generate_voice_missing jid topic depth trailer brief w r Hok Hr).
  - intros sid entry total_eps ep_num jid topic w r ttl tns Hok Hr Ht Hn.
    exact (episode_voice_missing sid entry total_eps ep_num jid topic w r
             ttl tns Hok Hr Ht Hn).
Qed.
End VoiceNotFound.

Lemma voice_not_found_witness :
  let w' := exec (_run_generate studio_env "a"
                    (sample_episode 1 "Overview" (Some "Why now."%string))
                    "standard" "Nobody" "Morgan" false "") studio_world in
  (exists r', get_job w' "a" = Some r' /\ j_status r' = Error /\
              j_error r' = Some "Voice not found"%string) /\
  production_log w' = production_log studio_world /\
  calls w' = calls studio_world + 5.
Proof.
  assert (Hok : registry_ok (_load_jobs studio_world)).
  { split; [apply nodupb_sound; reflexivity|simpl; lia]. }
  destruct (proj1 (voice_not_found studio_env sample_catalog
                     "Nobody"%string "Morgan"%string
                     (fun _ => eq_refl) (fun _ => eq_refl) eq_refl)
              "a"%string
              (sample_episode 1 "Overview"%string (Some "Why now."%string))
              "standard"%string false ""%string studio_world
              (snd (sample_job Queued 97)) Hok eq_refl)
    as (Hr & _ & Hp & _ & Hc).
  split; [exact Hr|]. split; [exact Hp|exact Hc].
Defined.
